(** * Claude Conversation Exporter: branch reconstruction, model inference,
      rendering and batch export

    A shallow embedding of [content.js] (the content script) and of the
    browse page script, followed by the properties of the specification.

    JavaScript values are embedded as follows.
    - A property that may be [null], [undefined] or missing is an [option];
      [None] stands for all three.
    - A value is _truthy_ when it is present and, for a string, non-empty.
    - A [Map] keyed by strings, and the archive of JSZip keyed by file
      names, is a [gmap string _].
    - A loop that may run forever takes a [fuel] argument and yields
      [OutOfFuel] when the fuel is exhausted; a thrown exception is the
      outcome [Thrown]. *)

From Stdlib Require Import ZArith Lia Ascii.
From stdpp Require Import base option list strings pretty gmap sets relations sorting.

(** ** Outcomes of a JavaScript computation *)

Inductive outcome (A : Type) : Type :=
| Returned (a : A)
| Thrown (e : string)
| OutOfFuel.
Arguments Returned {A} a.
Arguments Thrown {A} e.
Arguments OutOfFuel {A}.

#[global] Instance outcome_ret : MRet outcome := λ A a, Returned a.
#[global] Instance outcome_bind : MBind outcome := λ A B k o,
  match o with
  | Returned a => k a
  | Thrown e => Thrown e
  | OutOfFuel => OutOfFuel
  end.

#[global] Instance outcome_eq_dec {A} `{EqDecision A} : EqDecision (outcome A).
Proof. solve_decision. Defined.

(** ** Data model *)

(** One block of [message.content]; [content.text] may be missing. *)
Record ContentBlock : Type := {
  block_text : option string
}.

Record Message : Type := {
  uuid : string;
  parent_message_uuid : option string;
  sender : option string;
  content : option (list ContentBlock);
  text : option string;
  msg_created_at : option string
}.

(** A conversation as returned by the server.  The list endpoint returns the
    same shape without [chat_messages] and [current_leaf_message_uuid]. *)
Record Conversation : Type := {
  conv_uuid : string;
  name : option string;
  summary : option string;
  model : option string;
  created_at : option string;
  updated_at : option string;
  chat_messages : option (list Message);
  current_leaf_message_uuid : option string
}.

(** JavaScript truthiness of a possibly absent string. *)
Definition truthy (v : option string) : bool :=
  match v with
  | Some s => bool_decide (s ≠ "")
  | None => false
  end.

(** [a || b] on a possibly absent string with a string default. *)
Definition or_else (v : option string) (d : string) : string :=
  match v with
  | Some s => if truthy v then s else d
  | None => d
  end.

(** ** The JavaScript runtime

    The scripts call into the runtime for dates and for JSON; these calls
    are kept abstract. *)

(** The object written to [export_summary.json] by a batch export. *)
Record ExportSummary : Type := {
  export_date : string;
  total_conversations : nat;
  successful_exports : nat;
  failed_exports : nat;
  failed_conversations : list (option string);
  summary_format : string;
  include_metadata : bool
}.

Class Runtime : Type := {
  (** The time value of [new Date(v)] in milliseconds since the epoch;
      [None] is [NaN], the time value of an invalid date. *)
  Date_getTime : option string → option Z;
  (** [new Date(v).toLocaleString()] *)
  Date_toLocaleString : option string → string;
  (** [new Date().toISOString()] *)
  Date_now_ISO : string;
  (** [JSON.stringify(data, null, 2)] on a conversation record, and
      [JSON.parse]. *)
  JSON_stringify : Conversation → string;
  JSON_parse : string → option Conversation;
  (** [JSON.stringify(summary, null, 2)] *)
  JSON_stringify_summary : ExportSummary → string;
  (** [String.prototype.trim] *)
  String_trim : string → string
}.

(** ** [inferModel] *)

(** Days from 1970-01-01 to the civil date [y]-[m]-[d]. *)
Definition days_from_civil (y m d : Z) : Z :=
  let y := if bool_decide (m ≤ 2)%Z then (y - 1)%Z else y in
  let era := (y / 400)%Z in
  let yoe := (y - era * 400)%Z in
  let mp := if bool_decide (2 < m)%Z then (m - 3)%Z else (m + 9)%Z in
  let doy := ((153 * mp + 2) / 5 + d - 1)%Z in
  let doe := (yoe * 365 + yoe / 4 - yoe / 100 + doy)%Z in
  (era * 146097 + doe - 719468)%Z.

(** The time value of [new Date('yyyy-mm-dd')]: midnight UTC of that day. *)
Definition Date_UTC (y m d : Z) : Z := (days_from_civil y m d * 86400000)%Z.

Definition DEFAULT_MODEL_TIMELINE : list (Z * string) :=
  [ (Date_UTC 2024 1 1, "claude-3-sonnet-20240229");
    (Date_UTC 2024 6 20, "claude-3-5-sonnet-20240620");
    (Date_UTC 2024 10 22, "claude-3-5-sonnet-20241022");
    (Date_UTC 2025 2 24, "claude-3-7-sonnet-20250219");
    (Date_UTC 2025 5 22, "claude-sonnet-4-20250514");
    (Date_UTC 2025 9 29, "claude-sonnet-4-5-20250929");
    (Date_UTC 2025 11 1, "claude-opus-4-5-20251101") ].

(** [conversationDate >= date]; a comparison with [NaN] is false. *)
Definition date_ge (conversationDate : option Z) (date : Z) : bool :=
  match conversationDate with
  | Some t => bool_decide (date ≤ t)%Z
  | None => false
  end.

(** The [for] loop of [inferModel], about to examine the indices below [i]
    from the highest down. *)
Fixpoint timeline_scan (timeline : list (Z * string)) (i : nat)
    (conversationDate : option Z) : option string :=
  match i with
  | O => None
  | S j =>
      match timeline !! j with
      | Some (date, mdl) =>
          if date_ge conversationDate date then Some mdl
          else timeline_scan timeline j conversationDate
      | None => timeline_scan timeline j conversationDate
      end
  end.

Definition inferModel `{Runtime} (conversation : Conversation) : string :=
  if truthy (model conversation) then default "" (model conversation)
  else
    (* Use created_at date to determine which default model was active *)
    let conversationDate := Date_getTime (created_at conversation) in
    match timeline_scan DEFAULT_MODEL_TIMELINE (length DEFAULT_MODEL_TIMELINE)
            conversationDate with
    | Some mdl => mdl
    | None =>
        (* If date is before all known dates, use the first model *)
        default "" (snd <$> head DEFAULT_MODEL_TIMELINE)
    end.

(** [data.model = inferModel(data)] *)
Definition set_model (data : Conversation) (mdl : string) : Conversation :=
  {| conv_uuid := conv_uuid data; name := name data; summary := summary data;
     model := Some mdl;
     created_at := created_at data; updated_at := updated_at data;
     chat_messages := chat_messages data;
     current_leaf_message_uuid := current_leaf_message_uuid data |}.

(** ** [getCurrentBranch] *)

(** [messageMap.has(k)] and [messageMap.get(k)] for a key that may be
    [null]/[undefined]: no message is stored under such a key. *)
Definition Map_has (m : gmap string Message) (k : option string) : bool :=
  match k with
  | Some u => bool_decide (is_Some (m !! u))
  | None => false
  end.

Definition Map_get (m : gmap string Message) (k : option string) : option Message :=
  k ≫= (m !!.).

(** [data.chat_messages.forEach(msg => messageMap.set(msg.uuid, msg))] *)
Definition messageMap (msgs : list Message) : gmap string Message :=
  foldl (λ m msg, <[uuid msg := msg]> m) ∅ msgs.

(** The [while] loop of [getCurrentBranch]; one unit of fuel per evaluation
    of the loop condition. *)
Fixpoint trace_back (fuel : nat) (m : gmap string Message)
    (branch : list Message) (currentUuid : option string) : outcome (list Message) :=
  match fuel with
  | O => OutOfFuel
  | S fuel' =>
      if truthy currentUuid && Map_has m currentUuid then
        match Map_get m currentUuid with
        | Some message =>
            let branch := message :: branch in
            let currentUuid := parent_message_uuid message in
            if negb (Map_has m currentUuid) then Returned branch
            else trace_back fuel' m branch currentUuid
        | None => Thrown "TypeError: message is undefined"
        end
      else Returned branch
  end.

Definition getCurrentBranch (fuel : nat) (data : Conversation) : outcome (list Message) :=
  match chat_messages data with
  | None => Returned []
  | Some msgs =>
      if negb (truthy (current_leaf_message_uuid data)) then Returned []
      else trace_back fuel (messageMap msgs) [] (current_leaf_message_uuid data)
  end.

(** The lookup built by [getCurrentBranch] for a record. *)
Definition lookup_of (data : Conversation) : gmap string Message :=
  messageMap (default [] (chat_messages data)).

(** ** [convertToMarkdown] and [convertToText] *)

(** The line feed of the template literals. *)
Definition nl : string := String (Ascii.ascii_of_nat 10) EmptyString.

(** [`${v}`] for a possibly absent value. *)
Definition interpolate (v : option string) : string := default "null" v.

(** [message.sender === 'human'] *)
Definition is_human (message : Message) : bool :=
  bool_decide (sender message = Some "human").

(** The part of [convertToMarkdown]'s loop body that appends the message
    body to [markdown]. *)
Definition markdown_body (markdown : string) (message : Message) : string :=
  match content message with
  | Some blocks =>
      foldl (λ markdown c,
               if truthy (block_text c)
               then markdown +:+ interpolate (block_text c) +:+ nl +:+ nl
               else markdown) markdown blocks
  | None =>
      if truthy (text message)
      then markdown +:+ interpolate (text message) +:+ nl +:+ nl
      else markdown
  end.

Definition markdown_sender (message : Message) : string :=
  if is_human message then "**You**" else "**Claude**".

(** The body of the [for] loop of [convertToMarkdown]. *)
Definition markdown_message `{Runtime} (includeMetadata : bool)
    (markdown : string) (message : Message) : string :=
  let sender := markdown_sender message in
  let markdown := markdown +:+ sender +:+ ":" +:+ nl +:+ nl in
  let markdown := markdown_body markdown message in
  let markdown :=
    if includeMetadata && truthy (msg_created_at message)
    then markdown +:+ "*" +:+ Date_toLocaleString (msg_created_at message)
                  +:+ "*" +:+ nl +:+ nl
    else markdown in
  markdown +:+ "---" +:+ nl +:+ nl.

Definition convertToMarkdown `{Runtime} (fuel : nat) (data : Conversation)
    (includeMetadata : bool) : outcome string :=
  let markdown := "# " +:+ or_else (name data) "Untitled Conversation" +:+ nl +:+ nl in
  let markdown :=
    if includeMetadata
    then markdown
           +:+ "**Created:** " +:+ Date_toLocaleString (created_at data) +:+ nl
           +:+ "**Updated:** " +:+ Date_toLocaleString (updated_at data) +:+ nl
           +:+ "**Model:** " +:+ interpolate (model data) +:+ nl +:+ nl
           +:+ "---" +:+ nl +:+ nl
    else markdown in
  branchMessages ← getCurrentBranch fuel data;
  mret (foldl (markdown_message includeMetadata) markdown branchMessages).

(** [messageText] of [convertToText]'s loop body. *)
Definition messageText (message : Message) : string :=
  match content message with
  | Some blocks =>
      foldl (λ messageText c,
               if truthy (block_text c)
               then messageText +:+ interpolate (block_text c)
               else messageText) "" blocks
  | None => if truthy (text message) then interpolate (text message) else ""
  end.

(** The variables that [convertToText]'s loop updates. *)
Record text_state : Type := {
  text_acc : string;
  humanSeen : bool;
  assistantSeen : bool
}.

(** Use full label on first occurrence, then abbreviate. *)
Definition senderLabel (humanSeen assistantSeen : bool) (message : Message) : string :=
  if is_human message then (if humanSeen then "H" else "Human")
  else (if assistantSeen then "A" else "Assistant").

(** The callback of [branchMessages.forEach] in [convertToText]. *)
Definition text_message (st : text_state) (message : Message) : text_state :=
  let messageText := messageText message in
  let senderLabel := senderLabel (humanSeen st) (assistantSeen st) message in
  {| text_acc := text_acc st +:+ senderLabel +:+ ": " +:+ messageText +:+ nl +:+ nl;
     humanSeen := if is_human message then true else humanSeen st;
     assistantSeen := if is_human message then assistantSeen st else true |}.

(** The metadata header of [convertToText]. *)
Definition text_header `{Runtime} (data : Conversation) (includeMetadata : bool) : string :=
  let text := "" in
  if includeMetadata
  then text
         +:+ or_else (name data) "Untitled Conversation" +:+ nl
         +:+ "Created: " +:+ Date_toLocaleString (created_at data) +:+ nl
         +:+ "Updated: " +:+ Date_toLocaleString (updated_at data) +:+ nl
         +:+ "Model: " +:+ interpolate (model data) +:+ nl +:+ nl
         +:+ "---" +:+ nl +:+ nl
  else text.

(** [convertToText] up to the final [trim]. *)
Definition text_untrimmed `{Runtime} (data : Conversation) (includeMetadata : bool)
    (branchMessages : list Message) : string :=
  text_acc (foldl text_message
              {| text_acc := text_header data includeMetadata;
                 humanSeen := false; assistantSeen := false |}
              branchMessages).

Definition convertToText `{Runtime} (fuel : nat) (data : Conversation)
    (includeMetadata : bool) : outcome string :=
  branchMessages ← getCurrentBranch fuel data;
  mret (String_trim (text_untrimmed data includeMetadata branchMessages)).

(** ** Single-conversation export *)

(** What [fetch] settles to: a network failure, or a response whose body
    may or may not parse as a conversation record. *)
Inductive response : Type :=
| NetworkFailure (message : string)
| HttpResponse (ok : bool) (status : string) (body : option Conversation).

(** [fetchConversation] of [content.js], given what [fetch] settles to. *)
Definition fetchConversation (r : response) : outcome Conversation :=
  match r with
  | NetworkFailure e => Thrown e
  | HttpResponse ok status body =>
      if negb ok then Thrown ("Failed to fetch conversation: " +:+ status)
      else match body with
           | Some data => Returned data
           | None => Thrown "SyntaxError: invalid JSON"
           end
  end.

Record ExportRequest : Type := {
  req_orgId : string;
  req_conversationId : string;
  req_format : string;
  req_includeMetadata : bool
}.

(** The arguments of [downloadFile]. *)
Record Download : Type := {
  dl_content : string;
  dl_filename : string;
  dl_type : string
}.

(** The [exportConversation] message handler of [content.js]; [Thrown] is
    the rejection answered with [success: false]. *)
Definition exportConversation_handler `{Runtime} (fuel : nat)
    (fetch : string → string → response) (request : ExportRequest) : outcome Download :=
  data ← fetchConversation (fetch (req_orgId request) (req_conversationId request));
  (* Infer model if null *)
  let data := set_model data (inferModel data) in
  if bool_decide (req_format request = "markdown") then
    content ← convertToMarkdown fuel data (req_includeMetadata request);
    mret {| dl_content := content;
            dl_filename := "claude-conversation-"
                           +:+ or_else (name data) (req_conversationId request) +:+ ".md";
            dl_type := "text/markdown" |}
  else if bool_decide (req_format request = "text") then
    content ← convertToText fuel data (req_includeMetadata request);
    mret {| dl_content := content;
            dl_filename := "claude-conversation-"
                           +:+ or_else (name data) (req_conversationId request) +:+ ".txt";
            dl_type := "text/plain" |}
  else
    mret {| dl_content := JSON_stringify data;
            dl_filename := "claude-conversation-"
                           +:+ or_else (name data) (req_conversationId request) +:+ ".json";
            dl_type := "application/json" |}.

(** The browse page calls [convertToMarkdown] and [convertToText] without
    defining them: they are imported from [utils.js]. *)
Module utils.

(** Modelled from the spec: [convertToMarkdown] of [utils.js], a file that
    is not among the sources.  The specification has one document renderer
    for single and batch exports alike, and describes its markdown encoding
    as a heading with the conversation name or "Untitled Conversation", an
    optional metadata block closed by a horizontal rule, then for each
    message of the branch a bolded sender label, the body, an optional
    timestamp and a horizontal rule.  That is the encoding of
    [convertToMarkdown] in [content.js], which stands for it here. *)
Definition convertToMarkdown `{Runtime} (fuel : nat) (data : Conversation)
    (includeMetadata : bool) : outcome string :=
  convertToMarkdown fuel data includeMetadata.

(** Modelled from the spec: [convertToText] of [utils.js], a file that is
    not among the sources.  The specification describes the text encoding
    as an optional metadata header followed by one line ["<label>: <body>"]
    per message with blank-line separation, the label being the full word
    the first time a sender appears and its initial afterwards, and the
    output being trimmed.  That is the encoding of [convertToText] in
    [content.js], which stands for it here. *)
Definition convertToText `{Runtime} (fuel : nat) (data : Conversation)
    (includeMetadata : bool) : outcome string :=
  convertToText fuel data includeMetadata.

End utils.

(** [exportConversation] of the browse page; [Thrown] is the error shown in
    the toast. *)
Definition exportConversation `{Runtime} (fuel : nat)
    (fetch : string → string → response) (orgId : string)
    (format : string) (includeMetadata : bool)
    (conversationId : string) (conversationName : option string) : outcome Download :=
  data ← fetchConversation (fetch orgId conversationId);
  (* Infer model if null *)
  let data := set_model data (inferModel data) in
  if bool_decide (format = "markdown") then
    content ← utils.convertToMarkdown fuel data includeMetadata;
    mret {| dl_content := content;
            dl_filename := "claude-" +:+ or_else conversationName conversationId +:+ ".md";
            dl_type := "text/markdown" |}
  else if bool_decide (format = "text") then
    content ← utils.convertToText fuel data includeMetadata;
    mret {| dl_content := content;
            dl_filename := "claude-" +:+ or_else conversationName conversationId +:+ ".txt";
            dl_type := "text/plain" |}
  else
    mret {| dl_content := JSON_stringify data;
            dl_filename := "claude-" +:+ or_else conversationName conversationId +:+ ".json";
            dl_type := "application/json" |}.

(** ** Batch export: [exportAllFiltered] *)

(** The character class of the regular expression that builds [safeName]:
    one of the nine characters [<], [>], [:], the double quote, [/], the
    backslash, [|], [?] and [*]. *)
Definition invalid_filename_char (c : Ascii.ascii) : bool :=
  bool_decide (Ascii.nat_of_ascii c ∈ [60; 62; 58; 34; 47; 92; 124; 63; 42]).

(** [s.replace(/[...]/g, '_')] *)
Fixpoint replace_invalid (s : string) : string :=
  match s with
  | EmptyString => EmptyString
  | String c s' =>
      String (if invalid_filename_char c then "_"%char else c) (replace_invalid s')
  end.

(** The [await] points of [exportAllFiltered] during which the user may
    press the cancel button: while the batch starting at index [i] is in
    flight, during the pause that follows it, and while the archive is
    generated. *)
Inductive phase : Type :=
| InBatch (i : nat)
| InPause (i : nat)
| InZip.

(** The variables of [exportAllFiltered], and the conversations whose fetch
    has been issued so far.  The JSZip archive [zip] holds its entries keyed
    by file name: [zip.file(name, content)] adds an entry, or replaces the
    entry of that name. *)
Record export_state : Type := {
  zip : gmap string string;
  completed : nat;
  failed : nat;
  failedConversations : list (option string);
  cancelExport : bool;
  requested : list string
}.

Definition initial_state : export_state :=
  {| zip := ∅; completed := 0; failed := 0; failedConversations := [];
     cancelExport := false; requested := [] |}.

Definition batchSize : nat := 3.

(** [array.slice(from, to)] for [from <= to]. *)
Definition slice {A} (l : list A) (from to : nat) : list A :=
  take (to - from) (drop from l).

(** What the [try] block of one conversation computes before it touches the
    archive: the file name and the rendered content. *)
Definition export_document `{Runtime} (fuel : nat) (fetch : string → string → response)
    (orgId format : string) (includeMetadata : bool) (conv : Conversation)
    : outcome (string * string) :=
  data ← match fetch orgId (conv_uuid conv) with
         | NetworkFailure e => Thrown e
         | HttpResponse ok status body =>
             if negb ok then Thrown ("HTTP " +:+ status)
             else match body with
                  | Some data => Returned data
                  | None => Thrown "SyntaxError: invalid JSON"
                  end
         end;
  (* Infer model if null *)
  let data := set_model data (inferModel data) in
  safeName ← match name conv with
             | Some n => Returned (replace_invalid n)
             | None => Thrown "TypeError: conv.name is null"
             end;
  if bool_decide (format = "markdown") then
    content ← utils.convertToMarkdown fuel data includeMetadata;
    mret (safeName +:+ ".md", content)
  else if bool_decide (format = "text") then
    content ← utils.convertToText fuel data includeMetadata;
    mret (safeName +:+ ".txt", content)
  else
    mret (safeName +:+ ".json", JSON_stringify data).

(** One callback of [batch.map], from the moment its last [await] settles:
    either the document is filed and counted, or the [catch] block counts
    the failure. *)
Definition export_one `{Runtime} (fuel : nat) (fetch : string → string → response)
    (orgId format : string) (includeMetadata : bool)
    (st : export_state) (conv : Conversation) : outcome export_state :=
  match export_document fuel fetch orgId format includeMetadata conv with
  | Returned (filename, content) =>
      Returned {| zip := <[filename := content]> (zip st);
                  completed := completed st + 1;
                  failed := failed st;
                  failedConversations := failedConversations st;
                  cancelExport := cancelExport st;
                  requested := requested st |}
  | Thrown _ =>
      Returned {| zip := zip st;
                  completed := completed st;
                  failed := failed st + 1;
                  failedConversations := failedConversations st ++ [name conv];
                  cancelExport := cancelExport st;
                  requested := requested st |}
  | OutOfFuel => OutOfFuel
  end.

(** The callbacks of one batch, run in the order in which they settle. *)
Fixpoint settle_all `{Runtime} (fuel : nat) (fetch : string → string → response)
    (orgId format : string) (includeMetadata : bool)
    (st : export_state) (convs : list Conversation) : outcome export_state :=
  match convs with
  | [] => Returned st
  | conv :: convs =>
      st ← export_one fuel fetch orgId format includeMetadata st conv;
      settle_all fuel fetch orgId format includeMetadata st convs
  end.

Definition issue_requests (st : export_state) (batch : list Conversation) : export_state :=
  {| zip := zip st; completed := completed st; failed := failed st;
     failedConversations := failedConversations st;
     cancelExport := cancelExport st;
     requested := requested st ++ (conv_uuid <$> batch) |}.

(** The click handler of the cancel button ran during an [await]. *)
Definition observe_click (clicked : bool) (st : export_state) : export_state :=
  {| zip := zip st; completed := completed st; failed := failed st;
     failedConversations := failedConversations st;
     cancelExport := cancelExport st || clicked;
     requested := requested st |}.

(** The world a batch export runs in: what each fetch settles to, the order
    in which the callbacks of a batch settle, and when the user clicks. *)
Record World : Type := {
  fetch : string → string → response;
  settle_order : nat → list Conversation → list Conversation;
  click : phase → bool
}.

(** From the moment the batch at index [i] has settled to the next test of
    the loop: the clicks that happened while the batch was in flight take
    effect, and unless the job is cancelled or over the loop pauses. *)
Definition between_batches (w : World) (total i : nat) (st : export_state) : export_state :=
  let st := observe_click (click w (InBatch i)) st in
  (* Small delay between batches *)
  if bool_decide (i + batchSize < total) && negb (cancelExport st)
  then observe_click (click w (InPause i)) st
  else st.

(** The [for] loop of [exportAllFiltered] from index [i]; [rounds] bounds
    the number of iterations. *)
Fixpoint export_loop `{Runtime} (fuel rounds : nat) (w : World)
    (orgId format : string) (includeMetadata : bool)
    (filteredConversations : list Conversation)
    (i : nat) (st : export_state) : outcome export_state :=
  let total := length filteredConversations in
  if bool_decide (i < total) then
    match rounds with
    | O => OutOfFuel
    | S rounds' =>
        if cancelExport st then Returned st
        else
          let batch := slice filteredConversations i (Nat.min (i + batchSize) total) in
          let st := issue_requests st batch in
          (* Wait for batch to complete *)
          st ← settle_all fuel (fetch w) orgId format includeMetadata st
                 (settle_order w i batch);
          export_loop fuel rounds' w orgId format includeMetadata
            filteredConversations (i + batchSize) (between_batches w total i st)
    end
  else Returned st.

Inductive export_result : Type :=
| ExportCancelled
| ExportArchive (archive : gmap string string).

Definition make_summary `{Runtime} (total : nat) (st : export_state)
    (format : string) (includeMetadata : bool) : ExportSummary :=
  {| export_date := Date_now_ISO;
     total_conversations := total;
     successful_exports := completed st;
     failed_exports := failed st;
     failed_conversations := failedConversations st;
     summary_format := format;
     include_metadata := includeMetadata |}.

(** [exportAllFiltered]: the result handed to the user and the final values
    of the variables. *)
Definition exportAllFiltered `{Runtime} (fuel rounds : nat) (w : World)
    (orgId format : string) (includeMetadata : bool)
    (filteredConversations : list Conversation)
    : outcome (export_result * export_state) :=
  let total := length filteredConversations in
  st ← export_loop fuel rounds w orgId format includeMetadata
         filteredConversations 0 initial_state;
  if cancelExport st then mret (ExportCancelled, st)
  else
    (* Add a summary file *)
    let summary := make_summary total st format includeMetadata in
    let archive := <["export_summary.json" := JSON_stringify_summary summary]> (zip st) in
    (* Generate and download the ZIP file *)
    let st := observe_click (click w InZip) st in
    mret (ExportArchive archive, st).

(** ** Export of all conversations by the content script *)

(** What the fetch of the conversation list settles to. *)
Inductive list_response : Type :=
| ListFailure (message : string)
| ListResponse (ok : bool) (status : string) (body : option (list Conversation)).

(** [fetchAllConversations] of [content.js]. *)
Definition fetchAllConversations (r : list_response) : outcome (list Conversation) :=
  match r with
  | ListFailure e => Thrown e
  | ListResponse ok status body =>
      if negb ok then Thrown ("Failed to fetch conversations: " +:+ status)
      else match body with
           | Some conversations => Returned conversations
           | None => Thrown "SyntaxError: invalid JSON"
           end
  end.

(** The answer sent back to the popup. *)
Record Reply : Type := {
  reply_success : bool;
  reply_count : option nat;
  reply_warnings : option string;
  reply_error : option string
}.

(** [s.split('T')[0]] *)
Fixpoint before_T (s : string) : string :=
  match s with
  | EmptyString => EmptyString
  | String c s' => if bool_decide (c = "T"%char) then EmptyString else String c (before_T s')
  end.

(** [`${conv.name || conv.uuid}: ${error.message}`] *)
Definition error_line (conv : Conversation) (e : string) : string :=
  or_else (name conv) (conv_uuid conv) +:+ ": " +:+ e.

(** The loop of the JSON branch: the full records fetched so far and the
    errors so far. *)
Fixpoint fetch_full `{Runtime} (fetch : string → string → response) (orgId : string)
    (conversations : list Conversation)
    (fullConversations : list Conversation) (errors : list string)
    : outcome (list Conversation * list string) :=
  match conversations with
  | [] => Returned (fullConversations, errors)
  | conv :: conversations =>
      match fetchConversation (fetch orgId (conv_uuid conv)) with
      | Returned fullConv =>
          (* Infer model if null *)
          let fullConv := set_model fullConv (inferModel fullConv) in
          fetch_full fetch orgId conversations (fullConversations ++ [fullConv]) errors
      | Thrown e =>
          fetch_full fetch orgId conversations fullConversations
            (errors ++ [error_line conv e])
      | OutOfFuel => OutOfFuel
      end
  end.

(** One round of the loop of the other formats, up to [downloadFile]. *)
Definition render_one `{Runtime} (fuel : nat) (fetch : string → string → response)
    (orgId format : string) (includeMetadata : bool) (conv : Conversation)
    : outcome Download :=
  fullConv ← fetchConversation (fetch orgId (conv_uuid conv));
  (* Infer model if null *)
  let fullConv := set_model fullConv (inferModel fullConv) in
  if bool_decide (format = "markdown") then
    content ← convertToMarkdown fuel fullConv includeMetadata;
    mret {| dl_content := content;
            dl_filename := "claude-" +:+ or_else (name conv) (conv_uuid conv) +:+ ".md";
            dl_type := "text/markdown" |}
  else
    content ← convertToText fuel fullConv includeMetadata;
    mret {| dl_content := content;
            dl_filename := "claude-" +:+ or_else (name conv) (conv_uuid conv) +:+ ".txt";
            dl_type := "text/plain" |}.

(** The loop of the other formats: the files downloaded so far, their
    number, and the errors so far. *)
Fixpoint download_each `{Runtime} (fuel : nat) (fetch : string → string → response)
    (orgId format : string) (includeMetadata : bool)
    (conversations : list Conversation)
    (downloads : list Download) (count : nat) (errors : list string)
    : outcome (list Download * nat * list string) :=
  match conversations with
  | [] => Returned (downloads, count, errors)
  | conv :: conversations =>
      match render_one fuel fetch orgId format includeMetadata conv with
      | Returned d =>
          download_each fuel fetch orgId format includeMetadata conversations
            (downloads ++ [d]) (count + 1) errors
      | Thrown e =>
          download_each fuel fetch orgId format includeMetadata conversations
            downloads count (errors ++ [error_line conv e])
      | OutOfFuel => OutOfFuel
      end
  end.

(** The answer after the loop: a warning when some conversation failed. *)
Definition reply_after (count total : nat) (errors : list string) : Reply :=
  if bool_decide (0 < length errors) then
    {| reply_success := true; reply_count := Some count;
       reply_warnings :=
         Some ("Exported " +:+ pretty count +:+ "/" +:+ pretty total
               +:+ " conversations. Some failed: " +:+ String.concat "; " errors);
       reply_error := None |}
  else
    {| reply_success := true; reply_count := Some count;
       reply_warnings := None; reply_error := None |}.

(** The [exportAllConversations] message handler of [content.js]: the files
    handed to [downloadFile], in order, and the answer.  [stringify_all] is
    [JSON.stringify(fullConversations, null, 2)]. *)
Definition exportAllConversations `{Runtime} (fuel : nat)
    (stringify_all : list Conversation → string)
    (fetch_list : string → list_response) (fetch : string → string → response)
    (orgId format : string) (includeMetadata : bool)
    : outcome (list Download * Reply) :=
  match fetchAllConversations (fetch_list orgId) with
  | Returned conversations =>
      if bool_decide (format = "json") then
        '(fullConversations, errors) ← fetch_full fetch orgId conversations [] [];
        let filename :=
          "claude-all-conversations-" +:+ before_T Date_now_ISO +:+ ".json" in
        mret ([ {| dl_content := stringify_all fullConversations;
                   dl_filename := filename;
                   dl_type := "application/json" |} ],
              reply_after (length fullConversations) (length conversations) errors)
      else
        '(downloads, count, errors) ←
          download_each fuel fetch orgId format includeMetadata conversations [] 0 [];
        mret (downloads, reply_after count (length conversations) errors)
  | Thrown e =>
      Returned ([], {| reply_success := false; reply_count := None;
                       reply_warnings := None; reply_error := Some e |})
  | OutOfFuel => OutOfFuel
  end.

(** ** The browse page: loading and filtering *)

(** [allConversations.map(conv => ({...conv, model: inferModel(conv)}))] *)
Definition with_inferred_models `{Runtime} (conversations : list Conversation)
    : list Conversation :=
  (λ conv, set_model conv (inferModel conv)) <$> conversations.

(** [[...new Set(xs)]]: the distinct elements, each where it first occurs. *)
Fixpoint distinct (xs : list (option string)) (seen : list (option string))
    : list (option string) :=
  match xs with
  | [] => []
  | x :: xs =>
      if bool_decide (x ∈ seen) then distinct xs seen
      else x :: distinct xs (x :: seen)
  end.

(** The models offered by the filter of the browse page:
    [[...new Set(allConversations.map(c => c.model))].filter(m => m).sort()];
    [sort] is [Array.prototype.sort] with its default order. *)
Definition model_options (sort : list string → list string)
    (allConversations : list Conversation) : list string :=
  sort (omap (λ m, if truthy m then m else None)
             (distinct (model <$> allConversations) [])).

(** [s.includes(sub)] *)
Fixpoint includes (s sub : string) : bool :=
  if String.prefix sub s then true
  else match s with
       | EmptyString => false
       | String _ s' => includes s' sub
       end.

(** The callback of [allConversations.filter] in [applyFiltersAndSort];
    [toLowerCase] is [String.prototype.toLowerCase], and [searchTerm] has
    been lowered already. *)
Definition matches_filters (toLowerCase : string → string)
    (searchTerm modelFilter : string) (conv : Conversation) : outcome bool :=
  matchesSearch ←
    (if bool_decide (searchTerm = "") then Returned true
     else match name conv with
          | None => Thrown "TypeError: conv.name is null"
          | Some n =>
              if includes (toLowerCase n) searchTerm then Returned true
              else if truthy (summary conv)
                   then Returned (includes (toLowerCase (interpolate (summary conv)))
                                    searchTerm)
                   else Returned false
          end);
  let matchesModel :=
    bool_decide (modelFilter = "") || bool_decide (model conv = Some modelFilter) in
  mret (matchesSearch && matchesModel).

(** [allConversations.filter(...)] with that callback. *)
Fixpoint filter_conversations (toLowerCase : string → string)
    (searchTerm modelFilter : string) (allConversations : list Conversation)
    : outcome (list Conversation) :=
  match allConversations with
  | [] => Returned []
  | conv :: rest =>
      keep ← matches_filters toLowerCase searchTerm modelFilter conv;
      kept ← filter_conversations toLowerCase searchTerm modelFilter rest;
      mret (if (keep : bool) then conv :: kept else kept)
  end.

(** The filter step of [applyFiltersAndSort], from the text of the search
    box and the value of the model filter: the value of
    [filteredConversations] before [sortConversations] rearranges it. *)
Definition apply_filters (toLowerCase : string → string)
    (searchInput modelFilter : string) (allConversations : list Conversation)
    : outcome (list Conversation) :=
  let searchTerm := toLowerCase searchInput in
  filter_conversations toLowerCase searchTerm modelFilter allConversations.

(** [s.split(sep)] for a one-character separator. *)
Fixpoint split_on (sep : Ascii.ascii) (s : string) : list string :=
  match s with
  | EmptyString => [EmptyString]
  | String c s' =>
      if bool_decide (c = sep) then EmptyString :: split_on sep s'
      else match split_on sep s' with
           | piece :: pieces => String c piece :: pieces
           | [] => [String c EmptyString]
           end
  end.

(** [conv.name.toLowerCase()] *)
Definition lowered_name (toLowerCase : string → string) (conv : Conversation)
    : outcome string :=
  match name conv with
  | Some n => Returned (toLowerCase n)
  | None => Thrown "TypeError: conv.name is null"
  end.

(** [aVal > bVal] on two [Date] objects: their time values are compared,
    and a comparison with [NaN] is false. *)
Definition date_gt (aVal bVal : option Z) : bool :=
  match aVal, bVal with
  | Some a, Some b => bool_decide (b < a)%Z
  | _, _ => false
  end.

(** The last statement of the comparator, given [aVal > bVal] and
    [aVal < bVal]. *)
Definition sort_order (direction : option string) (greater less : bool) : Z :=
  if bool_decide (direction = Some "asc")
  then (if greater then 1 else -1)%Z
  else (if less then 1 else -1)%Z.

(** The comparator that [sortConversations] passes to [sort]; strings are
    compared by their characters. *)
Definition compare_conversations `{Runtime} (toLowerCase : string → string)
    (field direction : option string) (a b : Conversation) : outcome Z :=
  if bool_decide (field = Some "name") then
    aVal ← lowered_name toLowerCase a;
    bVal ← lowered_name toLowerCase b;
    mret (sort_order direction (String.ltb bVal aVal) (String.ltb aVal bVal))
  else if bool_decide (field = Some "created") then
    let aVal := Date_getTime (created_at a) in
    let bVal := Date_getTime (created_at b) in
    mret (sort_order direction (date_gt aVal bVal) (date_gt bVal aVal))
  else if bool_decide (field = Some "updated") then
    let aVal := Date_getTime (updated_at a) in
    let bVal := Date_getTime (updated_at b) in
    mret (sort_order direction (date_gt aVal bVal) (date_gt bVal aVal))
  else mret 0%Z.

(** [sortConversations]: [Array_sort] is [Array.prototype.sort] of the
    engine, which decides in which order the comparator is called and,
    since the comparator never answers 0 for two conversations with the same
    key, where such conversations end up. *)
Definition sortConversations `{Runtime}
    (Array_sort : (Conversation → Conversation → outcome Z) →
                  list Conversation → outcome (list Conversation))
    (toLowerCase : string → string) (currentSort : string)
    (filteredConversations : list Conversation) : outcome (list Conversation) :=
  let pieces := split_on "_"%char currentSort in
  let field := pieces !! 0 in
  let direction := pieces !! 1 in
  Array_sort (compare_conversations toLowerCase field direction) filteredConversations.

(** [applyFiltersAndSort], up to the display: the value that it leaves in
    [filteredConversations]. *)
Definition applyFiltersAndSort `{Runtime}
    (Array_sort : (Conversation → Conversation → outcome Z) →
                  list Conversation → outcome (list Conversation))
    (toLowerCase : string → string) (searchInput modelFilter currentSort : string)
    (allConversations : list Conversation) : outcome (list Conversation) :=
  filteredConversations ← apply_filters toLowerCase searchInput modelFilter allConversations;
  sortConversations Array_sort toLowerCase currentSort filteredConversations.

(** ** The JSON object

    [JSON.stringify(value, null, 2)] and [JSON.parse] of the language
    standard, on the values that a conversation record of this embedding
    is made of: [null], strings, arrays and objects.  A string of the
    embedding is a sequence of characters below 256; a document with a
    number, a boolean or an escape above [\u007f] is not read. *)

#[warnings="-register-all"]
Inductive json : Type :=
| JNull
| JString (s : string)
| JArray (items : list json)
| JObject (fields : list (string * json)).

Definition dquote : Ascii.ascii := Ascii.ascii_of_nat 34.
Definition backslash : Ascii.ascii := Ascii.ascii_of_nat 92.

(** A hexadecimal digit, in lower case. *)
Definition hex_digit (n : nat) : Ascii.ascii :=
  Ascii.ascii_of_nat (if bool_decide (n < 10) then 48 + n else 87 + n).

(** One character of a string literal (QuoteJSONString): the double quote
    and the backslash are escaped, the control characters are written
    [\b], [\t], [\n], [\f], [\r] or [\u00xx], and any other character is
    written as it is. *)
Definition escape_char (c : Ascii.ascii) : string :=
  let n := Ascii.nat_of_ascii c in
  if bool_decide (n = 34) then String backslash (String dquote "")
  else if bool_decide (n = 92) then String backslash (String backslash "")
  else if bool_decide (n = 8) then String backslash "b"
  else if bool_decide (n = 9) then String backslash "t"
  else if bool_decide (n = 10) then String backslash "n"
  else if bool_decide (n = 12) then String backslash "f"
  else if bool_decide (n = 13) then String backslash "r"
  else if bool_decide (n < 32) then
    String backslash
      ("u00" +:+ String (hex_digit (n / 16)) (String (hex_digit (n mod 16)) ""))
  else String c "".

Fixpoint escape (s : string) : string :=
  match s with
  | EmptyString => EmptyString
  | String c s' => escape_char c +:+ escape s'
  end.

Definition quote (s : string) : string :=
  String dquote (escape s) +:+ String dquote EmptyString.

(** [JSON.stringify(v, null, 2)] at the indentation [indent]
    (SerializeJSONArray and SerializeJSONObject with a gap of two spaces):
    an empty array or object is written [[]] or [{}]; otherwise each
    element is on a line of its own, indented two more spaces, and the
    elements are separated by a comma at the end of the line. *)
Fixpoint print_json (indent : string) (v : json) : string :=
  let inner := indent +:+ "  " in
  let separator := "," +:+ nl +:+ inner in
  match v with
  | JNull => "null"
  | JString s => quote s
  | JArray [] => "[]"
  | JArray items =>
      "[" +:+ nl +:+ inner
      +:+ String.concat separator (print_json inner <$> items)
      +:+ nl +:+ indent +:+ "]"
  | JObject [] => "{}"
  | JObject fields =>
      "{" +:+ nl +:+ inner
      +:+ String.concat separator
            ((λ p, quote p.1 +:+ ": " +:+ print_json inner p.2) <$> fields)
      +:+ nl +:+ indent +:+ "}"
  end.

(** The white space of JSON: space, tab, line feed and carriage return. *)
Definition is_space (c : Ascii.ascii) : bool :=
  bool_decide (Ascii.nat_of_ascii c ∈ [32; 9; 10; 13]).

Fixpoint skip_spaces (cs : list Ascii.ascii) : list Ascii.ascii :=
  match cs with
  | c :: cs' => if is_space c then skip_spaces cs' else cs
  | [] => []
  end.

Definition hex_value (c : Ascii.ascii) : option nat :=
  let n := Ascii.nat_of_ascii c in
  if bool_decide (48 ≤ n ≤ 57) then Some (n - 48)
  else if bool_decide (97 ≤ n ≤ 102) then Some (n - 87)
  else if bool_decide (65 ≤ n ≤ 70) then Some (n - 55)
  else None.

(** The character that a one-letter escape stands for. *)
Definition simple_escape (e : Ascii.ascii) : option Ascii.ascii :=
  let n := Ascii.nat_of_ascii e in
  if bool_decide (n = 34) then Some dquote
  else if bool_decide (n = 92) then Some backslash
  else if bool_decide (n = 47) then Some "/"%char
  else if bool_decide (n = 98) then Some (Ascii.ascii_of_nat 8)
  else if bool_decide (n = 116) then Some (Ascii.ascii_of_nat 9)
  else if bool_decide (n = 110) then Some (Ascii.ascii_of_nat 10)
  else if bool_decide (n = 102) then Some (Ascii.ascii_of_nat 12)
  else if bool_decide (n = 114) then Some (Ascii.ascii_of_nat 13)
  else None.

(** The characters of a string literal after its opening quote, up to the
    closing quote.  A control character that is not escaped is a syntax
    error. *)
Fixpoint parse_chars (cs : list Ascii.ascii) : option (string * list Ascii.ascii) :=
  match cs with
  | [] => None
  | c :: cs' =>
      if bool_decide (c = dquote) then Some (EmptyString, cs')
      else if bool_decide (c = backslash) then
        match cs' with
        | e :: cs'' =>
            if bool_decide (e = "u"%char) then
              match cs'' with
              | h1 :: h2 :: h3 :: h4 :: cs3 =>
                  d1 ← hex_value h1; d2 ← hex_value h2;
                  d3 ← hex_value h3; d4 ← hex_value h4;
                  let code := ((d1 * 16 + d2) * 16 + d3) * 16 + d4 in
                  if bool_decide (code < 128) then
                    '(s, rest) ← parse_chars cs3;
                    Some (String (Ascii.ascii_of_nat code) s, rest)
                  else None
              | _ => None
              end
            else
              c' ← simple_escape e;
              '(s, rest) ← parse_chars cs'';
              Some (String c' s, rest)
        | [] => None
        end
      else if bool_decide (Ascii.nat_of_ascii c < 32) then None
      else '(s, rest) ← parse_chars cs'; Some (String c s, rest)
  end.

(** A value, the elements of an array after its opening bracket, and the
    members of an object after its opening brace; each returns what it read
    and the characters that follow.  One unit of fuel per nested call. *)
Fixpoint parse_value (fuel : nat) (cs : list Ascii.ascii)
    : option (json * list Ascii.ascii) :=
  match fuel with
  | O => None
  | S fuel' =>
      match skip_spaces cs with
      | c :: cs' =>
          if bool_decide (c = "n"%char) then
            match cs' with
            | "u"%char :: "l"%char :: "l"%char :: rest => Some (JNull, rest)
            | _ => None
            end
          else if bool_decide (c = dquote) then
            '(s, rest) ← parse_chars cs'; Some (JString s, rest)
          else if bool_decide (c = "["%char) then
            match skip_spaces cs' with
            | d :: rest =>
                if bool_decide (d = "]"%char) then Some (JArray [], rest)
                else '(items, rest') ← parse_elements fuel' cs'; Some (JArray items, rest')
            | [] => None
            end
          else if bool_decide (c = "{"%char) then
            match skip_spaces cs' with
            | d :: rest =>
                if bool_decide (d = "}"%char) then Some (JObject [], rest)
                else '(fields, rest') ← parse_members fuel' cs'; Some (JObject fields, rest')
            | [] => None
            end
          else None
      | [] => None
      end
  end
with parse_elements (fuel : nat) (cs : list Ascii.ascii)
    : option (list json * list Ascii.ascii) :=
  match fuel with
  | O => None
  | S fuel' =>
      '(v, rest) ← parse_value fuel' cs;
      match skip_spaces rest with
      | d :: rest' =>
          if bool_decide (d = ","%char) then
            '(vs, rest'') ← parse_elements fuel' rest'; Some (v :: vs, rest'')
          else if bool_decide (d = "]"%char) then Some ([v], rest')
          else None
      | [] => None
      end
  end
with parse_members (fuel : nat) (cs : list Ascii.ascii)
    : option (list (string * json) * list Ascii.ascii) :=
  match fuel with
  | O => None
  | S fuel' =>
      match skip_spaces cs with
      | q :: cs' =>
          if bool_decide (q = dquote) then
            '(k, cs'') ← parse_chars cs';
            match skip_spaces cs'' with
            | colon :: cs3 =>
                if bool_decide (colon = ":"%char) then
                  '(v, rest) ← parse_value fuel' cs3;
                  match skip_spaces rest with
                  | d :: rest' =>
                      if bool_decide (d = ","%char) then
                        '(ms, rest'') ← parse_members fuel' rest';
                        Some ((k, v) :: ms, rest'')
                      else if bool_decide (d = "}"%char) then Some ([(k, v)], rest')
                      else None
                  | [] => None
                  end
                else None
            | [] => None
            end
          else None
      | [] => None
      end
  end.

(** [JSON.parse]: one value, with nothing but white space after it.  The
    nesting of a document is less than its length, which is fuel enough. *)
Definition parse_json (s : string) : option json :=
  let cs := String.list_ascii_of_string s in
  '(v, rest) ← parse_value (length cs) cs;
  match skip_spaces rest with [] => Some v | _ => None end.

(** A conversation record as a JSON value.  A field that is [None] is
    written [null]: in this embedding a missing field and a [null] field are
    both [None]. *)
Definition json_of_option (v : option string) : json :=
  match v with Some s => JString s | None => JNull end.

Definition json_of_list {A} (encode : A → json) (v : option (list A)) : json :=
  match v with Some l => JArray (encode <$> l) | None => JNull end.

Definition json_of_block (c : ContentBlock) : json :=
  JObject [("text", json_of_option (block_text c))].

Definition json_of_message (msg : Message) : json :=
  JObject [("uuid", JString (uuid msg));
           ("parent_message_uuid", json_of_option (parent_message_uuid msg));
           ("sender", json_of_option (sender msg));
           ("content", json_of_list json_of_block (content msg));
           ("text", json_of_option (text msg));
           ("created_at", json_of_option (msg_created_at msg))].

Definition json_of_conversation (data : Conversation) : json :=
  JObject [("uuid", JString (conv_uuid data));
           ("name", json_of_option (name data));
           ("summary", json_of_option (summary data));
           ("model", json_of_option (model data));
           ("created_at", json_of_option (created_at data));
           ("updated_at", json_of_option (updated_at data));
           ("chat_messages", json_of_list json_of_message (chat_messages data));
           ("current_leaf_message_uuid",
            json_of_option (current_leaf_message_uuid data))].

(** [v[k]] on a parsed object; of two members with the same key the later
    one is the property. *)
Definition get_field (k : string) (v : json) : option json :=
  match v with
  | JObject fields => snd <$> last (filter (λ p, p.1 = k) fields)
  | _ => None
  end.

Definition get_string (k : string) (v : json) : option string :=
  match get_field k v with Some (JString s) => Some s | _ => None end.

Definition get_array {A} (decode : json → option A) (k : string) (v : json)
    : option (option (list A)) :=
  match get_field k v with
  | Some (JArray items) => Some <$> mapM decode items
  | Some JNull | None => Some None
  | _ => None
  end.

(** A parsed value as a record of the embedding; [None] when the value does
    not have the type of a record. *)
Definition block_of_json (v : json) : option ContentBlock :=
  Some {| block_text := get_string "text" v |}.

Definition message_of_json (v : json) : option Message :=
  u ← get_string "uuid" v;
  blocks ← get_array block_of_json "content" v;
  Some {| uuid := u;
          parent_message_uuid := get_string "parent_message_uuid" v;
          sender := get_string "sender" v;
          content := blocks;
          text := get_string "text" v;
          msg_created_at := get_string "created_at" v |}.

Definition conversation_of_json (v : json) : option Conversation :=
  u ← get_string "uuid" v;
  msgs ← get_array message_of_json "chat_messages" v;
  Some {| conv_uuid := u;
          name := get_string "name" v;
          summary := get_string "summary" v;
          model := get_string "model" v;
          created_at := get_string "created_at" v;
          updated_at := get_string "updated_at" v;
          chat_messages := msgs;
          current_leaf_message_uuid := get_string "current_leaf_message_uuid" v |}.

(** [JSON.stringify(data, null, 2)] and [JSON.parse] on conversation
    records. *)
Definition stringify_conversation (data : Conversation) : string :=
  print_json "" (json_of_conversation data).

Definition parse_conversation (s : string) : option Conversation :=
  parse_json s ≫= conversation_of_json.

(** The runtime [RT] with the JSON object above. *)
Definition with_JSON (RT : Runtime) : Runtime := {|
  Date_getTime := @Date_getTime RT;
  Date_toLocaleString := @Date_toLocaleString RT;
  Date_now_ISO := @Date_now_ISO RT;
  JSON_stringify := stringify_conversation;
  JSON_parse := parse_conversation;
  JSON_stringify_summary := @JSON_stringify_summary RT;
  String_trim := @String_trim RT
|}.

(** The fuel that reading a value back takes, the characters of a string,
    and the strings of white space. *)
Fixpoint weight (v : json) : nat :=
  match v with
  | JNull | JString _ => 1
  | JArray items => S (sum_list ((λ x, S (weight x)) <$> items))
  | JObject fields => S (sum_list ((λ p, S (weight p.2)) <$> fields))
  end.

Definition chars : string → list Ascii.ascii := String.list_ascii_of_string.

Definition blank (cs : list Ascii.ascii) : Prop := Forall (λ c, is_space c = true) cs.

(** The characters with which a printed value can start. *)
Definition opens_value (c : Ascii.ascii) : Prop :=
  c = "n"%char ∨ c = dquote ∨ c = "["%char ∨ c = "{"%char.

(** ** Vocabulary of the specification for branches *)

(** An identifier resolves to a message when it is present (truthy) and the
    lookup has an entry for it. *)
Definition resolve (m : gmap string Message) (k : option string) : option Message :=
  if truthy k then Map_get m k else None.

(** [branch_from m k l]: [l] is the sequence obtained by starting at [k] and
    following parent identifiers, prepending each resolved message, and
    stopping at the first message whose parent is absent or unresolvable. *)
Inductive branch_from (m : gmap string Message) : option string → list Message → Prop :=
| branch_root k msg :
    resolve m k = Some msg →
    resolve m (parent_message_uuid msg) = None →
    branch_from m k [msg]
| branch_step k msg l :
    resolve m k = Some msg →
    branch_from m (parent_message_uuid msg) l →
    branch_from m k (l ++ [msg]).

(** [reaches m k x]: message [x] is reachable from identifier [k] through
    parent pointers. *)
Inductive reaches (m : gmap string Message) : option string → Message → Prop :=
| reaches_here k msg : resolve m k = Some msg → reaches m k msg
| reaches_parent k msg x :
    resolve m k = Some msg →
    reaches m (parent_message_uuid msg) x →
    reaches m k x.

(** Parent pointers of a message collection, as edges between identifiers. *)
Definition parent_in (msgs : list Message) (u p : string) : Prop :=
  ∃ msg, msg ∈ msgs ∧ uuid msg = u ∧ parent_message_uuid msg = Some p.

Definition acyclic (msgs : list Message) : Prop :=
  ∀ u, ¬ tc (parent_in msgs) u u.

(** The same on the lookup. *)
Definition parent_of (m : gmap string Message) (u p : string) : Prop :=
  ∃ msg, m !! u = Some msg ∧ parent_message_uuid msg = Some p.

(** ** Vocabulary of the specification for sender labels *)

(** The values that [senderLabel] takes along the loop of [convertToText],
    started with the given flags. *)
Fixpoint labels_from (humanSeen assistantSeen : bool) (branch : list Message) : list string :=
  match branch with
  | [] => []
  | message :: branch =>
      senderLabel humanSeen assistantSeen message
      :: labels_from (if is_human message then true else humanSeen)
                     (if is_human message then assistantSeen else true) branch
  end.

Definition text_labels (branch : list Message) : list string :=
  labels_from false false branch.

(** The lines ["<label>: <body>"], each followed by a blank line. *)
Fixpoint lines_of (labels : list string) (branch : list Message) : string :=
  match labels, branch with
  | label :: labels, message :: branch =>
      label +:+ ": " +:+ messageText message +:+ nl +:+ nl +:+ lines_of labels branch
  | _, _ => ""
  end.

(** The label the specification asks for: the full word when no earlier
    message of the branch has the same sender, the initial otherwise. *)
Definition expected_label (earlier : list Message) (message : Message) : string :=
  let seen := existsb (λ e, bool_decide (is_human e = is_human message)) earlier in
  if is_human message then (if seen then "H" else "Human")
  else (if seen then "A" else "Assistant").

(** The heading and the metadata block with which a Markdown document
    starts. *)
Definition markdown_header `{Runtime} (data : Conversation) (includeMetadata : bool)
    : string :=
  "# " +:+ or_else (name data) "Untitled Conversation" +:+ nl +:+ nl
  +:+ (if includeMetadata
       then "**Created:** " +:+ Date_toLocaleString (created_at data) +:+ nl
            +:+ "**Updated:** " +:+ Date_toLocaleString (updated_at data) +:+ nl
            +:+ "**Model:** " +:+ interpolate (model data) +:+ nl +:+ nl
            +:+ "---" +:+ nl +:+ nl
       else "").

(** The block of one message in a Markdown document: what the loop body of
    [convertToMarkdown] appends for it. *)
Definition markdown_block `{Runtime} (includeMetadata : bool) (message : Message)
    : string :=
  markdown_message includeMetadata "" message.

(** ** Vocabulary of the specification for exports *)

(** Two records that agree on every field but [model]. *)
Definition same_except_model (a b : Conversation) : Prop :=
  conv_uuid a = conv_uuid b ∧ name a = name b ∧ summary a = summary b ∧
  created_at a = created_at b ∧ updated_at a = updated_at b ∧
  chat_messages a = chat_messages b ∧
  current_leaf_message_uuid a = current_leaf_message_uuid b.

(** The file extension of an encoding; anything but markdown and text is
    exported as JSON. *)
Definition extension (format : string) : string :=
  if bool_decide (format = "markdown") then ".md"
  else if bool_decide (format = "text") then ".txt"
  else ".json".

(** The characters that are not allowed in a file name. *)
Definition illegal_characters : list Ascii.ascii :=
  ["<"; ">"; ":"; Ascii.ascii_of_nat 34; "/"; Ascii.ascii_of_nat 92; "|"; "?"; "*"]%char.

(** ** Vocabulary of the specification for batch exports *)

(** A conversation fails when its fetch or its rendering throws, and
    succeeds when a document comes out. *)
Definition export_fails `{Runtime} (fuel : nat) (fetch : string → string → response)
    (orgId format : string) (includeMetadata : bool) (conv : Conversation) : bool :=
  match export_document fuel fetch orgId format includeMetadata conv with
  | Thrown _ => true
  | _ => false
  end.

Definition export_succeeds `{Runtime} (fuel : nat) (fetch : string → string → response)
    (orgId format : string) (includeMetadata : bool) (conv : Conversation) : bool :=
  match export_document fuel fetch orgId format includeMetadata conv with
  | Returned _ => true
  | _ => false
  end.

(** [zip.file(filename, content)] for the document of a conversation, if
    there is one: the entry is added, or replaced when the name is taken. *)
Definition file_document `{Runtime} (fuel : nat) (fetch : string → string → response)
    (orgId format : string) (includeMetadata : bool)
    (z : gmap string string) (conv : Conversation) : gmap string string :=
  match export_document fuel fetch orgId format includeMetadata conv with
  | Returned (filename, content) => <[filename := content]> z
  | _ => z
  end.

(** [settled_from st order st']: the counters, the failure list and the
    archive of [st'] are those of [st] after the conversations of [order]
    have settled, in that order. *)
Definition settled_from `{Runtime} (fuel : nat) (fetch : string → string → response)
    (orgId format : string) (includeMetadata : bool)
    (st : export_state) (order : list Conversation) (st' : export_state) : Prop :=
  completed st' = completed st
    + length (filter (λ c, export_succeeds fuel fetch orgId format includeMetadata c = true) order) ∧
  failed st' = failed st
    + length (filter (λ c, export_fails fuel fetch orgId format includeMetadata c = true) order) ∧
  failedConversations st' = failedConversations st
    ++ (name <$> filter (λ c, export_fails fuel fetch orgId format includeMetadata c = true) order) ∧
  zip st' = foldl (file_document fuel fetch orgId format includeMetadata) (zip st) order.

(** The user never presses cancel while the batches run. *)
Definition never_cancelled (w : World) : Prop :=
  ∀ i, click w (InBatch i) = false ∧ click w (InPause i) = false.

(** The callbacks of every batch settle in some order, each exactly once. *)
Definition fair_schedule (w : World) : Prop :=
  ∀ i batch, settle_order w i batch ≡ₚ batch.

(** The first press of the cancel button happens while the batch that
    starts at index [i] is in flight, or during the pause that follows it. *)
Definition cancelled_at (w : World) (total i : nat) : Prop :=
  (∃ k, i = k * batchSize) ∧ i < total ∧
  (∀ j, j < i → click w (InBatch j) = false ∧ click w (InPause j) = false) ∧
  (click w (InBatch i) = true ∨
   (click w (InPause i) = true ∧ i + batchSize < total)).

(** Every rendering of the batch returns within the fuel (as it does on
    acyclic data). *)
Definition rendering_terminates `{Runtime} (fuel : nat) (w : World)
    (orgId format : string) (includeMetadata : bool) (convs : list Conversation) : Prop :=
  ∀ c, c ∈ convs →
       export_document fuel (fetch w) orgId format includeMetadata c ≠ OutOfFuel.

(** What a finished run leaves: the final variables, and the archive when
    one is delivered. *)
Definition final_state (run : outcome (export_result * export_state)) : option export_state :=
  match run with
  | Returned (_, st) => Some st
  | _ => None
  end.

Definition delivered (run : outcome (export_result * export_state))
    : option (gmap string string) :=
  match run with
  | Returned (ExportArchive archive, _) => Some archive
  | _ => None
  end.

(** ** Vocabulary for the export of all conversations *)

(** The full records of the conversations whose fetch succeeds, with their
    models inferred, and the error lines of the others, both in input
    order. *)
Definition full_records `{Runtime} (fetch : string → string → response) (orgId : string)
    (conversations : list Conversation) : list Conversation :=
  omap (λ conv, match fetchConversation (fetch orgId (conv_uuid conv)) with
                | Returned fullConv => Some (set_model fullConv (inferModel fullConv))
                | _ => None
                end) conversations.

Definition fetch_errors (fetch : string → string → response) (orgId : string)
    (conversations : list Conversation) : list string :=
  omap (λ conv, match fetchConversation (fetch orgId (conv_uuid conv)) with
                | Thrown e => Some (error_line conv e)
                | _ => None
                end) conversations.

(** The files of the conversations that render. *)
Definition rendered `{Runtime} (fuel : nat) (fetch : string → string → response)
    (orgId format : string) (includeMetadata : bool)
    (conversations : list Conversation) : list Download :=
  omap (λ conv, match render_one fuel fetch orgId format includeMetadata conv with
                | Returned d => Some d
                | _ => None
                end) conversations.

(** ** Sample data

    A conversation with an edited second turn: [m2b] is a sibling of [m2]
    under [m1], and the current leaf [m3] continues [m2]. *)

Definition mk_message (u : string) (p : option string) (s : string) (body : string) : Message :=
  {| uuid := u; parent_message_uuid := p; sender := Some s;
     content := Some [ {| block_text := Some body |} ]; text := None;
     msg_created_at := None |}.

Definition m1 : Message := mk_message "m1" None "human" "Hello".
Definition m2 : Message := mk_message "m2" (Some "m1") "assistant" "Hi there".
Definition m2b : Message := mk_message "m2b" (Some "m1") "assistant" "Hey".
Definition m3 : Message := mk_message "m3" (Some "m2") "human" "Thanks".

Definition mk_conversation (u : string) (n : string) (md : option string)
    (created : string) (msgs : list Message) (leaf : option string) : Conversation :=
  {| conv_uuid := u; name := Some n; summary := None; model := md;
     created_at := Some created; updated_at := Some created;
     chat_messages := Some msgs; current_leaf_message_uuid := leaf |}.

Definition sample_conversation : Conversation :=
  mk_conversation "c1" "Greeting" None "2024-06-20" [m1; m2; m2b; m3] (Some "m3").

(** A message whose parent identifier points nowhere. *)
Definition orphan : Message := mk_message "o1" (Some "gone") "human" "Lost".
Definition dangling_conversation : Conversation :=
  mk_conversation "c2" "Dangling" None "2024-06-20" [orphan; mk_message "o2" (Some "o1") "assistant" "Found"] (Some "o2").

(** A record with an empty message collection. *)
Definition empty_conversation : Conversation :=
  mk_conversation "c0" "Empty" None "2024-06-20" [] (Some "m3").

(** A message that is its own parent. *)
Definition selfish : Message := mk_message "s1" (Some "s1") "human" "Again".
Definition cyclic_conversation : Conversation :=
  mk_conversation "c3" "Cycle" None "2024-06-20" [selfish] (Some "s1").

(** Records for the model inference: no model and a creation date on, and
    before, a date of the table; and a record that declares its model. *)
Definition undated_before : Conversation :=
  mk_conversation "c4" "Early" None "2023-03-15" [] None.
Definition declared_conversation : Conversation :=
  mk_conversation "c5" "Declared" (Some "claude-3-opus-20240229") "2025-01-01" [] None.

(** A message sent by neither party, and one without a sender. *)
Definition system_message : Message := mk_message "x1" (Some "m3") "system" "Notice".
Definition anonymous_message : Message :=
  {| uuid := "x2"; parent_message_uuid := Some "x1"; sender := None;
     content := None; text := Some "Legacy"; msg_created_at := None |}.

(** A branch whose senders are human, assistant, human, human, assistant. *)
Definition m4 : Message := mk_message "m4" (Some "m3") "human" "One more thing".
Definition m5 : Message := mk_message "m5" (Some "m4") "assistant" "Go on".
Definition five_turns : Conversation :=
  mk_conversation "c8" "Five turns" None "2024-06-20" [m1; m2; m2b; m3; m4; m5] (Some "m5").

(** A branch that ends with the two messages that are not from the user or
    the assistant. *)
Definition mixed_conversation : Conversation :=
  mk_conversation "c9" "Mixed" None "2024-06-20"
    [m1; m2; m3; system_message; anonymous_message] (Some "x2").

(** A rank for the identifiers of the sample data that decreases along
    parent pointers. *)
Definition sample_rank (u : string) : nat :=
  if decide (u = "m3") then 2
  else if decide (u = "m2") then 1
  else if decide (u = "m2b") then 1
  else if decide (u = "o2") then 2
  else if decide (u = "o1") then 1
  else 0.

(** ** A sample runtime

    Dates are written [yyyy-mm-dd] and denote midnight UTC. *)

Definition digit (c : Ascii.ascii) : option Z :=
  let n := Ascii.nat_of_ascii c in
  if (48 <=? n) && (n <=? 57) then Some (Z.of_nat (n - 48)) else None.

Definition number (cs : list Ascii.ascii) : option Z :=
  foldl (λ acc c, a ← acc; d ← digit c; Some (10 * a + d)%Z) (Some 0%Z) cs.

Definition parse_date (s : string) : option Z :=
  match s with
  | String y1 (String y2 (String y3 (String y4 (String "-"%char
      (String mo1 (String mo2 (String "-"%char (String d1 (String d2 EmptyString))))))))) =>
      y ← number [y1; y2; y3; y4];
      mo ← number [mo1; mo2];
      d ← number [d1; d2];
      Some (Date_UTC y mo d)
  | _ => None
  end.

Definition json_of_summary (s : ExportSummary) : json :=
  JObject [("export_date", JString (export_date s));
           ("total_conversations", JString (pretty (total_conversations s)));
           ("successful_exports", JString (pretty (successful_exports s)));
           ("failed_exports", JString (pretty (failed_exports s)));
           ("failed_conversations", JArray (json_of_option <$> failed_conversations s));
           ("format", JString (summary_format s));
           ("include_metadata",
            JString (if include_metadata s then "true" else "false"))].

(** Leading and trailing white space removed. *)
Definition trim (s : string) : string :=
  String.string_of_list_ascii
    (reverse (skip_spaces (reverse (skip_spaces (String.list_ascii_of_string s))))).

Definition sample_runtime : Runtime := {|
  Date_getTime v := v ≫= parse_date;
  Date_toLocaleString v := default "Invalid Date" v;
  Date_now_ISO := "2025-11-03T00:00:00.000Z";
  JSON_stringify := stringify_conversation;
  JSON_parse := parse_conversation;
  JSON_stringify_summary s := print_json "" (json_of_summary s);
  String_trim := trim
|}.

(** A server that knows the sample conversation, and a request for it. *)
Definition sample_fetch (orgId conversationId : string) : response :=
  if bool_decide (conversationId = "c1")
  then HttpResponse true "200" (Some sample_conversation)
  else HttpResponse false "404" None.

Definition sample_request : ExportRequest :=
  {| req_orgId := "org"; req_conversationId := "c1"; req_format := "json";
     req_includeMetadata := false |}.

(** Seven conversations for a batch export; the server fails on the
    fifth.  The callbacks of a batch settle in reverse order. *)
Definition numbered (n : string) : Conversation :=
  mk_conversation ("k" +:+ n) ("Chat " +:+ n) None "2024-06-20"
    [mk_message "a" None "human" ("Question " +:+ n)] (Some "a").

Definition seven : list Conversation :=
  numbered <$> ["1"; "2"; "3"; "4"; "5"; "6"; "7"].

Definition flaky_fetch (known : list Conversation) (orgId conversationId : string) : response :=
  if bool_decide (conversationId = "k5") then HttpResponse false "500" None
  else match list_find (λ c, conv_uuid c = conversationId) known with
       | Some (_, c) => HttpResponse true "200" (Some c)
       | None => HttpResponse false "404" None
       end.

Definition quiet_world : World :=
  {| fetch := flaky_fetch seven;
     settle_order := λ _ batch, reverse batch;
     click := λ _, false |}.

(** The user cancels while the first batch is in flight. *)
Definition cancelling_world : World :=
  {| fetch := flaky_fetch seven;
     settle_order := λ _ batch, reverse batch;
     click := λ ph, match ph with InBatch 0 => true | _ => false end |}.

(** The user presses cancel only while the archive is generated. *)
Definition late_click_world : World :=
  {| fetch := flaky_fetch seven;
     settle_order := λ _ batch, reverse batch;
     click := λ ph, match ph with InZip => true | _ => false end |}.

(** Two conversations with the same name. *)
Definition twin_a : Conversation :=
  mk_conversation "t1" "Chat" None "2024-06-20"
    [mk_message "a" None "human" "First"] (Some "a").
Definition twin_b : Conversation :=
  mk_conversation "t2" "Chat" None "2024-06-20"
    [mk_message "a" None "human" "Second"] (Some "a").

Definition twin_world : World :=
  {| fetch := flaky_fetch [twin_a; twin_b];
     settle_order := λ _ batch, batch;
     click := λ _, false |}.

(** A runtime that prints every date the same way. *)
Definition terse_runtime : Runtime := {|
  Date_getTime v := v ≫= parse_date;
  Date_toLocaleString v := "-";
  Date_now_ISO := "2025-11-03T00:00:00.000Z";
  JSON_stringify := stringify_conversation;
  JSON_parse := parse_conversation;
  JSON_stringify_summary s := print_json "" (json_of_summary s);
  String_trim := trim
|}.

(** The sample conversation with another model and other dates. *)
Definition redated_conversation : Conversation :=
  {| conv_uuid := "c1"; name := Some "Greeting"; summary := None;
     model := Some "claude-3-opus-20240229";
     created_at := Some "2025-01-01"; updated_at := None;
     chat_messages := Some [m1; m2; m2b; m3];
     current_leaf_message_uuid := Some "m3" |}.

(** A message with two content blocks, an empty one between them, and a
    legacy text that is not used. *)
Definition two_blocks : Message :=
  {| uuid := "b1"; parent_message_uuid := None; sender := Some "assistant";
     content := Some [ {| block_text := Some "One" |}; {| block_text := None |};
                       {| block_text := Some "Two" |} ];
     text := Some "Legacy"; msg_created_at := None |}.

(** The file names under which the conversations of a list are filed, in
    order; a conversation that fails has none. *)
Definition document_names `{Runtime} (fuel : nat) (fetch : string → string → response)
    (orgId format : string) (includeMetadata : bool) (convs : list Conversation)
    : list string :=
  omap (λ c, match export_document fuel fetch orgId format includeMetadata c with
             | Returned (filename, _) => Some filename
             | _ => None
             end) convs.

(** Two states of a batch export agree on what the user is told: the
    counters, the requests issued, the cancellation flag, and the failed
    names up to their order. *)
Definition same_report (st1 st2 : export_state) : Prop :=
  completed st1 = completed st2 ∧ failed st1 = failed st2 ∧
  requested st1 = requested st2 ∧ cancelExport st1 = cancelExport st2 ∧
  failedConversations st1 ≡ₚ failedConversations st2.

(** The same server and the same user, the callbacks settling in input
    order instead of in reverse. *)
Definition orderly_world : World :=
  {| fetch := flaky_fetch seven;
     settle_order := λ _ batch, batch;
     click := λ _, false |}.

(** The user cancels during the pause after the first batch. *)
Definition pausing_world : World :=
  {| fetch := flaky_fetch seven;
     settle_order := λ _ batch, reverse batch;
     click := λ ph, match ph with InPause 0 => true | _ => false end |}.

(** The list endpoint of the sample server, and an endpoint that is down. *)
Definition seven_list (orgId : string) : list_response :=
  ListResponse true "200" (Some seven).
Definition broken_list (orgId : string) : list_response :=
  ListResponse false "503" None.

(** A conversation without a name, and the identity as case folding. *)
Definition nameless : Conversation :=
  {| conv_uuid := "n1"; name := None; summary := Some "about cats";
     model := Some "claude-3-opus-20240229";
     created_at := None; updated_at := None;
     chat_messages := None; current_leaf_message_uuid := None |}.

(** [JSON.stringify] on a list of records, for the sample runtime. *)
Definition sample_stringify_all (records : list Conversation) : string :=
  print_json "" (JArray (json_of_conversation <$> records)).

(** A sort that an engine could use: insertion from the right, the
    comparator deciding where an element goes. *)
Fixpoint insert_sorted {A} (compare : A → A → outcome Z) (x : A) (l : list A)
    : outcome (list A) :=
  match l with
  | [] => Returned [x]
  | y :: l' =>
      z ← compare x y;
      if bool_decide (z ≤ 0)%Z then Returned (x :: y :: l')
      else (r ← insert_sorted compare x l'; Returned (y :: r))
  end.

Fixpoint insertion_sort {A} (compare : A → A → outcome Z) (l : list A)
    : outcome (list A) :=
  match l with
  | [] => Returned []
  | x :: l' => sorted ← insertion_sort compare l'; insert_sorted compare x sorted
  end.

(** * Properties *)

(** ** The lookup *)

Lemma messageMap_snoc msgs msg :
  messageMap (msgs ++ [msg]) = <[uuid msg := msg]> (messageMap msgs).
Proof. unfold messageMap. by rewrite foldl_app. Qed.

Lemma messageMap_lookup_Some msgs u msg :
  messageMap msgs !! u = Some msg → msg ∈ msgs ∧ uuid msg = u.
Proof.
  induction msgs as [|x msgs IH] using rev_ind.
  - unfold messageMap; simpl. by rewrite lookup_empty.
  - rewrite messageMap_snoc. intros H.
    destruct (decide (uuid x = u)) as [Heq|Hne].
    + rewrite Heq, lookup_insert_eq in H. injection H as <-.
      split; [|done]. apply elem_of_app. right. by apply list_elem_of_singleton.
    + rewrite lookup_insert_ne in H by done.
      destruct (IH H). split; [|done]. apply elem_of_app. by left.
Qed.

Lemma messageMap_size msgs : size (messageMap msgs) ≤ length msgs.
Proof.
  induction msgs as [|x msgs IH] using rev_ind.
  - unfold messageMap; simpl. by rewrite map_size_empty.
  - rewrite messageMap_snoc, length_app. simpl.
    destruct (messageMap msgs !! uuid x) eqn:E.
    + rewrite map_size_insert_Some by eauto. lia.
    + rewrite map_size_insert_None by done. lia.
Qed.

Lemma Map_has_get m k : Map_has m k = true ↔ is_Some (Map_get m k).
Proof.
  destruct k as [u|]; simpl.
  - by rewrite bool_decide_eq_true.
  - split; [done | by intros [? ?]].
Qed.

Lemma resolve_Some m k msg :
  resolve m k = Some msg ↔
  truthy k = true ∧ Map_has m k = true ∧ Map_get m k = Some msg.
Proof.
  unfold resolve. destruct (truthy k); split.
  - intros H. repeat split; [|done]. apply Map_has_get. eauto.
  - by intros (_ & _ & H).
  - done.
  - by intros (? & _).
Qed.

Lemma resolve_None_has m k : Map_has m k = false → resolve m k = None.
Proof.
  intros H. destruct (resolve m k) eqn:E; [|done].
  apply resolve_Some in E as (_ & E & _). congruence.
Qed.

(** ** The loop of [getCurrentBranch] *)

Lemma trace_back_unfold n m branch k :
  trace_back (S n) m branch k =
  match resolve m k with
  | Some message =>
      if Map_has m (parent_message_uuid message) then
        trace_back n m (message :: branch) (parent_message_uuid message)
      else Returned (message :: branch)
  | None => Returned branch
  end.
Proof.
  simpl. unfold resolve. destruct (truthy k); simpl; [|done].
  destruct (Map_has m k) eqn:Hhas.
  - apply Map_has_get in Hhas as [msg ->].
    by destruct (Map_has m (parent_message_uuid msg)).
  - destruct (Map_get m k) eqn:Hget; [|done].
    assert (Map_has m k = true) by (apply Map_has_get; eauto). congruence.
Qed.

(** More fuel never changes a result. *)
Lemma trace_back_mono n n' m branch k l :
  n ≤ n' → trace_back n m branch k = Returned l → trace_back n' m branch k = Returned l.
Proof.
  revert n' branch k. induction n as [|n IH]; intros n' branch k Hle; [done|].
  destruct n' as [|n']; [lia|].
  rewrite !trace_back_unfold.
  destruct (resolve m k) as [msg|]; [|done].
  destruct (Map_has m (parent_message_uuid msg)); [|done].
  apply IH. lia.
Qed.

(** The loop never reads a property of [undefined]. *)
Lemma trace_back_no_throw n m branch k e : trace_back n m branch k ≠ Thrown e.
Proof.
  revert branch k. induction n as [|n IH]; intros branch k; [done|].
  rewrite trace_back_unfold.
  destruct (resolve m k) as [msg|]; [|done].
  destruct (Map_has m (parent_message_uuid msg)); [apply IH | done].
Qed.

(** What the loop returns is the walk of the specification, put in front of
    the accumulator. *)
Lemma trace_back_sound n m branch k l :
  trace_back n m branch k = Returned l →
  ∃ l', l = l' ++ branch ∧ (resolve m k = None ∧ l' = [] ∨ branch_from m k l').
Proof.
  revert branch k l. induction n as [|n IH]; intros branch k l; [done|].
  rewrite trace_back_unfold.
  destruct (resolve m k) as [msg|] eqn:Hres.
  - destruct (Map_has m (parent_message_uuid msg)) eqn:Hhas.
    + intros H. destruct (IH _ _ _ H) as (l2 & -> & [[Hnone ->]|Hl2]).
      * exists [msg]. split; [done|]. right. by apply branch_root.
      * exists (l2 ++ [msg]). split; [by rewrite <- app_assoc|].
        right. by apply branch_step.
    + intros [= <-]. exists [msg]. split; [done|]. right.
      apply branch_root; [done | by apply resolve_None_has].
  - intros [= <-]. exists []. split; [done|]. by left.
Qed.

(** Conversely the loop returns the walk of the specification once the fuel
    exceeds its length. *)
Lemma branch_from_resolves m k l : branch_from m k l → is_Some (resolve m k).
Proof. destruct 1; eauto. Qed.

Lemma trace_back_complete m k l :
  branch_from m k l →
  ∀ n branch, length l < n → trace_back n m branch k = Returned (l ++ branch).
Proof.
  induction 1 as [k msg Hk Hroot | k msg l Hk Hl IH]; intros n branch Hn.
  - destruct n as [|n]; [simpl in Hn; lia|].
    rewrite trace_back_unfold, Hk.
    destruct (Map_has m (parent_message_uuid msg)); [|done].
    destruct n as [|n]; [simpl in Hn; lia|].
    by rewrite trace_back_unfold, Hroot.
  - destruct n as [|n]; [lia|].
    rewrite length_app in Hn. simpl in Hn.
    rewrite trace_back_unfold, Hk.
    destruct (branch_from_resolves _ _ _ Hl) as [msg' Hmsg'].
    apply resolve_Some in Hmsg' as (_ & -> & _).
    rewrite IH by lia. by rewrite <- app_assoc.
Qed.

(** The walk is a function of the lookup and the starting identifier. *)
Lemma branch_from_unique m k l1 l2 :
  branch_from m k l1 → branch_from m k l2 → l1 = l2.
Proof.
  intros H1 H2.
  pose proof (trace_back_complete _ _ _ H1 (S (length l1 + length l2)) [] ltac:(lia)) as E1.
  pose proof (trace_back_complete _ _ _ H2 (S (length l1 + length l2)) [] ltac:(lia)) as E2.
  rewrite E1 in E2. injection E2 as E2. by rewrite !app_nil_r in E2.
Qed.

(** The leaf is the last element. *)
Lemma branch_from_last m k l :
  branch_from m k l → ∃ msg, resolve m k = Some msg ∧ last l = Some msg.
Proof.
  destruct 1 as [k msg Hk _ | k msg l Hk _]; exists msg; split; try done.
  by rewrite last_snoc.
Qed.

(** The first element is the root: its parent is absent or unresolvable. *)
Lemma branch_from_head m k l :
  branch_from m k l →
  ∃ root, head l = Some root ∧ resolve m (parent_message_uuid root) = None.
Proof.
  induction 1 as [k msg Hk Hroot | k msg l Hk Hl (root & Hhd & Hr)].
  - by exists msg.
  - exists root. split; [|done]. destruct l; [done|]. simpl in *. done.
Qed.

(** Every element is reachable from the starting identifier. *)
Lemma branch_from_reaches m k l x :
  branch_from m k l → x ∈ l → reaches m k x.
Proof.
  induction 1 as [k msg Hk Hroot | k msg l Hk Hl IH]; intros Hx.
  - apply list_elem_of_singleton in Hx as ->. by apply reaches_here.
  - apply elem_of_app in Hx as [Hx|Hx].
    + eapply reaches_parent; eauto.
    + apply list_elem_of_singleton in Hx as ->. by apply reaches_here.
Qed.

(** ** Termination on acyclic data *)

Lemma parent_of_parent_in msgs u p :
  parent_of (messageMap msgs) u p → parent_in msgs u p.
Proof.
  intros (msg & Hmsg & Hp). apply messageMap_lookup_Some in Hmsg as [? ?].
  by exists msg.
Qed.

Lemma acyclic_lookup msgs u : acyclic msgs → ¬ tc (parent_of (messageMap msgs)) u u.
Proof.
  intros Hac Hcyc. apply (Hac u).
  eapply tc_congruence with (f := id); [|exact Hcyc].
  intros ??. apply parent_of_parent_in.
Qed.

(** Invariant of the loop: every identifier already visited leads to the
    current one through parent pointers, so on acyclic data the current one
    is new, and the lookup is finite. *)
Lemma trace_back_terminates m n (visited : gset string) branch k :
  (∀ u, ¬ tc (parent_of m) u u) →
  visited ⊆ dom m →
  (∀ v c, v ∈ visited → k = Some c → tc (parent_of m) v c) →
  size (dom m) < n + size visited →
  ∃ l, trace_back n m branch k = Returned l.
Proof.
  intros Hac. revert visited branch k.
  induction n as [|n IH]; intros visited branch k Hsub Hinv Hsize.
  - apply subseteq_size in Hsub. lia.
  - rewrite trace_back_unfold.
    destruct (resolve m k) as [msg|] eqn:Hk; [|eauto].
    destruct (Map_has m (parent_message_uuid msg)) eqn:Hp; [|eauto].
    apply resolve_Some in Hk as (_ & _ & Hk).
    destruct k as [c|]; [simpl in Hk|done].
    assert (c ∉ visited) as Hnew.
    { intros Hin. apply (Hac c). by apply Hinv. }
    apply (IH ({[c]} ∪ visited)).
    + apply union_subseteq. split; [|done].
      apply singleton_subseteq_l, elem_of_dom. eauto.
    + intros v p Hv Hpar.
      assert (parent_of m c p) as Hedge by (by exists msg).
      apply elem_of_union in Hv as [Hv|Hv].
      * apply elem_of_singleton in Hv as ->. by apply tc_once.
      * eapply tc_r; [|exact Hedge]. by apply Hinv.
    + rewrite size_union by set_solver. rewrite size_singleton. lia.
Qed.

Lemma trace_back_acyclic msgs branch k :
  acyclic msgs →
  ∃ l, trace_back (S (length msgs)) (messageMap msgs) branch k = Returned l.
Proof.
  intros Hac. apply (trace_back_terminates _ _ ∅).
  - intros u. by apply acyclic_lookup.
  - set_solver.
  - set_solver.
  - rewrite size_dom, size_empty. pose proof (messageMap_size msgs). lia.
Qed.

(** A rank that decreases along parent pointers rules out cycles. *)
Lemma acyclic_ranked msgs (rank : string → nat) :
  (∀ u p, parent_in msgs u p → rank p < rank u) → acyclic msgs.
Proof.
  intros Hrank u Hcyc.
  assert (∀ a b, tc (parent_in msgs) a b → rank b < rank a) as Hlt.
  { induction 1 as [a b Hab | a b c Hab _ IH].
    - by apply Hrank.
    - apply Hrank in Hab. lia. }
  specialize (Hlt _ _ Hcyc). lia.
Qed.

Lemma sample_acyclic : acyclic (default [] (chat_messages sample_conversation)).
Proof.
  apply (acyclic_ranked _ sample_rank).
  intros u p (msg & Hin & <- & Hp). simpl in Hin.
  repeat (apply elem_of_cons in Hin as [->|Hin]); simpl in Hp;
    try discriminate; try (injection Hp as <-; vm_compute; lia).
  all: by apply elem_of_nil in Hin.
Qed.

Lemma dangling_acyclic : acyclic (default [] (chat_messages dangling_conversation)).
Proof.
  apply (acyclic_ranked _ sample_rank).
  intros u p (msg & Hin & <- & Hp). simpl in Hin.
  repeat (apply elem_of_cons in Hin as [->|Hin]); simpl in Hp;
    try discriminate; try (injection Hp as <-; vm_compute; lia).
  all: by apply elem_of_nil in Hin.
Qed.

(** ** [getCurrentBranch] as a whole *)

Lemma getCurrentBranch_unfold fuel data :
  truthy (current_leaf_message_uuid data) = true →
  getCurrentBranch fuel data =
  match chat_messages data with
  | None => Returned []
  | Some _ => trace_back fuel (lookup_of data) [] (current_leaf_message_uuid data)
  end.
Proof.
  intros Ht. unfold getCurrentBranch, lookup_of.
  destruct (chat_messages data); [|done]. by rewrite Ht.
Qed.

Lemma resolve_lookup_of_messages data msg k :
  resolve (lookup_of data) k = Some msg → ∃ msgs, chat_messages data = Some msgs.
Proof.
  unfold lookup_of. destruct (chat_messages data) as [msgs|]; [eauto|].
  intros H. apply resolve_Some in H as (_ & _ & H).
  destruct k; simpl in H; [|done]. unfold messageMap in H. simpl in H.
  by rewrite lookup_empty in H.
Qed.

Lemma getCurrentBranch_complete data l :
  branch_from (lookup_of data) (current_leaf_message_uuid data) l →
  ∀ fuel, length l < fuel → getCurrentBranch fuel data = Returned l.
Proof.
  intros Hl fuel Hfuel.
  destruct (branch_from_resolves _ _ _ Hl) as [leaf Hleaf].
  destruct (resolve_lookup_of_messages _ _ _ Hleaf) as [msgs Hmsgs].
  pose proof Hleaf as (Ht & _ & _)%resolve_Some.
  rewrite getCurrentBranch_unfold, Hmsgs by done.
  rewrite (trace_back_complete _ _ _ Hl) by done. by rewrite app_nil_r.
Qed.

Lemma getCurrentBranch_acyclic data leaf :
  resolve (lookup_of data) (current_leaf_message_uuid data) = Some leaf →
  acyclic (default [] (chat_messages data)) →
  ∃ branch,
    branch_from (lookup_of data) (current_leaf_message_uuid data) branch ∧
    ∀ fuel, length (default [] (chat_messages data)) < fuel →
            getCurrentBranch fuel data = Returned branch.
Proof.
  intros Hleaf Hac.
  destruct (resolve_lookup_of_messages _ _ _ Hleaf) as [msgs Hmsgs].
  pose proof Hleaf as (Ht & _ & _)%resolve_Some.
  unfold lookup_of in *. rewrite Hmsgs in *. simpl in *.
  destruct (trace_back_acyclic msgs [] (current_leaf_message_uuid data) Hac) as [l Hl].
  destruct (trace_back_sound _ _ _ _ _ Hl) as (l' & -> & [[Hnone _]|Hl']);
    [congruence|].
  rewrite app_nil_r in Hl. exists l'. split; [done|].
  intros fuel Hfuel. rewrite getCurrentBranch_unfold, Hmsgs by done.
  unfold lookup_of. rewrite Hmsgs. simpl.
  eapply trace_back_mono; [|exact Hl]. lia.
Qed.

(** C1. For a record whose current-leaf identifier resolves to a message
    (and whose parent pointers are acyclic, as the data model requires),
    [getCurrentBranch] returns the sequence obtained by starting at the
    current leaf and following parent identifiers, prepending each resolved
    message and stopping when the parent identifier is absent or
    unresolvable.  The leaf is the last element, the root (the message at
    which the walk stops) is the first, and every element is reachable from
    the current leaf through parent pointers. *)
Theorem getCurrentBranch_ancestor_chain (data : Conversation) (leaf : Message) :
  resolve (lookup_of data) (current_leaf_message_uuid data) = Some leaf →
  acyclic (default [] (chat_messages data)) →
  ∃ branch,
    (∀ fuel, length (default [] (chat_messages data)) < fuel →
             getCurrentBranch fuel data = Returned branch) ∧
    branch_from (lookup_of data) (current_leaf_message_uuid data) branch ∧
    last branch = Some leaf ∧
    (∃ root, head branch = Some root ∧
             resolve (lookup_of data) (parent_message_uuid root) = None) ∧
    (∀ x, x ∈ branch → reaches (lookup_of data) (current_leaf_message_uuid data) x).
Proof.
  intros Hleaf Hac.
  destruct (getCurrentBranch_acyclic data leaf Hleaf Hac) as (branch & Hb & Hrun).
  exists branch. split; [done|]. split; [done|]. split; [|split].
  - destruct (branch_from_last _ _ _ Hb) as (msg & Hmsg & Hlast). congruence.
  - by eapply branch_from_head.
  - intros x Hx. by eapply branch_from_reaches.
Qed.

Lemma getCurrentBranch_ancestor_chain_witness :
  resolve (lookup_of sample_conversation) (Some "m3") = Some m3 ∧
  acyclic [m1; m2; m2b; m3] ∧
  ∃ branch,
    (∀ fuel, 4 < fuel → getCurrentBranch fuel sample_conversation = Returned branch) ∧
    branch_from (lookup_of sample_conversation) (Some "m3") branch ∧
    last branch = Some m3 ∧
    (∃ root, head branch = Some root ∧
             resolve (lookup_of sample_conversation) (parent_message_uuid root) = None) ∧
    (∀ x, x ∈ branch → reaches (lookup_of sample_conversation) (Some "m3") x).
Proof.
  split; [reflexivity|]. split; [exact sample_acyclic|].
  apply (getCurrentBranch_ancestor_chain sample_conversation m3);
    [reflexivity | exact sample_acyclic].
Defined.

(** On the sample data the abandoned sibling [m2b] is left out. *)
Example getCurrentBranch_sample :
  getCurrentBranch 5 sample_conversation = Returned [m1; m2; m3].
Proof. by vm_compute. Qed.

(** A walk that arrives at a message whose parent does not resolve stops
    there. *)
Lemma reaches_root_branch m k x :
  reaches m k x →
  resolve m (parent_message_uuid x) = None →
  ∃ l, branch_from m k l ∧ head l = Some x.
Proof.
  induction 1 as [k msg Hk | k msg x Hk Hx IH]; intros Hroot.
  - exists [msg]. split; [by apply branch_root | done].
  - destruct (IH Hroot) as (l & Hl & Hhd).
    exists (l ++ [msg]). split; [by apply branch_step|].
    destruct l; [done|]. done.
Qed.

Lemma getCurrentBranch_no_throw fuel data e : getCurrentBranch fuel data ≠ Thrown e.
Proof.
  unfold getCurrentBranch. destruct (chat_messages data); [|done].
  destruct (negb _); [done|]. apply trace_back_no_throw.
Qed.

(** C3. [getCurrentBranch] never raises an error.  On a record whose message
    collection is missing or empty, or whose current-leaf identifier does not
    resolve to a message, it returns the empty sequence.  When the walk from
    the current leaf arrives at a message with a dangling parent reference
    (an identifier with no entry in the lookup) it stops there and returns
    the branch that starts at that message: a valid walk of the
    specification, not an error. *)
Theorem getCurrentBranch_never_fails :
  (∀ fuel data e, getCurrentBranch fuel data ≠ Thrown e) ∧
  (∀ fuel data,
     0 < fuel →
     chat_messages data = None ∨ chat_messages data = Some [] ∨
     resolve (lookup_of data) (current_leaf_message_uuid data) = None →
     getCurrentBranch fuel data = Returned []) ∧
  (∀ data x p,
     reaches (lookup_of data) (current_leaf_message_uuid data) x →
     parent_message_uuid x = Some p →
     lookup_of data !! p = None →
     ∃ branch,
       head branch = Some x ∧
       branch_from (lookup_of data) (current_leaf_message_uuid data) branch ∧
       ∀ fuel, length branch < fuel → getCurrentBranch fuel data = Returned branch).
Proof.
  split; [exact getCurrentBranch_no_throw|]. split.
  - intros fuel data Hfuel Hcase. unfold getCurrentBranch.
    destruct (chat_messages data) as [msgs|] eqn:Hmsgs; [|done].
    destruct (truthy (current_leaf_message_uuid data)) eqn:Ht; [simpl|done].
    destruct fuel as [|fuel]; [lia|]. rewrite trace_back_unfold.
    destruct Hcase as [?|[[= ->]|Hnone]]; [done|..].
    + unfold resolve. rewrite Ht.
      destruct (current_leaf_message_uuid data); [simpl|done].
      unfold messageMap. simpl. by rewrite lookup_empty.
    + unfold lookup_of in Hnone. rewrite Hmsgs in Hnone. simpl in Hnone.
      by rewrite Hnone.
  - intros data x p Hx Hp Hdangling.
    destruct (reaches_root_branch _ _ _ Hx) as (branch & Hb & Hhd).
    { apply resolve_None_has. rewrite Hp. simpl.
      apply bool_decide_eq_false. rewrite Hdangling. by intros [? ?]. }
    exists branch. split; [done|]. split; [done|].
    by apply getCurrentBranch_complete.
Qed.

Lemma getCurrentBranch_never_fails_witness :
  getCurrentBranch 1 empty_conversation = Returned [] ∧
  ∃ branch,
    head branch = Some orphan ∧
    branch_from (lookup_of dangling_conversation) (Some "o2") branch ∧
    ∀ fuel, length branch < fuel →
            getCurrentBranch fuel dangling_conversation = Returned branch.
Proof.
  destruct getCurrentBranch_never_fails as (_ & Hempty & Hdangling). split.
  - apply Hempty; [apply Nat.lt_0_1 | right; left; reflexivity].
  - apply (Hdangling dangling_conversation orphan "gone"); [|reflexivity..].
    eapply reaches_parent; [reflexivity|]. apply reaches_here. reflexivity.
Defined.

Example getCurrentBranch_dangling :
  getCurrentBranch 3 dangling_conversation =
  Returned [orphan; mk_message "o2" (Some "o1") "assistant" "Found"].
Proof. reflexivity. Qed.

(** C9. On a record whose parent pointers contain no cycle the walk of
    [getCurrentBranch] terminates: any fuel above the number of messages is
    enough for it to return. *)
Theorem getCurrentBranch_terminates (data : Conversation) :
  acyclic (default [] (chat_messages data)) →
  ∀ fuel, length (default [] (chat_messages data)) < fuel →
          ∃ branch, getCurrentBranch fuel data = Returned branch.
Proof.
  intros Hac fuel Hfuel. unfold getCurrentBranch.
  destruct (chat_messages data) as [msgs|]; [simpl in *|eauto].
  destruct (negb _); [eauto|].
  destruct (trace_back_acyclic msgs [] (current_leaf_message_uuid data) Hac) as [l Hl].
  exists l. eapply trace_back_mono; [|exact Hl]. lia.
Qed.

Lemma getCurrentBranch_terminates_witness :
  acyclic [m1; m2; m2b; m3] ∧
  ∃ branch, getCurrentBranch 5 sample_conversation = Returned branch.
Proof.
  split; [exact sample_acyclic|].
  apply (getCurrentBranch_terminates sample_conversation sample_acyclic 5).
  simpl. apply Nat.lt_succ_diag_r.
Defined.

(** Without the precondition the walk does not return: a message that is its
    own parent keeps the loop running whatever the fuel. *)
Lemma trace_back_selfish fuel branch :
  trace_back fuel (messageMap [selfish]) branch (Some "s1") = OutOfFuel.
Proof.
  revert branch. induction fuel as [|fuel IH]; intros branch; [done|].
  rewrite trace_back_unfold.
  change (resolve (messageMap [selfish]) (Some "s1")) with (Some selfish).
  change (Map_has (messageMap [selfish]) (parent_message_uuid selfish)) with true.
  apply IH.
Qed.

Example getCurrentBranch_cyclic fuel :
  getCurrentBranch fuel cyclic_conversation = OutOfFuel.
Proof. apply trace_back_selfish. Qed.

(** ** [inferModel] *)

Lemma DEFAULT_MODEL_TIMELINE_values :
  DEFAULT_MODEL_TIMELINE.*1 =
  [1704067200000; 1718841600000; 1729555200000; 1740355200000;
   1747872000000; 1759104000000; 1761955200000]%Z.
Proof. reflexivity. Qed.

(** The table is sorted by strictly ascending date. *)
Lemma DEFAULT_MODEL_TIMELINE_sorted :
  StronglySorted (λ a b : Z * string, (a.1 < b.1)%Z) DEFAULT_MODEL_TIMELINE.
Proof.
  unfold DEFAULT_MODEL_TIMELINE.
  repeat first [apply SSorted_nil | apply SSorted_cons
               | apply List.Forall_nil | apply List.Forall_cons];
    by vm_compute.
Qed.

Lemma StronglySorted_lookup_lt {A} (R : relation A) (l : list A) i j a b :
  StronglySorted R l → l !! i = Some a → l !! j = Some b → i < j → R a b.
Proof.
  intros Hs. revert i j. induction Hs as [|x l Hs IH Hall]; intros i j Hi Hj Hlt.
  - done.
  - destruct j as [|j]; [lia|]. destruct i as [|i]; simpl in *.
    + injection Hi as ->. rewrite Forall_forall in Hall.
      apply Hall. by eapply list_elem_of_lookup_2.
    + eapply IH; eauto. lia.
Qed.

(** The backward scan stops at the highest index below [i] whose date is not
    after the conversation date. *)
Lemma timeline_scan_Some timeline i d mdl :
  timeline_scan timeline i d = Some mdl →
  ∃ j date,
    j < i ∧ timeline !! j = Some (date, mdl) ∧ date_ge d date = true ∧
    ∀ k date' mdl', j < k < i → timeline !! k = Some (date', mdl') →
                    date_ge d date' = false.
Proof.
  induction i as [|i IH]; [done|]. simpl.
  destruct (timeline !! i) as [[date m]|] eqn:Hi.
  - destruct (date_ge d date) eqn:Hge.
    + intros [= <-]. exists i, date. repeat split; [lia|done..|].
      intros k ?? Hk. lia.
    + intros (j & date0 & Hj & Hlook & Hge0 & Hmax)%IH.
      exists j, date0. repeat split; [lia|done..|].
      intros k date' mdl' Hk Hlook'.
      destruct (decide (k = i)) as [->|]; [congruence|].
      eapply Hmax; [|done]. lia.
  - intros (j & date0 & Hj & Hlook & Hge0 & Hmax)%IH.
    exists j, date0. repeat split; [lia|done..|].
    intros k date' mdl' Hk Hlook'.
    destruct (decide (k = i)) as [->|]; [congruence|].
    eapply Hmax; [|done]. lia.
Qed.

Lemma timeline_scan_None timeline i d :
  timeline_scan timeline i d = None ↔
  ∀ k date mdl, k < i → timeline !! k = Some (date, mdl) → date_ge d date = false.
Proof.
  induction i as [|i IH]; simpl.
  - split; [intros _ k ?? Hk; lia | done].
  - destruct (timeline !! i) as [[date m]|] eqn:Hi.
    + destruct (date_ge d date) eqn:Hge.
      * split; [done|]. intros Hall. specialize (Hall i _ _ ltac:(lia) Hi). congruence.
      * rewrite IH. split.
        -- intros Hall k date' mdl' Hk Hlook.
           destruct (decide (k = i)) as [->|]; [congruence|].
           eapply Hall; [|done]. lia.
        -- intros Hall k date' mdl' Hk. apply Hall. lia.
    + rewrite IH. split.
      * intros Hall k date' mdl' Hk Hlook.
        destruct (decide (k = i)) as [->|]; [congruence|].
        eapply Hall; [|done]. lia.
      * intros Hall k date' mdl' Hk. apply Hall. lia.
Qed.

(** On a table sorted by date, the scan returns the model of the latest
    entry that is not after the conversation date. *)
Lemma timeline_scan_latest timeline t date mdl :
  StronglySorted (λ a b : Z * string, (a.1 < b.1)%Z) timeline →
  (date, mdl) ∈ timeline →
  (date ≤ t)%Z →
  (∀ date' mdl', (date', mdl') ∈ timeline → (date' ≤ t)%Z → (date' ≤ date)%Z) →
  timeline_scan timeline (length timeline) (Some t) = Some mdl.
Proof.
  intros Hsorted Hin Hle Hmax.
  apply list_elem_of_lookup in Hin as [j0 Hj0].
  pose proof (lookup_lt_Some _ _ _ Hj0) as Hlt0.
  destruct (timeline_scan timeline (length timeline) (Some t)) as [m|] eqn:Hscan.
  - apply timeline_scan_Some in Hscan as (j & dj & Hj & Hlook & Hge & Hlast).
    simpl in Hge. apply bool_decide_eq_true in Hge.
    assert ((dj ≤ date)%Z) as Hdj.
    { eapply Hmax; [|done]. by eapply list_elem_of_lookup_2. }
    destruct (Nat.lt_trichotomy j j0) as [Hlt|[->|Hgt]].
    + specialize (Hlast j0 date mdl ltac:(lia) Hj0). simpl in Hlast.
      apply bool_decide_eq_false in Hlast. lia.
    + congruence.
    + pose proof (StronglySorted_lookup_lt _ _ _ _ _ _ Hsorted Hj0 Hlook Hgt) as H.
      simpl in H. lia.
  - rewrite timeline_scan_None in Hscan.
    specialize (Hscan j0 date mdl Hlt0 Hj0). simpl in Hscan.
    apply bool_decide_eq_false in Hscan. lia.
Qed.

Lemma DEFAULT_MODEL_TIMELINE_models :
  Forall (λ e : Z * string, e.2 ≠ "") DEFAULT_MODEL_TIMELINE.
Proof. unfold DEFAULT_MODEL_TIMELINE. repeat constructor; done. Qed.

Lemma inferModel_declared `{Runtime} record :
  truthy (model record) = true → model record = Some (inferModel record).
Proof.
  intros Ht. unfold inferModel. rewrite Ht.
  destruct (model record); [done | discriminate].
Qed.

Lemma inferModel_scan `{Runtime} record :
  truthy (model record) = false →
  inferModel record =
  match timeline_scan DEFAULT_MODEL_TIMELINE (length DEFAULT_MODEL_TIMELINE)
          (Date_getTime (created_at record)) with
  | Some mdl => mdl
  | None => default "" (snd <$> head DEFAULT_MODEL_TIMELINE)
  end.
Proof. intros Ht. unfold inferModel. by rewrite Ht. Qed.

Lemma inferModel_nonempty `{Runtime} record : inferModel record ≠ "".
Proof.
  destruct (truthy (model record)) eqn:Ht.
  - pose proof (inferModel_declared record Ht) as Hm.
    rewrite Hm in Ht. simpl in Ht. by apply bool_decide_eq_true in Ht.
  - rewrite inferModel_scan by done.
    destruct (timeline_scan _ _ _) as [mdl|] eqn:Hscan; [|done].
    apply timeline_scan_Some in Hscan as (j & date & _ & Hj & _).
    pose proof DEFAULT_MODEL_TIMELINE_models as Hall.
    rewrite Forall_forall in Hall.
    apply (Hall (date, mdl)). by eapply list_elem_of_lookup_2.
Qed.

(** C2. [inferModel] returns a non-empty [record.model] unchanged.
    Otherwise it returns the model of the latest timeline entry whose date is
    not after [record.created_at]; a creation date equal to an entry's date
    resolves to that entry; and when the creation date precedes every entry
    (or is no date at all) the earliest entry's model is returned.  The
    function is total and its result is never empty. *)
Theorem inferModel_spec `{Runtime} (record : Conversation) :
  (truthy (model record) = true → model record = Some (inferModel record)) ∧
  (truthy (model record) = false →
     (∀ t date mdl,
        Date_getTime (created_at record) = Some t →
        (date, mdl) ∈ DEFAULT_MODEL_TIMELINE →
        (date ≤ t)%Z →
        (∀ date' mdl', (date', mdl') ∈ DEFAULT_MODEL_TIMELINE →
                       (date' ≤ t)%Z → (date' ≤ date)%Z) →
        inferModel record = mdl) ∧
     (∀ date mdl,
        Date_getTime (created_at record) = Some date →
        (date, mdl) ∈ DEFAULT_MODEL_TIMELINE →
        inferModel record = mdl) ∧
     ((∀ t date mdl,
         Date_getTime (created_at record) = Some t →
         (date, mdl) ∈ DEFAULT_MODEL_TIMELINE → (t < date)%Z) →
      snd <$> head DEFAULT_MODEL_TIMELINE = Some (inferModel record))) ∧
  inferModel record ≠ "".
Proof.
  split; [apply inferModel_declared|]. split; [|apply inferModel_nonempty].
  intros Ht. rewrite inferModel_scan by done. split; [|split].
  - intros t date mdl -> Hin Hle Hmax.
    by rewrite (timeline_scan_latest _ t date mdl DEFAULT_MODEL_TIMELINE_sorted).
  - intros date mdl -> Hin.
    by rewrite (timeline_scan_latest _ date date mdl DEFAULT_MODEL_TIMELINE_sorted).
  - intros Hbefore.
    destruct (timeline_scan _ _ _) as [mdl|] eqn:Hscan; [|done].
    apply timeline_scan_Some in Hscan as (j & date & _ & Hj & Hge & _).
    destruct (Date_getTime (created_at record)) as [t|]; [|done].
    simpl in Hge. apply bool_decide_eq_true in Hge.
    pose proof (Hbefore t date mdl eq_refl (list_elem_of_lookup_2 _ _ _ Hj)). lia.
Qed.

Lemma inferModel_spec_witness :
  @inferModel sample_runtime declared_conversation = "claude-3-opus-20240229" ∧
  @inferModel sample_runtime sample_conversation = "claude-3-5-sonnet-20240620" ∧
  @inferModel sample_runtime undated_before = "claude-3-sonnet-20240229".
Proof.
  split; [|split].
  - destruct (@inferModel_spec sample_runtime declared_conversation) as (Hid & _ & _).
    exact (f_equal (default "") (eq_sym (Hid eq_refl))).
  - destruct (@inferModel_spec sample_runtime sample_conversation) as (_ & Hscan & _).
    destruct (Hscan eq_refl) as (_ & Heq & _).
    apply (Heq (Date_UTC 2024 6 20)); [reflexivity|].
    apply list_elem_of_lookup. exists 1. reflexivity.
  - destruct (@inferModel_spec sample_runtime undated_before) as (_ & Hscan & _).
    destruct (Hscan eq_refl) as (_ & _ & Hfirst).
    assert (snd <$> head DEFAULT_MODEL_TIMELINE = Some (@inferModel sample_runtime undated_before)) as E.
    { apply Hfirst. intros t date mdl [= <-] Hin.
      pose proof DEFAULT_MODEL_TIMELINE_sorted as Hs.
      apply list_elem_of_lookup in Hin as [i Hi].
      destruct i as [|i]; [injection Hi as <- <-; by vm_compute|].
      pose proof (StronglySorted_lookup_lt _ _ 0 (S i) _ _ Hs eq_refl Hi ltac:(lia)) as Hlt.
      simpl in Hlt. etrans; [|exact Hlt]. by vm_compute. }
    exact (f_equal (default "") (eq_sym E)).
Defined.

(** The day before a boundary still belongs to the previous entry. *)
Example inferModel_day_before :
  @inferModel sample_runtime
    (mk_conversation "c6" "Eve" None "2024-06-19" [] None) = "claude-3-sonnet-20240229".
Proof. reflexivity. Qed.

(** ** Sender labels *)

Lemma append_assoc (s1 s2 s3 : string) : (s1 +:+ s2) +:+ s3 = s1 +:+ (s2 +:+ s3).
Proof. induction s1 as [|c s1 IH]; [done | exact (f_equal (String c) IH)]. Qed.

Lemma append_empty_r (s : string) : s +:+ "" = s.
Proof. induction s as [|c s IH]; [done | exact (f_equal (String c) IH)]. Qed.

Lemma text_message_fold st branch :
  text_acc (foldl text_message st branch) =
  text_acc st +:+ lines_of (labels_from (humanSeen st) (assistantSeen st) branch) branch.
Proof.
  revert st. induction branch as [|message branch IH]; intros st; simpl.
  - by rewrite append_empty_r.
  - rewrite IH. simpl. by rewrite !append_assoc.
Qed.

Lemma labels_from_lookup h a branch i message :
  branch !! i = Some message →
  labels_from h a branch !! i =
  Some (senderLabel (h || existsb is_human (take i branch))
                    (a || existsb (λ e, negb (is_human e)) (take i branch)) message).
Proof.
  revert h a i. induction branch as [|m branch IH]; intros h a i Hi; [done|].
  destruct i as [|i]; simpl in *.
  - injection Hi as ->. by rewrite !orb_false_r.
  - rewrite (IH _ _ _ Hi). do 2 f_equal.
    + by destruct (is_human m), h.
    + by destruct (is_human m), a.
Qed.

Lemma senderLabel_expected earlier message :
  senderLabel (existsb is_human earlier)
              (existsb (λ e, negb (is_human e)) earlier) message =
  expected_label earlier message.
Proof.
  unfold senderLabel, expected_label.
  destruct (is_human message) eqn:Hm.
  - replace (existsb (λ e, bool_decide (is_human e = true)) earlier)
      with (existsb is_human earlier); [done|].
    induction earlier as [|e earlier IH]; simpl; [done|].
    rewrite IH. by destruct (is_human e).
  - replace (existsb (λ e, bool_decide (is_human e = false)) earlier)
      with (existsb (λ e, negb (is_human e)) earlier); [done|].
    induction earlier as [|e earlier IH]; simpl; [done|].
    rewrite IH. by destruct (is_human e).
Qed.

Lemma labels_from_length h a branch :
  length (labels_from h a branch) = length branch.
Proof.
  revert h a. induction branch as [|m branch IH]; intros h a; simpl; [done|].
  by rewrite IH.
Qed.

Lemma convertToText_lines `{Runtime} fuel data includeMetadata branch :
  getCurrentBranch fuel data = Returned branch →
  convertToText fuel data includeMetadata =
    Returned (String_trim (text_header data includeMetadata
                           +:+ lines_of (text_labels branch) branch)).
Proof.
  intros Hbranch. unfold convertToText. rewrite Hbranch. cbn.
  unfold text_untrimmed. by rewrite text_message_fold.
Qed.

(** C7. The text that [convertToText] returns is the header followed by one
    line per message of the branch, each opened by its label.  The label of
    a message is the full word ("Human" or "Assistant") when no earlier
    message of the branch has the same sender, and the initial ("H" or "A")
    otherwise, each sender being tracked on its own; the senders human,
    assistant, human, human, assistant yield the labels Human, Assistant, H,
    H, A. *)
Theorem text_labels_spec :
  (∀ (RT : Runtime) fuel data includeMetadata branch,
     getCurrentBranch fuel data = Returned branch →
     convertToText fuel data includeMetadata =
       Returned (String_trim (text_header data includeMetadata
                              +:+ lines_of (text_labels branch) branch))) ∧
  (∀ branch, length (text_labels branch) = length branch) ∧
  (∀ branch i message,
     branch !! i = Some message →
     text_labels branch !! i = Some (expected_label (take i branch) message)) ∧
  (∀ branch,
     sender <$> branch =
       [Some "human"; Some "assistant"; Some "human"; Some "human"; Some "assistant"] →
     text_labels branch = ["Human"; "Assistant"; "H"; "H"; "A"]).
Proof.
  split; [|split; [|split]].
  - intros RT fuel data includeMetadata branch. apply convertToText_lines.
  - intros branch. apply labels_from_length.
  - intros branch i message Hi. unfold text_labels.
    rewrite (labels_from_lookup _ _ _ _ _ Hi). simpl.
    by rewrite senderLabel_expected.
  - intros branch Hs.
    do 6 (destruct branch as [|? branch]; try discriminate).
    injection Hs as H1 H2 H3 H4 H5.
    unfold text_labels. simpl. unfold senderLabel, is_human.
    rewrite H1, H2, H3, H4, H5. reflexivity.
Qed.

Lemma text_labels_spec_witness :
  @convertToText sample_runtime 6 five_turns false =
    Returned ("Human: Hello" +:+ nl +:+ nl +:+ "Assistant: Hi there" +:+ nl +:+ nl
              +:+ "H: Thanks" +:+ nl +:+ nl +:+ "H: One more thing" +:+ nl +:+ nl
              +:+ "A: Go on") ∧
  text_labels [m1; m2; m3] !! 2 = Some "H".
Proof.
  destruct text_labels_spec as (Hlines & _ & Hlabel & Hexample). split.
  - rewrite (Hlines sample_runtime 6 five_turns false [m1; m2; m3; m4; m5] eq_refl).
    rewrite (Hexample [m1; m2; m3; m4; m5] eq_refl). reflexivity.
  - exact (Hlabel [m1; m2; m3] 2 m3 eq_refl).
Defined.

(** ** Senders other than ['human'] *)

Lemma convertToMarkdown_no_throw `{Runtime} fuel data includeMetadata e :
  convertToMarkdown fuel data includeMetadata ≠ Thrown e.
Proof.
  unfold convertToMarkdown.
  pose proof (getCurrentBranch_no_throw fuel data e).
  destruct (getCurrentBranch fuel data); cbn; [discriminate | | discriminate].
  intros [= ->]. by apply H0.
Qed.

Lemma convertToText_no_throw `{Runtime} fuel data includeMetadata e :
  convertToText fuel data includeMetadata ≠ Thrown e.
Proof.
  unfold convertToText.
  pose proof (getCurrentBranch_no_throw fuel data e).
  destruct (getCurrentBranch fuel data); cbn; [discriminate | | discriminate].
  intros [= ->]. by apply H0.
Qed.

Lemma markdown_blocks_fold (blocks : list ContentBlock) (markdown : string) :
  foldl (λ markdown c,
           if truthy (block_text c)
           then markdown +:+ interpolate (block_text c) +:+ nl +:+ nl
           else markdown) markdown blocks
  = markdown +:+
    foldl (λ markdown c,
             if truthy (block_text c)
             then markdown +:+ interpolate (block_text c) +:+ nl +:+ nl
             else markdown) "" blocks.
Proof.
  induction blocks as [|c blocks IH] using rev_ind.
  - simpl. by rewrite append_empty_r.
  - rewrite !foldl_snoc, IH.
    destruct (truthy (block_text c)); [by rewrite append_assoc | done].
Qed.

Lemma markdown_body_acc markdown message :
  markdown_body markdown message = markdown +:+ markdown_body "" message.
Proof.
  unfold markdown_body. destruct (content message) as [blocks|].
  - apply markdown_blocks_fold.
  - destruct (truthy (text message)); [done | by rewrite append_empty_r].
Qed.

Lemma markdown_message_block `{Runtime} includeMetadata markdown message :
  markdown_message includeMetadata markdown message
  = markdown +:+ markdown_block includeMetadata message.
Proof.
  unfold markdown_block, markdown_message.
  rewrite (markdown_body_acc (markdown +:+ _)), (markdown_body_acc ("" +:+ _)).
  destruct (includeMetadata && truthy (msg_created_at message));
    by rewrite !append_assoc.
Qed.

Lemma concat_empty_cons (x : string) (l : list string) :
  String.concat "" (x :: l) = x +:+ String.concat "" l.
Proof. destruct l; simpl; [by rewrite append_empty_r | done]. Qed.

Lemma markdown_fold_blocks `{Runtime} includeMetadata markdown branch :
  foldl (markdown_message includeMetadata) markdown branch
  = markdown +:+ String.concat "" (markdown_block includeMetadata <$> branch).
Proof.
  revert markdown. induction branch as [|message branch IH]; intros markdown.
  - simpl. by rewrite append_empty_r.
  - rewrite fmap_cons, concat_empty_cons. simpl foldl.
    by rewrite IH, markdown_message_block, append_assoc.
Qed.

Lemma convertToMarkdown_blocks `{Runtime} fuel data includeMetadata branch :
  getCurrentBranch fuel data = Returned branch →
  convertToMarkdown fuel data includeMetadata =
    Returned (markdown_header data includeMetadata
              +:+ String.concat "" (markdown_block includeMetadata <$> branch)).
Proof.
  intros Hbranch. unfold convertToMarkdown. rewrite Hbranch. cbn.
  rewrite markdown_fold_blocks. unfold markdown_header.
  destruct includeMetadata; [by rewrite !append_assoc|].
  by rewrite (append_empty_r nl).
Qed.

(** C10. A message of the branch whose sender is anything but the exact
    string ['human'], a missing sender included, is rendered as the
    assistant: the block that [convertToMarkdown] writes for it opens with
    [**Claude**], and the label of its line in the text of [convertToText]
    is [Assistant] when no earlier message of the branch is from the
    assistant's side and [A] otherwise.  Both renderers return, and no
    renderer throws, whatever the senders. *)
Theorem other_sender_is_assistant `{Runtime} (fuel : nat) (data : Conversation)
    (includeMetadata : bool) (branch : list Message) (i : nat) (message : Message) :
  getCurrentBranch fuel data = Returned branch →
  branch !! i = Some message →
  sender message ≠ Some "human" →
  (convertToMarkdown fuel data includeMetadata =
     Returned (markdown_header data includeMetadata
               +:+ String.concat "" (markdown_block includeMetadata <$> branch)) ∧
   ∃ rest, markdown_block includeMetadata message
           = "**Claude**:" +:+ nl +:+ nl +:+ rest) ∧
  (convertToText fuel data includeMetadata =
     Returned (String_trim (text_header data includeMetadata
                            +:+ lines_of (text_labels branch) branch)) ∧
   text_labels branch !! i =
     Some (if existsb (λ e, negb (is_human e)) (take i branch)
           then "A" else "Assistant")) ∧
  (∀ record e,
     convertToMarkdown fuel record includeMetadata ≠ Thrown e ∧
     convertToText fuel record includeMetadata ≠ Thrown e).
Proof.
  intros Hbranch Hi Hs.
  assert (is_human message = false) as Hh by (by apply bool_decide_eq_false).
  split; [split|split; [split|]].
  - by apply convertToMarkdown_blocks.
  - unfold markdown_block, markdown_message, markdown_sender. rewrite Hh.
    rewrite markdown_body_acc.
    destruct (includeMetadata && truthy (msg_created_at message));
      eexists; rewrite !append_assoc; reflexivity.
  - by apply convertToText_lines.
  - unfold text_labels. rewrite (labels_from_lookup _ _ _ _ _ Hi). simpl.
    unfold senderLabel. by rewrite Hh.
  - intros record e.
    split; [apply convertToMarkdown_no_throw | apply convertToText_no_throw].
Qed.

Lemma other_sender_is_assistant_witness :
  @convertToMarkdown sample_runtime 6 mixed_conversation false =
    Returned (@markdown_header sample_runtime mixed_conversation false
              +:+ String.concat ""
                    (@markdown_block sample_runtime false
                       <$> [m1; m2; m3; system_message; anonymous_message])) ∧
  (∃ rest, @markdown_block sample_runtime false anonymous_message
           = "**Claude**:" +:+ nl +:+ nl +:+ rest) ∧
  text_labels [m1; m2; m3; system_message; anonymous_message] !! 4 = Some "A".
Proof.
  destruct (@other_sender_is_assistant sample_runtime 6 mixed_conversation false
              [m1; m2; m3; system_message; anonymous_message] 4 anonymous_message
              eq_refl eq_refl) as ((Hdocument & Hblock) & (_ & Hlabel) & _);
    [discriminate|].
  split; [exact Hdocument | split; [exact Hblock | exact Hlabel]].
Defined.

(** ** JSON export *)

(** *** Reading back what [JSON.stringify] wrote *)

Lemma json_nested_ind (P : json → Prop) :
  P JNull →
  (∀ s, P (JString s)) →
  (∀ items, Forall P items → P (JArray items)) →
  (∀ fields, Forall (λ p, P p.2) fields → P (JObject fields)) →
  ∀ v, P v.
Proof.
  intros Hnull Hstring Harray Hobject.
  fix go 1. intros [|s|items|fields].
  - exact Hnull.
  - apply Hstring.
  - apply Harray. induction items as [|x items IH]; constructor; [apply go | exact IH].
  - apply Hobject. induction fields as [|[k x] fields IH]; constructor; [apply go | exact IH].
Qed.

Lemma chars_app a b : chars (a +:+ b) = chars a ++ chars b.
Proof. induction a as [|c a IH]; simpl; [done | by rewrite IH]. Qed.

Lemma skip_spaces_blank ws cs : blank ws → skip_spaces (ws ++ cs) = skip_spaces cs.
Proof. induction 1 as [|c ws Hc _ IH]; simpl; [done | by rewrite Hc]. Qed.

Lemma skip_spaces_stop c cs : is_space c = false → skip_spaces (c :: cs) = c :: cs.
Proof. intros Hc. simpl. by rewrite Hc. Qed.

Lemma parse_chars_escape_char c cs :
  parse_chars (chars (escape_char c) ++ cs) =
  '(s, rest) ← parse_chars cs; Some (String c s, rest).
Proof.
  destruct c as [[] [] [] [] [] [] [] []]; reflexivity.
Qed.

Lemma parse_chars_escape s rest :
  parse_chars (chars (escape s) ++ dquote :: rest) = Some (s, rest).
Proof.
  induction s as [|c s IH]; [done|].
  simpl escape. rewrite chars_app, <- app_assoc, parse_chars_escape_char, IH. done.
Qed.

Lemma parse_chars_quote s rest :
  ∃ cs, chars (quote s) ++ rest = dquote :: cs ∧ parse_chars cs = Some (s, rest).
Proof.
  exists (chars (escape s) ++ dquote :: rest). split; [|apply parse_chars_escape].
  unfold quote. change (String dquote (escape s) +:+ String dquote "")
    with (String dquote (escape s +:+ String dquote "")).
  simpl. f_equal. fold (chars (escape s +:+ String dquote "")).
  by rewrite chars_app, <- app_assoc.
Qed.

Lemma print_json_head indent v :
  ∃ c cs, chars (print_json indent v) = c :: cs ∧ opens_value c.
Proof.
  unfold opens_value. destruct v as [|s|[|x items]|[|p fields]]; simpl; eauto 10.
Qed.

Lemma concat_fmap_cons {A} (f : A → string) separator x y l :
  String.concat separator (f <$> (x :: y :: l))
  = f x +:+ separator +:+ String.concat separator (f <$> (y :: l)).
Proof. done. Qed.

Lemma concat_head {A} (f : A → string) (separator : string) x l c cs :
  chars (f x) = c :: cs →
  ∃ cs', chars (String.concat separator (f <$> (x :: l))) = c :: cs'.
Proof.
  intros Hp. destruct l as [|y l]; [simpl; eauto|].
  rewrite concat_fmap_cons, chars_app, Hp. simpl. eauto.
Qed.

Lemma opens_value_not_space c : opens_value c → is_space c = false.
Proof. by intros [->|[->|[->| ->]]]. Qed.

Lemma parse_value_blank fuel ws cs :
  blank ws → parse_value fuel (ws ++ cs) = parse_value fuel cs.
Proof. intros Hws. destruct fuel; [done|]. simpl. by rewrite skip_spaces_blank. Qed.

Lemma parse_value_space fuel c cs :
  is_space c = true → parse_value fuel (c :: cs) = parse_value fuel cs.
Proof. intros Hc. apply (parse_value_blank fuel [c]). by repeat constructor. Qed.

Lemma blank_indent indent : blank (chars indent) → blank (chars (indent +:+ "  ")).
Proof.
  intros H. rewrite chars_app. apply Forall_app. split; [done|].
  by repeat constructor.
Qed.

Lemma blank_line_indent indent :
  blank (chars indent) → blank (Ascii.ascii_of_nat 10 :: chars indent).
Proof. intros H. by constructor. Qed.

Lemma chars_separator inner :
  chars ("," +:+ nl +:+ inner) = ","%char :: Ascii.ascii_of_nat 10 :: chars inner.
Proof. done. Qed.

Lemma skip_spaces_close indent c rest :
  blank (chars indent) → is_space c = false →
  skip_spaces (chars (nl +:+ indent +:+ String c "") ++ rest) = c :: rest.
Proof.
  intros Hindent Hc.
  change (nl +:+ indent +:+ String c "") with (String (Ascii.ascii_of_nat 10) (indent +:+ String c "")).
  change (chars (String ?a ?t)) with (a :: chars t).
  rewrite chars_app, <- app_comm_cons, <- app_assoc.
  change (skip_spaces (?a :: ?t)) with (if is_space a then skip_spaces t else a :: t).
  change (is_space (Ascii.ascii_of_nat 10)) with true. cbv iota.
  rewrite skip_spaces_blank by done. by apply skip_spaces_stop.
Qed.

Section round_trip.
Local Abbreviation value_round_trip := (λ v : json,
  ∀ fuel indent rest,
    weight v ≤ fuel → blank (chars indent) →
    parse_value fuel (chars (print_json indent v) ++ rest) = Some (v, rest)).

Lemma parse_elements_print inner indent rest items x fuel ws :
  blank (chars inner) → blank (chars indent) → blank ws →
  Forall value_round_trip (x :: items) →
  sum_list ((λ x, S (weight x)) <$> (x :: items)) ≤ fuel →
  parse_elements fuel
    (ws ++ chars (String.concat ("," +:+ nl +:+ inner) (print_json inner <$> (x :: items)))
        ++ chars (nl +:+ indent +:+ "]") ++ rest)
  = Some (x :: items, rest).
Proof.
  intros Hinner Hindent. revert x fuel ws.
  induction items as [|y items IH]; intros x fuel ws Hws Hall Hfuel.
  - apply Forall_cons in Hall as [Hx _].
    destruct fuel as [|fuel]; [simpl in Hfuel; lia|].
    cbn [parse_elements fmap list_fmap String.concat].
    rewrite parse_value_blank by done.
    rewrite Hx by (simpl in Hfuel; first [done | lia]).
    cbn [mbind option_bind].
    by rewrite skip_spaces_close.
  - apply Forall_cons in Hall as [Hx Hall].
    destruct fuel as [|fuel]; [simpl in Hfuel; lia|].
    rewrite concat_fmap_cons.
    cbn [parse_elements].
    rewrite parse_value_blank by done.
    rewrite (chars_app (print_json inner x)), (chars_app ("," +:+ nl +:+ inner)).
    rewrite <- !app_assoc.
    rewrite Hx by (simpl in Hfuel; first [done | lia]).
    cbn [mbind option_bind].
    rewrite chars_separator, <- app_comm_cons.
    rewrite skip_spaces_stop by done.
    rewrite bool_decide_eq_true_2 by done.
    rewrite (IH y fuel (Ascii.ascii_of_nat 10 :: chars inner));
      [done | by constructor | done | simpl in *; lia].
Qed.

Lemma parse_members_print inner indent rest fields p fuel ws :
  blank (chars inner) → blank (chars indent) → blank ws →
  Forall (λ p, value_round_trip p.2) (p :: fields) →
  sum_list ((λ p, S (weight p.2)) <$> (p :: fields)) ≤ fuel →
  parse_members fuel
    (ws ++ chars (String.concat ("," +:+ nl +:+ inner)
                    ((λ p, quote p.1 +:+ ": " +:+ print_json inner p.2) <$> (p :: fields)))
        ++ chars (nl +:+ indent +:+ "}") ++ rest)
  = Some (p :: fields, rest).
Proof.
  intros Hinner Hindent. revert p fuel ws.
  induction fields as [|q fields IH]; intros [k x] fuel ws Hws Hall Hfuel.
  - apply Forall_cons in Hall as [Hx _]. cbn [snd] in Hx.
    destruct fuel as [|fuel]; [simpl in Hfuel; lia|].
    cbn [parse_members fmap list_fmap String.concat fst snd].
    rewrite skip_spaces_blank by done.
    rewrite (chars_app (quote k)), <- app_assoc.
    destruct (parse_chars_quote k
                (chars (": " +:+ print_json inner x)
                 ++ chars (nl +:+ indent +:+ "}") ++ rest)) as (cs & -> & Hkey).
    rewrite skip_spaces_stop by done.
    rewrite bool_decide_eq_true_2 by done.
    rewrite Hkey. cbn [mbind option_bind].
    change (chars (": " +:+ ?t)) with (":"%char :: " "%char :: chars t).
    rewrite <- !app_comm_cons.
    rewrite skip_spaces_stop by done.
    rewrite bool_decide_eq_true_2 by done.
    rewrite parse_value_space by done.
    rewrite Hx by (simpl in Hfuel; first [done | lia]).
    cbn [mbind option_bind].
    by rewrite skip_spaces_close.
  - apply Forall_cons in Hall as [Hx Hall]. cbn [snd] in Hx.
    destruct fuel as [|fuel]; [simpl in Hfuel; lia|].
    rewrite concat_fmap_cons.
    cbn [parse_members fst snd].
    rewrite skip_spaces_blank by done.
    rewrite (chars_app (quote k +:+ ": " +:+ print_json inner x)),
      (chars_app (quote k)), (chars_app ("," +:+ nl +:+ inner)).
    rewrite <- !app_assoc.
    destruct (parse_chars_quote k
                (chars (": " +:+ print_json inner x)
                 ++ chars ("," +:+ nl +:+ inner)
                 ++ chars (String.concat ("," +:+ nl +:+ inner)
                      ((λ p, quote p.1 +:+ ": " +:+ print_json inner p.2) <$> (q :: fields)))
                 ++ chars (nl +:+ indent +:+ "}") ++ rest)) as (cs & -> & Hkey).
    rewrite skip_spaces_stop by done.
    rewrite bool_decide_eq_true_2 by done.
    rewrite Hkey. cbn [mbind option_bind].
    change (chars (": " +:+ ?t)) with (":"%char :: " "%char :: chars t).
    rewrite <- !app_comm_cons.
    rewrite skip_spaces_stop by done.
    rewrite bool_decide_eq_true_2 by done.
    rewrite parse_value_space by done.
    rewrite Hx by (simpl in Hfuel; first [done | lia]).
    cbn [mbind option_bind].
    rewrite chars_separator, <- app_comm_cons.
    rewrite skip_spaces_stop by done.
    rewrite bool_decide_eq_true_2 by done.
    rewrite (IH q fuel (Ascii.ascii_of_nat 10 :: chars inner));
      [done | by constructor | done | simpl in *; lia].
Qed.
End round_trip.

Lemma weight_array items :
  weight (JArray items) = S (sum_list ((λ x, S (weight x)) <$> items)).
Proof. done. Qed.

Lemma weight_object fields :
  weight (JObject fields) = S (sum_list ((λ p, S (weight p.2)) <$> fields)).
Proof. done. Qed.

Lemma parse_value_print v fuel indent rest :
  weight v ≤ fuel → blank (chars indent) →
  parse_value fuel (chars (print_json indent v) ++ rest) = Some (v, rest).
Proof.
  revert fuel indent rest.
  induction v as [|s|items IH|fields IH] using json_nested_ind;
    intros fuel indent rest Hfuel Hindent;
    (destruct fuel as [|fuel]; [simpl in Hfuel; lia|]).
  - reflexivity.
  - destruct (parse_chars_quote s rest) as (cs & Hq & Hkey).
    change (print_json indent (JString s)) with (quote s). rewrite Hq.
    cbn [parse_value]. rewrite skip_spaces_stop by done.
    rewrite bool_decide_eq_false_2 by done.
    rewrite bool_decide_eq_true_2 by done.
    by rewrite Hkey.
  - destruct items as [|x items]; [reflexivity|].
    change (print_json indent (JArray (x :: items)))
      with ("[" +:+ nl +:+ (indent +:+ "  ")
            +:+ String.concat ("," +:+ nl +:+ (indent +:+ "  "))
                  (print_json (indent +:+ "  ") <$> (x :: items))
            +:+ nl +:+ indent +:+ "]").
    set (inner := indent +:+ "  ").
    assert (blank (chars inner)) as Hinner by (by apply blank_indent).
    change (chars ("[" +:+ nl +:+ ?t)) with ("["%char :: Ascii.ascii_of_nat 10 :: chars t).
    rewrite (chars_app inner), (chars_app (String.concat _ _)), <- !app_comm_cons, <- !app_assoc.
    cbn [parse_value]. rewrite skip_spaces_stop by done.
    rewrite bool_decide_eq_false_2 by done.
    rewrite bool_decide_eq_false_2 by done.
    rewrite bool_decide_eq_true_2 by done.
    destruct (print_json_head inner x) as (c & cs & Hhead & Hc).
    destruct (concat_head (print_json inner) ("," +:+ nl +:+ inner) x items c cs Hhead)
      as [cs' Hcs'].
    rewrite app_comm_cons, (skip_spaces_blank (_ :: chars inner)) by (by constructor).
    rewrite Hcs', <- app_comm_cons.
    rewrite skip_spaces_stop by (by apply opens_value_not_space).
    rewrite bool_decide_eq_false_2
      by (intros ->; by destruct Hc as [?|[?|[?|?]]]).
    rewrite (app_comm_cons cs'), <- Hcs'.
    rewrite (parse_elements_print inner indent rest items x fuel
               (Ascii.ascii_of_nat 10 :: chars inner));
      [done | done | done | by constructor | done | rewrite ?weight_array, ?weight_object in Hfuel; lia].
  - destruct fields as [|p fields]; [reflexivity|].
    change (print_json indent (JObject (p :: fields)))
      with ("{" +:+ nl +:+ (indent +:+ "  ")
            +:+ String.concat ("," +:+ nl +:+ (indent +:+ "  "))
                  ((λ p, quote p.1 +:+ ": " +:+ print_json (indent +:+ "  ") p.2)
                     <$> (p :: fields))
            +:+ nl +:+ indent +:+ "}").
    set (inner := indent +:+ "  ").
    assert (blank (chars inner)) as Hinner by (by apply blank_indent).
    change (chars ("{" +:+ nl +:+ ?t)) with ("{"%char :: Ascii.ascii_of_nat 10 :: chars t).
    rewrite (chars_app inner), (chars_app (String.concat _ _)), <- !app_comm_cons, <- !app_assoc.
    cbn [parse_value]. rewrite skip_spaces_stop by done.
    rewrite bool_decide_eq_false_2 by done.
    rewrite bool_decide_eq_false_2 by done.
    rewrite bool_decide_eq_false_2 by done.
    rewrite bool_decide_eq_true_2 by done.
    destruct (parse_chars_quote p.1 (chars (": " +:+ print_json inner p.2)))
      as (cs & Hhead & _).
    rewrite <- chars_app in Hhead.
    destruct (concat_head (λ p, quote p.1 +:+ ": " +:+ print_json inner p.2)
                ("," +:+ nl +:+ inner) p fields dquote cs Hhead) as [cs' Hcs'].
    rewrite app_comm_cons, (skip_spaces_blank (_ :: chars inner)) by (by constructor).
    rewrite Hcs', <- app_comm_cons.
    rewrite skip_spaces_stop by done.
    rewrite bool_decide_eq_false_2 by done.
    rewrite (app_comm_cons cs'), <- Hcs'.
    rewrite (parse_members_print inner indent rest fields p fuel
               (Ascii.ascii_of_nat 10 :: chars inner));
      [done | done | done | by constructor | done | rewrite ?weight_array, ?weight_object in Hfuel; lia].
Qed.

Lemma length_chars_app a b :
  length (chars (a +:+ b)) = length (chars a) + length (chars b).
Proof. by rewrite chars_app, length_app. Qed.

Lemma sum_weights_concat {A} (w : A → nat) (f : A → string) separator l :
  0 < length (chars separator) →
  Forall (λ x, w x ≤ length (chars (f x))) l →
  sum_list ((λ x, S (w x)) <$> l) ≤ S (length (chars (String.concat separator (f <$> l)))).
Proof.
  intros Hsep. induction 1 as [|x l Hx Hl IH]; [simpl; lia|].
  destruct l as [|y l].
  - simpl. lia.
  - rewrite concat_fmap_cons, fmap_cons, !length_chars_app.
    change (sum_list (?n :: ?ns)) with (n + sum_list ns). lia.
Qed.

Lemma weight_length v indent : weight v ≤ length (chars (print_json indent v)).
Proof.
  revert indent.
  induction v as [|s|items IH|fields IH] using json_nested_ind; intros indent.
  - simpl. lia.
  - simpl. lia.
  - destruct items as [|x items]; [simpl; lia|].
    change (print_json indent (JArray (x :: items)))
      with ("[" +:+ nl +:+ (indent +:+ "  ")
            +:+ String.concat ("," +:+ nl +:+ (indent +:+ "  "))
                  (print_json (indent +:+ "  ") <$> (x :: items))
            +:+ nl +:+ indent +:+ "]").
    rewrite weight_array, !length_chars_app.
    pose proof (sum_weights_concat weight (print_json (indent +:+ "  "))
                  ("," +:+ nl +:+ (indent +:+ "  ")) (x :: items)) as Hsum.
    rewrite !length_chars_app in Hsum.
    specialize (Hsum ltac:(simpl; lia)).
    eapply Forall_impl in IH; [specialize (Hsum IH)|intros v Hv; apply Hv].
    simpl (length (chars "[")). simpl (length (chars nl)). simpl (length (chars "]")). lia.
  - destruct fields as [|p fields]; [simpl; lia|].
    change (print_json indent (JObject (p :: fields)))
      with ("{" +:+ nl +:+ (indent +:+ "  ")
            +:+ String.concat ("," +:+ nl +:+ (indent +:+ "  "))
                  ((λ p, quote p.1 +:+ ": " +:+ print_json (indent +:+ "  ") p.2)
                     <$> (p :: fields))
            +:+ nl +:+ indent +:+ "}").
    rewrite weight_object, !length_chars_app.
    pose proof (sum_weights_concat (λ p, weight p.2)
                  (λ p, quote p.1 +:+ ": " +:+ print_json (indent +:+ "  ") p.2)
                  ("," +:+ nl +:+ (indent +:+ "  ")) (p :: fields)) as Hsum.
    rewrite !length_chars_app in Hsum.
    specialize (Hsum ltac:(simpl; lia)).
    eapply Forall_impl in IH;
      [specialize (Hsum IH)
      |intros q Hq; cbv beta; rewrite !length_chars_app; specialize (Hq (indent +:+ "  ")); lia].
    simpl (length (chars "{")). simpl (length (chars nl)). simpl (length (chars "}")). lia.
Qed.

Lemma parse_json_print v : parse_json (print_json "" v) = Some v.
Proof.
  unfold parse_json. fold (chars (print_json "" v)).
  rewrite <- (app_nil_r (chars (print_json "" v))) at 2.
  rewrite parse_value_print; [done | apply weight_length | constructor].
Qed.


Lemma mapM_decode {A} (encode : A → json) (decode : json → option A) l :
  (∀ x, decode (encode x) = Some x) → mapM decode (encode <$> l) = Some l.
Proof.
  intros Hx. induction l as [|x l IH]; [done|].
  rewrite fmap_cons. cbn [mapM]. rewrite Hx. cbn. rewrite IH. done.
Qed.

Lemma block_of_json_of_block c : block_of_json (json_of_block c) = Some c.
Proof. by destruct c as [[s|]]. Qed.

Lemma message_of_json_of_message msg : message_of_json (json_of_message msg) = Some msg.
Proof.
  destruct msg as [u p s c t d]. unfold message_of_json, json_of_message.
  cbn [uuid parent_message_uuid sender content text msg_created_at].
  assert (get_array block_of_json "content"
            (JObject [("uuid", JString u); ("parent_message_uuid", json_of_option p);
                      ("sender", json_of_option s);
                      ("content", json_of_list json_of_block c);
                      ("text", json_of_option t); ("created_at", json_of_option d)])
          = Some c) as ->.
  { destruct c as [blocks|]; [|done].
    change (Some <$> mapM block_of_json (json_of_block <$> blocks) = Some (Some blocks)).
    by rewrite (mapM_decode _ _ _ block_of_json_of_block). }
  by destruct p, s, t, d.
Qed.

Lemma conversation_of_json_of_conversation data :
  conversation_of_json (json_of_conversation data) = Some data.
Proof.
  destruct data as [u n s m c d msgs leaf].
  unfold conversation_of_json, json_of_conversation.
  cbn [conv_uuid name summary model created_at updated_at chat_messages
       current_leaf_message_uuid].
  assert (get_array message_of_json "chat_messages"
            (JObject [("uuid", JString u); ("name", json_of_option n);
                      ("summary", json_of_option s); ("model", json_of_option m);
                      ("created_at", json_of_option c); ("updated_at", json_of_option d);
                      ("chat_messages", json_of_list json_of_message msgs);
                      ("current_leaf_message_uuid", json_of_option leaf)])
          = Some msgs) as ->.
  { destruct msgs as [msgs|]; [|done].
    change (Some <$> mapM message_of_json (json_of_message <$> msgs) = Some (Some msgs)).
    by rewrite (mapM_decode _ _ _ message_of_json_of_message). }
  by destruct n, s, m, c, d, leaf.
Qed.

Lemma parse_conversation_stringify data : parse_conversation (stringify_conversation data) = Some data.
Proof.
  unfold parse_conversation, stringify_conversation.
  rewrite parse_json_print. apply conversation_of_json_of_conversation.
Qed.

Lemma set_model_same data mdl : same_except_model (set_model data mdl) data.
Proof. by repeat split. Qed.

(** C6. Exporting a record with the JSON encoding and parsing the
    downloaded text gives the record back with its [model] field set to the
    inferred model and every other field as it was. *)
Theorem json_export_round_trip (RT : Runtime) (fuel : nat)
    (fetch : string → string → response) (request : ExportRequest)
    (record : Conversation) :
  fetchConversation (fetch (req_orgId request) (req_conversationId request))
    = Returned record →
  req_format request ≠ "markdown" →
  req_format request ≠ "text" →
  ∃ d parsed,
    @exportConversation_handler (with_JSON RT) fuel fetch request = Returned d ∧
    @JSON_parse (with_JSON RT) (dl_content d) = Some parsed ∧
    parsed = set_model record (@inferModel RT record) ∧
    model parsed = Some (@inferModel RT record) ∧
    same_except_model parsed record.
Proof.
  intros Hfetch Hmd Htxt.
  exists {| dl_content := stringify_conversation (set_model record (@inferModel RT record));
            dl_filename := "claude-conversation-"
                           +:+ or_else (name record) (req_conversationId request) +:+ ".json";
            dl_type := "application/json" |},
         (set_model record (@inferModel RT record)).
  split; [|split; [|split; [done|split; [done|apply set_model_same]]]].
  - unfold exportConversation_handler. rewrite Hfetch. cbn.
    by rewrite !bool_decide_eq_false_2.
  - apply parse_conversation_stringify.
Qed.

Lemma json_export_round_trip_witness :
  ∃ d parsed,
    @exportConversation_handler (with_JSON sample_runtime) 0 sample_fetch sample_request
      = Returned d ∧
    @JSON_parse (with_JSON sample_runtime) (dl_content d) = Some parsed ∧
    parsed = set_model sample_conversation "claude-3-5-sonnet-20240620" ∧
    model parsed = Some "claude-3-5-sonnet-20240620" ∧
    same_except_model parsed sample_conversation.
Proof.
  apply (json_export_round_trip sample_runtime 0 sample_fetch sample_request
           sample_conversation); [reflexivity | discriminate | discriminate].
Defined.

(** ** File names *)

Lemma invalid_filename_char_spec c :
  invalid_filename_char c = true ↔ c ∈ illegal_characters.
Proof.
  unfold invalid_filename_char. rewrite bool_decide_eq_true. split.
  - intros Hin.
    rewrite <- (Ascii.ascii_nat_embedding c).
    repeat (apply elem_of_cons in Hin as [->|Hin]; [by vm_compute; repeat constructor|]).
    by apply elem_of_nil in Hin.
  - intros Hin.
    repeat (apply elem_of_cons in Hin as [->|Hin]; [by vm_compute; repeat constructor|]).
    by apply elem_of_nil in Hin.
Qed.

Lemma replace_invalid_length s : String.length (replace_invalid s) = String.length s.
Proof. induction s as [|c s IH]; simpl; [done | by rewrite IH]. Qed.

Lemma replace_invalid_get s i c :
  String.get i s = Some c →
  String.get i (replace_invalid s) =
  Some (if bool_decide (c ∈ illegal_characters) then "_"%char else c).
Proof.
  revert i. induction s as [|c' s IH]; intros i; [done|].
  destruct i as [|i]; simpl.
  - intros [= ->]. f_equal.
    destruct (invalid_filename_char c) eqn:E.
    + apply invalid_filename_char_spec in E. by rewrite bool_decide_eq_true_2.
    + rewrite bool_decide_eq_false_2; [done|].
      rewrite <- invalid_filename_char_spec. congruence.
  - apply IH.
Qed.

Lemma handler_filename `{Runtime} fuel fetch request d :
  exportConversation_handler fuel fetch request = Returned d →
  ∃ data,
    fetchConversation (fetch (req_orgId request) (req_conversationId request))
      = Returned data ∧
    dl_filename d =
      "claude-conversation-" +:+ or_else (name data) (req_conversationId request)
      +:+ extension (req_format request).
Proof.
  unfold exportConversation_handler, extension.
  destruct (fetchConversation _) as [data| |]; cbn; [|done..].
  intros Hd. exists data. split; [done|].
  repeat case_bool_decide.
  - destruct (convertToMarkdown _ _ _); cbn in Hd; [|done..]. by injection Hd as <-.
  - destruct (convertToText _ _ _); cbn in Hd; [|done..]. by injection Hd as <-.
  - by injection Hd as <-.
Qed.

Lemma exportConversation_filename `{Runtime} fuel fetch orgId format
    includeMetadata conversationId conversationName d :
  exportConversation fuel fetch orgId format includeMetadata
    conversationId conversationName = Returned d →
  dl_filename d =
    "claude-" +:+ or_else conversationName conversationId +:+ extension format.
Proof.
  unfold exportConversation, utils.convertToMarkdown, utils.convertToText, extension.
  destruct (fetchConversation _) as [data| |]; cbn; [|done..].
  intros Hd. repeat case_bool_decide.
  - destruct (convertToMarkdown _ _ _); cbn in Hd; [|done..]. by injection Hd as <-.
  - destruct (convertToText _ _ _); cbn in Hd; [|done..]. by injection Hd as <-.
  - by injection Hd as <-.
Qed.

Lemma export_document_filename `{Runtime} fuel fetch orgId format includeMetadata
    conv filename content :
  export_document fuel fetch orgId format includeMetadata conv
    = Returned (filename, content) →
  ∃ n, name conv = Some n ∧ filename = replace_invalid n +:+ extension format.
Proof.
  unfold export_document, utils.convertToMarkdown, utils.convertToText, extension.
  destruct (match fetch orgId (conv_uuid conv) with
            | NetworkFailure e => Thrown e
            | HttpResponse ok status body => _
            end) as [data| |]; cbn; [|done..].
  destruct (name conv) as [n|]; cbn; [|done].
  intros Hd. exists n. split; [done|]. repeat case_bool_decide.
  - destruct (convertToMarkdown _ _ _); cbn in Hd; [|done..]. by injection Hd as <- _.
  - destruct (convertToText _ _ _); cbn in Hd; [|done..]. by injection Hd as <- _.
  - by injection Hd as <- _.
Qed.

Lemma exportAllFiltered_archive `{Runtime} fuel rounds w orgId format includeMetadata
    convs archive st :
  exportAllFiltered fuel rounds w orgId format includeMetadata convs
    = Returned (ExportArchive archive, st) →
  ∃ st0,
    export_loop fuel rounds w orgId format includeMetadata convs 0 initial_state
      = Returned st0 ∧
    cancelExport st0 = false ∧
    st = observe_click (click w InZip) st0 ∧
    archive = <["export_summary.json" :=
                 JSON_stringify_summary
                   (make_summary (length convs) st0 format includeMetadata)]> (zip st0).
Proof.
  unfold exportAllFiltered.
  destruct (export_loop _ _ _ _ _ _ _ _ _) as [st0| |]; cbn; [|done..].
  destruct (cancelExport st0) eqn:Hc; cbn; [done|].
  intros [= <- <-]. by exists st0.
Qed.

(** C8, as the code has it.  The content script names a single export
    [claude-conversation-<name-or-id>.<ext>] and the browse page names it
    [claude-<name-or-id>.<ext>]; a batch export files each document under the
    conversation name with every character among the nine illegal ones
    replaced by an underscore, followed by the extension; and the summary of
    a completed batch is filed under [export_summary.json]. *)
Theorem export_file_names `{Runtime} :
  (∀ fuel fetch request d,
     exportConversation_handler fuel fetch request = Returned d →
     ∃ data,
       fetchConversation (fetch (req_orgId request) (req_conversationId request))
         = Returned data ∧
       dl_filename d =
         "claude-conversation-" +:+ or_else (name data) (req_conversationId request)
         +:+ extension (req_format request)) ∧
  (∀ fuel fetch orgId format includeMetadata conversationId conversationName d,
     exportConversation fuel fetch orgId format includeMetadata
       conversationId conversationName = Returned d →
     dl_filename d =
       "claude-" +:+ or_else conversationName conversationId +:+ extension format) ∧
  (∀ fuel fetch orgId format includeMetadata conv filename content,
     export_document fuel fetch orgId format includeMetadata conv
       = Returned (filename, content) →
     ∃ n, name conv = Some n ∧ filename = replace_invalid n +:+ extension format) ∧
  (∀ s,
     String.length (replace_invalid s) = String.length s ∧
     ∀ i c, String.get i s = Some c →
            String.get i (replace_invalid s) =
            Some (if bool_decide (c ∈ illegal_characters) then "_"%char else c)) ∧
  (∀ fuel rounds w orgId format includeMetadata convs archive st,
     exportAllFiltered fuel rounds w orgId format includeMetadata convs
       = Returned (ExportArchive archive, st) →
     is_Some (archive !! "export_summary.json")).
Proof.
  split; [apply @handler_filename|].
  split; [apply @exportConversation_filename|].
  split; [apply @export_document_filename|].
  split.
  - intros s. split; [apply replace_invalid_length | apply replace_invalid_get].
  - intros fuel rounds w orgId format includeMetadata convs archive st Hrun.
    apply exportAllFiltered_archive in Hrun as (st0 & _ & _ & _ & ->).
    rewrite lookup_insert_eq. eauto.
Qed.

Lemma export_file_names_witness :
  ∃ d, @exportConversation_handler sample_runtime 0 sample_fetch sample_request = Returned d ∧
       dl_filename d = "claude-conversation-Greeting.json".
Proof.
  eexists. split; [reflexivity|].
  destruct (@export_file_names sample_runtime) as (Hhandler & _).
  destruct (Hhandler 0 sample_fetch sample_request _ eq_refl) as (data & Hdata & ->).
  injection Hdata as <-. reflexivity.
Defined.

(** C8 as stated fails on the content script: its single export is not
    named [claude-<name-or-id>.<ext>]. *)
Lemma single_export_name_counterexample :
  ¬ (∀ (RT : Runtime) fuel fetch request d,
       exportConversation_handler fuel fetch request = Returned d →
       ∃ data,
         fetchConversation (fetch (req_orgId request) (req_conversationId request))
           = Returned data ∧
         dl_filename d =
           "claude-" +:+ or_else (name data) (req_conversationId request)
           +:+ extension (req_format request)).
Proof.
  intros Hclaim.
  destruct (Hclaim sample_runtime 0 sample_fetch sample_request _ eq_refl)
    as (data & Hdata & Hname).
  injection Hdata as <-. vm_compute in Hname. discriminate.
Qed.

(** ** Batch export *)

Section batch.
Context `{RT : Runtime} (fuel : nat) (w : World) (orgId format : string)
        (includeMetadata : bool).

Local Abbreviation doc := (export_document fuel (fetch w) orgId format includeMetadata).
Local Abbreviation fails := (λ c, export_fails fuel (fetch w) orgId format includeMetadata c = true).
Local Abbreviation succeeds :=
  (λ c, export_succeeds fuel (fetch w) orgId format includeMetadata c = true).
Local Abbreviation file := (file_document fuel (fetch w) orgId format includeMetadata).
Local Abbreviation settled := (settled_from fuel (fetch w) orgId format includeMetadata).

Lemma settled_from_nil st : settled st [] st.
Proof.
  unfold settled_from. simpl. rewrite !Nat.add_0_r, app_nil_r. done.
Qed.

Lemma settled_from_app st1 st2 st3 o1 o2 :
  settled st1 o1 st2 → settled st2 o2 st3 → settled st1 (o1 ++ o2) st3.
Proof.
  unfold settled_from. intros (Hc1 & Hf1 & Hn1 & Hz1) (Hc2 & Hf2 & Hn2 & Hz2).
  rewrite !filter_app, !length_app, fmap_app, foldl_app.
  rewrite Hc2, Hc1, Hf2, Hf1, Hn2, Hn1, Hz2, Hz1.
  rewrite <- !app_assoc. repeat split; lia.
Qed.

(** One callback: a failure is caught and counted, a success is filed and
    counted; nothing else changes. *)
Lemma export_one_settled st conv :
  doc conv ≠ OutOfFuel →
  ∃ st', export_one fuel (fetch w) orgId format includeMetadata st conv = Returned st' ∧
         settled st [conv] st' ∧
         requested st' = requested st ∧ cancelExport st' = cancelExport st.
Proof.
  intros Hfuel. unfold export_one, settled_from, file_document. simpl.
  destruct (doc conv) as [[filename content]|e|] eqn:Hdoc; [| |done].
  - assert (succeeds conv) as Hs by (unfold export_succeeds; by rewrite Hdoc).
    assert (¬ fails conv) as Hf by (unfold export_fails; by rewrite Hdoc).
    eexists. split; [done|]. simpl.
    rewrite (filter_cons_True _ _ _ Hs), (filter_cons_False _ _ _ Hf), !filter_nil.
    simpl. rewrite app_nil_r. repeat split; lia.
  - assert (¬ succeeds conv) as Hs by (unfold export_succeeds; by rewrite Hdoc).
    assert (fails conv) as Hf by (unfold export_fails; by rewrite Hdoc).
    eexists. split; [done|]. simpl.
    rewrite (filter_cons_False _ _ _ Hs), (filter_cons_True _ _ _ Hf), !filter_nil.
    simpl. repeat split; lia.
Qed.

Lemma settle_all_settled st order :
  (∀ c, c ∈ order → doc c ≠ OutOfFuel) →
  ∃ st', settle_all fuel (fetch w) orgId format includeMetadata st order = Returned st' ∧
         settled st order st' ∧
         requested st' = requested st ∧ cancelExport st' = cancelExport st.
Proof.
  revert st. induction order as [|conv order IH]; intros st Hfuel.
  - exists st. split; [done|]. split; [apply settled_from_nil | done].
  - destruct (export_one_settled st conv) as (st1 & Hrun1 & Hset1 & Hreq1 & Hc1).
    { apply Hfuel. by left. }
    destruct (IH st1) as (st2 & Hrun2 & Hset2 & Hreq2 & Hc2).
    { intros c Hc. apply Hfuel. by right. }
    exists st2. simpl. rewrite Hrun1. cbn. rewrite Hrun2.
    split; [done|]. split; [|split; congruence].
    by apply (settled_from_app st st1 st2 [conv] order).
Qed.

Lemma between_batches_fields total i st :
  zip (between_batches w total i st) = zip st ∧
  completed (between_batches w total i st) = completed st ∧
  failed (between_batches w total i st) = failed st ∧
  failedConversations (between_batches w total i st) = failedConversations st ∧
  requested (between_batches w total i st) = requested st.
Proof. unfold between_batches. by destruct (_ && _). Qed.

Lemma between_batches_settled total i st order st' :
  settled (between_batches w total i st) order st' ↔ settled st order st'.
Proof.
  unfold settled_from.
  destruct (between_batches_fields total i st) as (-> & -> & -> & -> & _). done.
Qed.

Lemma between_batches_quiet total i st :
  click w (InBatch i) = false → click w (InPause i) = false →
  cancelExport st = false →
  cancelExport (between_batches w total i st) = false.
Proof.
  intros Hb Hp Hc. unfold between_batches. rewrite Hb, Hp.
  destruct (_ && _); simpl; by rewrite Hc.
Qed.

Lemma between_batches_cancel total i st :
  click w (InBatch i) = true ∨ (click w (InPause i) = true ∧ i + batchSize < total) →
  cancelExport (between_batches w total i st) = true.
Proof.
  unfold between_batches. intros [Hb|[Hp Hlt]].
  - rewrite Hb. destruct (_ && _); simpl; by rewrite orb_true_r.
  - rewrite Hp, bool_decide_eq_true_2 by done. simpl.
    destruct (cancelExport st || click w (InBatch i)) eqn:E; simpl; [done|].
    by rewrite orb_true_r.
Qed.

Lemma slice_nil {A} (l : list A) i : slice l i i = [].
Proof. unfold slice. by rewrite Nat.sub_diag. Qed.

Lemma slice_split {A} (l : list A) i j k :
  i ≤ j → j ≤ k → slice l i k = slice l i j ++ slice l j k.
Proof.
  intros Hij Hjk. unfold slice.
  replace (k - i) with ((j - i) + (k - j)) by lia.
  rewrite <- take_take_drop, drop_drop. do 3 f_equal. lia.
Qed.

Lemma slice_all {A} (l : list A) : slice l 0 (length l) = l.
Proof. unfold slice. rewrite Nat.sub_0_r. simpl. apply firstn_all. Qed.

Lemma slice_beyond {A} (l : list A) i k :
  length l ≤ i → slice l i k = [].
Proof. intros Hi. unfold slice. rewrite drop_ge by done. apply take_nil. Qed.

Context (convs : list Conversation).

Local Abbreviation total := (length convs).
Local Abbreviation batch_at := (λ i, slice convs i (Nat.min (i + batchSize) total)).

Lemma export_loop_exit rounds i st :
  total ≤ i → export_loop fuel rounds w orgId format includeMetadata convs i st = Returned st.
Proof.
  intros Hi. destruct rounds; simpl; by rewrite bool_decide_eq_false_2 by lia.
Qed.

Lemma export_loop_break rounds i st :
  cancelExport st = true → total ≤ i + rounds * batchSize →
  export_loop fuel rounds w orgId format includeMetadata convs i st = Returned st.
Proof.
  intros Hc Hrounds. destruct (decide (i < total)) as [Hi|Hi].
  - destruct rounds as [|rounds]; [simpl in Hrounds; lia|].
    simpl. by rewrite bool_decide_eq_true_2, Hc by done.
  - apply export_loop_exit. lia.
Qed.

(** One iteration: the requests of the batch are issued, every callback
    settles, and the loop goes on from the next index. *)
Lemma export_loop_step rounds i st :
  i < total → cancelExport st = false →
  fair_schedule w →
  (∀ c, c ∈ convs → doc c ≠ OutOfFuel) →
  ∃ st1 order,
    order ≡ₚ batch_at i ∧
    settled st order st1 ∧
    requested st1 = requested st ++ (conv_uuid <$> batch_at i) ∧
    cancelExport st1 = false ∧
    export_loop fuel (S rounds) w orgId format includeMetadata convs i st =
    export_loop fuel rounds w orgId format includeMetadata convs (i + batchSize)
      (between_batches w total i st1).
Proof.
  intros Hi Hc Hfair Hfuel.
  destruct (settle_all_settled (issue_requests st (batch_at i))
              (settle_order w i (batch_at i))) as (st1 & Hrun & Hset & Hreq & Hc1).
  { intros c Hin. apply Hfuel. rewrite (Hfair i (batch_at i)) in Hin.
    unfold slice in Hin. by apply subseteq_take, subseteq_drop in Hin. }
  exists st1, (settle_order w i (batch_at i)).
  split; [apply Hfair|]. split; [exact Hset|]. split; [exact Hreq|].
  split; [by rewrite Hc1|].
  simpl. rewrite bool_decide_eq_true_2, Hc by done. by rewrite Hrun.
Qed.

Lemma between_batches_settled_r total' i st order st' :
  settled st order (between_batches w total' i st') ↔ settled st order st'.
Proof.
  unfold settled_from.
  destruct (between_batches_fields total' i st') as (-> & -> & -> & -> & _). done.
Qed.

Lemma slice_batch_rest i k :
  i + batchSize ≤ k ∨ total ≤ k →
  slice convs i (Nat.min k total) =
  batch_at i ++ slice convs (i + batchSize) (Nat.min k total).
Proof.
  intros Hk. destruct (decide (i + batchSize ≤ total)) as [Hle|Hgt].
  - rewrite (Nat.min_l (i + batchSize)) by done.
    apply slice_split; lia.
  - rewrite (Nat.min_r (i + batchSize)) by lia.
    rewrite (Nat.min_r k) by lia.
    rewrite (slice_beyond convs (i + batchSize)) by lia. by rewrite app_nil_r.
Qed.

(** Without a cancellation the loop goes through every batch. *)
Lemma export_loop_completes rounds i st :
  never_cancelled w → fair_schedule w →
  rendering_terminates fuel w orgId format includeMetadata convs →
  cancelExport st = false →
  total ≤ i + rounds * batchSize →
  ∃ st' order,
    export_loop fuel rounds w orgId format includeMetadata convs i st = Returned st' ∧
    order ≡ₚ slice convs i total ∧
    settled st order st' ∧
    requested st' = requested st ++ (conv_uuid <$> slice convs i total) ∧
    cancelExport st' = false.
Proof.
  intros Hquiet Hfair Hfuel. revert i st.
  induction rounds as [|rounds IH]; intros i st Hc Hrounds.
  - exists st, []. rewrite export_loop_exit, slice_beyond by (simpl in Hrounds; lia).
    simpl. rewrite app_nil_r.
    split; [done|]. split; [done|]. split; [apply settled_from_nil | done].
  - destruct (decide (i < total)) as [Hi|Hi].
    + destruct (export_loop_step rounds i st Hi Hc Hfair Hfuel)
        as (st1 & order1 & Hperm1 & Hset1 & Hreq1 & Hc1 & ->).
      destruct (Hquiet i) as [Hb Hp].
      destruct (IH (i + batchSize) (between_batches w total i st1))
        as (st' & order2 & -> & Hperm2 & Hset2 & Hreq2 & Hc2).
      { by apply between_batches_quiet. }
      { lia. }
      exists st', (order1 ++ order2).
      pose proof (slice_batch_rest i total ltac:(lia)) as Hsplit.
      rewrite Nat.min_id in Hsplit.
      split; [done|]. split; [by rewrite Hsplit, Hperm1, Hperm2|].
      split; [|split; [|done]].
      * eapply settled_from_app; [exact Hset1|].
        by apply between_batches_settled in Hset2.
      * rewrite Hreq2, Hsplit, fmap_app, app_assoc.
        destruct (between_batches_fields total i st1) as (_ & _ & _ & _ & ->).
        by rewrite Hreq1.
    + exists st, []. rewrite export_loop_exit, slice_beyond by lia.
      simpl. rewrite app_nil_r.
    split; [done|]. split; [done|]. split; [apply settled_from_nil | done].
Qed.

(** When the first click falls in the batch at index [i + k * batchSize]
    or in the pause after it, the loop stops right after that batch. *)
Lemma export_loop_cancelled k rounds i st :
  fair_schedule w →
  rendering_terminates fuel w orgId format includeMetadata convs →
  cancelExport st = false →
  i + k * batchSize < total →
  (∀ j, i ≤ j < i + k * batchSize →
        click w (InBatch j) = false ∧ click w (InPause j) = false) →
  (click w (InBatch (i + k * batchSize)) = true ∨
   (click w (InPause (i + k * batchSize)) = true ∧
    i + k * batchSize + batchSize < total)) →
  total ≤ i + rounds * batchSize →
  ∃ st' order,
    export_loop fuel rounds w orgId format includeMetadata convs i st = Returned st' ∧
    order ≡ₚ slice convs i (Nat.min (i + k * batchSize + batchSize) total) ∧
    settled st order st' ∧
    requested st' = requested st
      ++ (conv_uuid <$> slice convs i (Nat.min (i + k * batchSize + batchSize) total)) ∧
    cancelExport st' = true.
Proof.
  intros Hfair Hfuel. revert rounds i st.
  induction k as [|k IH]; intros rounds i st Hc Hlt Hquiet Hclick Hrounds.
  - simpl in *. rewrite Nat.add_0_r in *.
    destruct rounds as [|rounds]; [simpl in Hrounds; lia|].
    destruct (export_loop_step rounds i st Hlt Hc Hfair Hfuel)
      as (st1 & order1 & Hperm1 & Hset1 & Hreq1 & Hc1 & ->).
    exists (between_batches w total i st1), order1.
    split; [|split; [done|split; [|split]]].
    + apply export_loop_break; [by apply between_batches_cancel | lia].
    + by apply between_batches_settled_r.
    + by destruct (between_batches_fields total i st1) as (_ & _ & _ & _ & ->).
    + by apply between_batches_cancel.
  - assert (i < total) as Hi by lia.
    destruct rounds as [|rounds]; [simpl in Hrounds; lia|].
    destruct (export_loop_step rounds i st Hi Hc Hfair Hfuel)
      as (st1 & order1 & Hperm1 & Hset1 & Hreq1 & Hc1 & ->).
    destruct (Hquiet i) as [Hb Hp]; [simpl; lia|].
    replace (i + S k * batchSize) with (i + batchSize + k * batchSize) in * by lia.
    destruct (IH rounds (i + batchSize) (between_batches w total i st1))
      as (st' & order2 & -> & Hperm2 & Hset2 & Hreq2 & Hc2);
      [by apply between_batches_quiet | lia | | done | lia |].
    { intros j Hj. apply Hquiet. lia. }
    exists st', (order1 ++ order2).
    pose proof (slice_batch_rest i (i + batchSize + k * batchSize + batchSize)
                  ltac:(lia)) as Hsplit.
    split; [done|]. split; [by rewrite Hsplit, Hperm1, Hperm2|].
    split; [|split; [|done]].
    + eapply settled_from_app; [exact Hset1|].
      by apply between_batches_settled in Hset2.
    + rewrite Hreq2, Hsplit, fmap_app, app_assoc.
      destruct (between_batches_fields total i st1) as (_ & _ & _ & _ & ->).
      by rewrite Hreq1.
Qed.

(** The archive after the documents of [order] have been filed. *)
Lemma foldl_file_lookup z order filename content :
  foldl file z order !! filename = Some content →
  z !! filename = Some content ∨
  ∃ c, c ∈ order ∧ doc c = Returned (filename, content).
Proof.
  induction order as [|c0 order IH] using rev_ind; [by left|].
  rewrite foldl_app. simpl. unfold file_document at 1.
  destruct (doc c0) as [[f0 k0]| |] eqn:Hdoc.
  - destruct (decide (f0 = filename)) as [->|Hne].
    + rewrite lookup_insert_eq. intros [= ->]. right. exists c0.
      split; [|done]. apply elem_of_app. right. by apply list_elem_of_singleton.
    + rewrite lookup_insert_ne by done.
      intros [?|(c & Hc & ?)]%IH; [by left|]. right. exists c.
      split; [|done]. apply elem_of_app. by left.
  - intros [?|(c & Hc & ?)]%IH; [by left|]. right. exists c.
    split; [|done]. apply elem_of_app. by left.
  - intros [?|(c & Hc & ?)]%IH; [by left|]. right. exists c.
    split; [|done]. apply elem_of_app. by left.
Qed.

Lemma foldl_file_keeps z order c filename content :
  c ∈ order →
  doc c = Returned (filename, content) →
  (∀ c' content', c' ∈ order → doc c' = Returned (filename, content') →
                  content' = content) →
  foldl file z order !! filename = Some content.
Proof.
  induction order as [|c0 order IH] using rev_ind; [by intros ?%elem_of_nil|].
  intros Hin Hdoc Hsame. rewrite foldl_app. simpl. unfold file_document at 1.
  assert (c0 ∈ order ++ [c0]) as Hin0.
  { apply elem_of_app. right. by apply list_elem_of_singleton. }
  assert (c ≠ c0 → foldl file z order !! filename = Some content) as Hrest.
  { intros Hne. apply IH; [|done|].
    - apply elem_of_app in Hin as [?|Hc%list_elem_of_singleton]; done.
    - intros c' content' Hc'. apply Hsame, elem_of_app. by left. }
  destruct (doc c0) as [[f0 k0]| |] eqn:Hdoc0.
  - destruct (decide (f0 = filename)) as [->|Hne].
    + rewrite lookup_insert_eq. f_equal. by apply (Hsame c0).
    + rewrite lookup_insert_ne by done. apply Hrest. intros ->. congruence.
  - apply Hrest. intros ->. congruence.
  - apply Hrest. intros ->. congruence.
Qed.

Lemma succeeds_or_fails (l : list Conversation) :
  (∀ c, c ∈ l → doc c ≠ OutOfFuel) →
  length (filter succeeds l) + length (filter fails l) = length l.
Proof.
  induction l as [|c l IH]; intros Hfuel; [done|].
  specialize (IH (λ c' Hc', Hfuel c' (list_elem_of_further _ _ _ Hc'))).
  pose proof (Hfuel c (list_elem_of_here _ _)) as Hc.
  destruct (doc c) as [?| |] eqn:Hdoc; [| |done].
  - assert (succeeds c) as Hs by (unfold export_succeeds; by rewrite Hdoc).
    assert (¬ fails c) as Hf by (unfold export_fails; by rewrite Hdoc).
    rewrite (filter_cons_True _ _ _ Hs), (filter_cons_False _ _ _ Hf). simpl. lia.
  - assert (¬ succeeds c) as Hs by (unfold export_succeeds; by rewrite Hdoc).
    assert (fails c) as Hf by (unfold export_fails; by rewrite Hdoc).
    rewrite (filter_cons_False _ _ _ Hs), (filter_cons_True _ _ _ Hf). simpl. lia.
Qed.

(** C4, as the code has it.  In a batch export that is not cancelled, a
    conversation whose fetch or rendering fails is caught: the failure
    counter goes up and its name joins the failure list, and the job goes
    on.  Every input conversation is attempted, and the job ends with an
    archive whose [export_summary.json] records the totals and the failed
    names.  Every other entry of the archive is the document of a
    successful conversation, and the document of a successful conversation
    is in the archive under its file name unless another successful
    conversation of the job, or the summary, took that name. *)
Theorem batch_export_isolates_failures (rounds : nat) :
  never_cancelled w →
  fair_schedule w →
  rendering_terminates fuel w orgId format includeMetadata convs →
  length convs ≤ rounds * batchSize →
  ∃ archive st,
    exportAllFiltered fuel rounds w orgId format includeMetadata convs
      = Returned (ExportArchive archive, st) ∧
    requested st = conv_uuid <$> convs ∧
    completed st = length (filter succeeds convs) ∧
    failed st = length (filter fails convs) ∧
    completed st + failed st = length convs ∧
    failedConversations st ≡ₚ name <$> filter fails convs ∧
    archive !! "export_summary.json" =
      Some (JSON_stringify_summary
              {| export_date := Date_now_ISO;
                 total_conversations := length convs;
                 successful_exports := completed st;
                 failed_exports := failed st;
                 failed_conversations := failedConversations st;
                 summary_format := format;
                 include_metadata := includeMetadata |}) ∧
    (∀ filename content,
       archive !! filename = Some content →
       filename ≠ "export_summary.json" →
       ∃ c, c ∈ convs ∧ doc c = Returned (filename, content)) ∧
    (∀ c filename content,
       c ∈ convs →
       doc c = Returned (filename, content) →
       filename ≠ "export_summary.json" →
       (∀ c' content', c' ∈ convs → doc c' = Returned (filename, content') →
                       content' = content) →
       archive !! filename = Some content).
Proof.
  intros Hquiet Hfair Hfuel Hrounds.
  destruct (export_loop_completes rounds 0 initial_state Hquiet Hfair Hfuel eq_refl)
    as (st0 & order & Hrun & Hperm & (Hcompleted & Hfailed & Hnames & Hzip) & Hreq & Hc);
    [simpl; lia|].
  rewrite slice_all in Hperm, Hreq. simpl in *.
  eexists _, (observe_click (click w InZip) st0).
  unfold exportAllFiltered. rewrite Hrun. cbn. rewrite Hc. cbn.
  split; [reflexivity|]. simpl.
  assert (length (filter succeeds order) = length (filter succeeds convs)) as Hs
    by (by rewrite Hperm).
  assert (length (filter fails order) = length (filter fails convs)) as Hf
    by (by rewrite Hperm).
  split; [done|]. split; [congruence|]. split; [congruence|].
  split; [rewrite Hcompleted, Hfailed, Hs, Hf; by apply succeeds_or_fails|].
  split; [rewrite Hnames; by rewrite Hperm|].
  split; [|split].
  - by rewrite lookup_insert_eq.
  - intros filename content Hlook Hne.
    rewrite lookup_insert_ne, Hzip in Hlook by done.
    apply foldl_file_lookup in Hlook as [Hempty|(c & Hin & Hdoc)].
    + by rewrite lookup_empty in Hempty.
    + exists c. by rewrite <- Hperm.
  - intros c filename content Hin Hdoc Hne Hsame.
    rewrite lookup_insert_ne, Hzip by done.
    apply (foldl_file_keeps _ _ c); [by rewrite Hperm | done |].
    intros c' content' Hin'. apply Hsame. by rewrite <- Hperm.
Qed.

(** C5, as the code has it.  The cancellation flag is tested at the start
    of each batch and once after the last.  When it is first set while the
    batch at index [i] is in flight, or during the pause after it, that
    batch settles completely, no request of a later batch is issued, and
    the job ends without an archive: what was rendered is dropped. *)
Theorem batch_export_cancellation (rounds i : nat) :
  cancelled_at w (length convs) i →
  fair_schedule w →
  rendering_terminates fuel w orgId format includeMetadata convs →
  length convs ≤ rounds * batchSize →
  ∃ st,
    exportAllFiltered fuel rounds w orgId format includeMetadata convs
      = Returned (ExportCancelled, st) ∧
    cancelExport st = true ∧
    requested st = conv_uuid <$> take (i + batchSize) convs ∧
    completed st + failed st = length (take (i + batchSize) convs).
Proof.
  intros ([k ->] & Hlt & Hquiet & Hclick) Hfair Hfuel Hrounds.
  destruct (export_loop_cancelled k rounds 0 initial_state Hfair Hfuel eq_refl)
    as (st & order & Hrun & Hperm & (Hcompleted & Hfailed & _ & _) & Hreq & Hc);
    [done | intros j [_ Hj]; by apply Hquiet | done | simpl; lia |].
  simpl in *.
  assert (slice convs 0 (Nat.min (k * batchSize + batchSize) (length convs))
          = take (k * batchSize + batchSize) convs) as Hslice.
  { unfold slice. rewrite Nat.sub_0_r. change (drop 0 convs) with convs.
    destruct (decide (k * batchSize + batchSize ≤ length convs)).
    - by rewrite Nat.min_l.
    - rewrite Nat.min_r by lia. by rewrite !take_ge by lia. }
  rewrite Hslice in Hperm, Hreq.
  exists st. unfold exportAllFiltered. rewrite Hrun. cbn. rewrite Hc. cbn.
  split; [done|]. split; [done|]. split; [done|].
  rewrite Hcompleted, Hfailed. simpl.
  rewrite !Hperm. apply succeeds_or_fails.
  intros c Hin. by apply Hfuel, (subseteq_take (k * batchSize + batchSize)).
Qed.
End batch.

(** Rendering returns on records that satisfy the data model: acyclic
    parent pointers, and fuel above the number of messages. *)
Lemma getCurrentBranch_returns fuel data :
  acyclic (default [] (chat_messages data)) →
  length (default [] (chat_messages data)) < fuel →
  getCurrentBranch fuel data ≠ OutOfFuel.
Proof.
  intros Hac Hfuel. unfold getCurrentBranch.
  destruct (chat_messages data) as [msgs|]; [simpl in *|done].
  destruct (negb _); [done|].
  destruct (trace_back_acyclic msgs [] (current_leaf_message_uuid data) Hac) as [l Hl].
  by rewrite (trace_back_mono (S (length msgs)) fuel _ _ _ l) by (done || lia).
Qed.

Lemma rendering_terminates_acyclic `{Runtime} fuel w orgId format includeMetadata convs :
  (∀ c ok status data,
     c ∈ convs →
     fetch w orgId (conv_uuid c) = HttpResponse ok status (Some data) →
     acyclic (default [] (chat_messages data)) ∧
     length (default [] (chat_messages data)) < fuel) →
  rendering_terminates fuel w orgId format includeMetadata convs.
Proof.
  intros Hdata c Hin.
  unfold export_document, utils.convertToMarkdown, utils.convertToText.
  destruct (fetch w orgId (conv_uuid c)) as [e|ok status [data|]] eqn:Hfetch; [done| |].
  - destruct (Hdata c ok status data Hin Hfetch) as [Hac Hfuel].
    destruct ok; cbn; [|done]. destruct (name c); cbn; [|done].
    pose proof (getCurrentBranch_returns fuel
                  (set_model data (inferModel data)) Hac Hfuel) as Hbranch.
    repeat case_bool_decide; [| |done].
    + unfold convertToMarkdown.
      by destruct (getCurrentBranch fuel (set_model data (inferModel data))).
    + unfold convertToText.
      by destruct (getCurrentBranch fuel (set_model data (inferModel data))).
  - by destruct ok.
Qed.

(** *** Seven conversations, the fifth of which fails *)

Lemma seven_terminates w :
  fetch w = flaky_fetch seven →
  @rendering_terminates sample_runtime 3 w "org" "markdown" true seven.
Proof.
  intros Hw c Hin. rewrite Hw.
  repeat (apply elem_of_cons in Hin as [->|Hin]); [by vm_compute..|].
  by apply elem_of_nil in Hin.
Qed.

Lemma reverse_schedule_fair w :
  settle_order w = (λ _ batch, reverse batch) → fair_schedule w.
Proof. intros Hw i batch. rewrite Hw. apply reverse_Permutation. Qed.

Lemma batch_export_isolates_failures_witness :
  never_cancelled quiet_world ∧
  fair_schedule quiet_world ∧
  @rendering_terminates sample_runtime 3 quiet_world "org" "markdown" true seven ∧
  length seven ≤ 3 * batchSize ∧
  ∃ archive st,
    @exportAllFiltered sample_runtime 3 3 quiet_world "org" "markdown" true seven
      = Returned (ExportArchive archive, st) ∧
    completed st + failed st = 7 ∧
    is_Some (archive !! "export_summary.json").
Proof.
  assert (never_cancelled quiet_world) as Hquiet by (by intros i).
  assert (fair_schedule quiet_world) as Hfair by (by apply reverse_schedule_fair).
  assert (@rendering_terminates sample_runtime 3 quiet_world "org" "markdown" true seven)
    as Hfuel by (by apply seven_terminates).
  assert (length seven ≤ 3 * batchSize) as Hrounds by (vm_compute; lia).
  split; [done|]. split; [done|]. split; [done|]. split; [done|].
  destruct (@batch_export_isolates_failures sample_runtime 3 quiet_world "org"
              "markdown" true seven 3 Hquiet Hfair Hfuel Hrounds)
    as (archive & st & Hrun & _ & _ & _ & Hsum & _ & Hsummary & _).
  exists archive, st. split; [done|]. split; [done|]. by rewrite Hsummary.
Defined.

(** The figures of the run: three batches, six documents, one failure. *)
Example seven_conversations :
  let run := @exportAllFiltered sample_runtime 3 3 quiet_world "org" "markdown" true seven in
  completed <$> final_state run = Some 6 ∧
  failed <$> final_state run = Some 1 ∧
  failedConversations <$> final_state run = Some [Some "Chat 5"] ∧
  requested <$> final_state run = Some ["k1"; "k2"; "k3"; "k4"; "k5"; "k6"; "k7"] ∧
  size <$> delivered run = Some 7.
Proof. by vm_compute. Qed.

(** *** Two conversations of the same name *)

(** C4 as stated fails: of two successful conversations with the same name
    only the one that settles last is in the archive. *)
Lemma same_name_counterexample :
  ¬ (∀ (RT : Runtime) fuel rounds w orgId format includeMetadata convs,
       never_cancelled w →
       fair_schedule w →
       rendering_terminates fuel w orgId format includeMetadata convs →
       length convs ≤ rounds * batchSize →
       ∃ archive st,
         exportAllFiltered fuel rounds w orgId format includeMetadata convs
           = Returned (ExportArchive archive, st) ∧
         ∀ c filename content,
           c ∈ convs →
           export_document fuel (fetch w) orgId format includeMetadata c
             = Returned (filename, content) →
           archive !! filename = Some content).
Proof.
  intros Hclaim.
  destruct (Hclaim sample_runtime 3 1 twin_world "org" "text" false [twin_a; twin_b])
    as (archive & st & Hrun & Hall).
  - by intros i.
  - by intros i batch.
  - intros c Hin.
    repeat (apply elem_of_cons in Hin as [->|Hin]); [by vm_compute..|].
    by apply elem_of_nil in Hin.
  - vm_compute. lia.
  - assert (archive !! "Chat.txt" = Some "Human: First") as Hfirst.
    { apply (Hall twin_a); [by left | by vm_compute]. }
    assert (delivered (@exportAllFiltered sample_runtime 3 1 twin_world "org" "text"
                         false [twin_a; twin_b]) ≫= (.!! "Chat.txt")
            = Some "Human: Second") as Hsecond by (by vm_compute).
    rewrite Hrun in Hsecond. simpl in Hsecond. congruence.
Qed.

Example same_name_archive :
  let run := @exportAllFiltered sample_runtime 3 1 twin_world "org" "text" false
               [twin_a; twin_b] in
  completed <$> final_state run = Some 2 ∧
  failed <$> final_state run = Some 0 ∧
  delivered run ≫= (.!! "Chat.txt") = Some "Human: Second" ∧
  size <$> delivered run = Some 2.
Proof. by vm_compute. Qed.

(** *** Cancellation *)

Lemma batch_export_cancellation_witness :
  cancelled_at cancelling_world (length seven) 0 ∧
  fair_schedule cancelling_world ∧
  @rendering_terminates sample_runtime 3 cancelling_world "org" "markdown" true seven ∧
  length seven ≤ 3 * batchSize ∧
  ∃ st,
    @exportAllFiltered sample_runtime 3 3 cancelling_world "org" "markdown" true seven
      = Returned (ExportCancelled, st) ∧
    requested st = ["k1"; "k2"; "k3"] ∧
    completed st + failed st = 3.
Proof.
  assert (cancelled_at cancelling_world (length seven) 0) as Hcancel.
  { split; [by exists 0|]. split; [vm_compute; lia|]. split; [intros j Hj; lia|].
    by left. }
  assert (fair_schedule cancelling_world) as Hfair by (by apply reverse_schedule_fair).
  assert (@rendering_terminates sample_runtime 3 cancelling_world "org" "markdown" true seven)
    as Hfuel by (by apply seven_terminates).
  assert (length seven ≤ 3 * batchSize) as Hrounds by (vm_compute; lia).
  split; [done|]. split; [done|]. split; [done|]. split; [done|].
  destruct (@batch_export_cancellation sample_runtime 3 cancelling_world "org"
              "markdown" true seven 3 0 Hcancel Hfair Hfuel Hrounds)
    as (st & Hrun & _ & Hreq & Hcount).
  exists st. split; [done|]. split; [exact Hreq | exact Hcount].
Defined.

(** C5 as stated fails: a click that comes while the archive is generated
    sets the flag, and the archive is delivered all the same. *)
Lemma late_cancel_counterexample :
  ¬ (∀ (RT : Runtime) fuel rounds w orgId format includeMetadata convs result st,
       exportAllFiltered fuel rounds w orgId format includeMetadata convs
         = Returned (result, st) →
       cancelExport st = true →
       result = ExportCancelled).
Proof.
  intros Hclaim.
  assert (cancelExport <$> final_state
            (@exportAllFiltered sample_runtime 3 3 late_click_world "org" "json" false seven)
          = Some true) as Hflag by (by vm_compute).
  assert (size <$> delivered
            (@exportAllFiltered sample_runtime 3 3 late_click_world "org" "json" false seven)
          = Some 7) as Harchive by (by vm_compute).
  destruct (@exportAllFiltered sample_runtime 3 3 late_click_world "org" "json" false seven)
    as [[result st]| |] eqn:Hrun; [|done..].
  injection Hflag as Hflag.
  by rewrite (Hclaim _ _ _ _ _ _ _ _ _ _ Hrun Hflag) in Harchive.
Qed.

(** * Further properties of the code *)

(** ** The lookup and the shape of a branch *)

(** X1. Two messages of the collection with the same identifier: the lookup
    keeps the later one. *)
Theorem messageMap_last_wins (msgs : list Message) (u : string) :
  messageMap msgs !! u = last (filter (λ msg, uuid msg = u) msgs).
Proof.
  induction msgs as [|x msgs IH] using rev_ind; [done|].
  rewrite messageMap_snoc, filter_app, filter_cons, filter_nil.
  destruct (decide (uuid x = u)) as [Heq|Hne].
  - rewrite last_snoc, Heq. apply lookup_insert_eq.
  - rewrite app_nil_r. by rewrite lookup_insert_ne.
Qed.

Lemma resolve_key m k msg :
  resolve m k = Some msg → ∃ c, k = Some c ∧ m !! c = Some msg.
Proof.
  intros (_ & _ & Hget)%resolve_Some. destruct k as [c|]; [|done]. eauto.
Qed.

Lemma getCurrentBranch_sound fuel data branch :
  getCurrentBranch fuel data = Returned branch →
  (branch = [] ∧ resolve (lookup_of data) (current_leaf_message_uuid data) = None) ∨
  branch_from (lookup_of data) (current_leaf_message_uuid data) branch.
Proof.
  unfold getCurrentBranch, lookup_of.
  destruct (chat_messages data) as [msgs|]; simpl.
  - destruct (truthy (current_leaf_message_uuid data)) eqn:Ht; simpl.
    + intros (l & -> & [[Hnone ->]|Hl])%trace_back_sound.
      * by left.
      * right. by rewrite app_nil_r.
    + intros [= <-]. left. split; [done|]. unfold resolve. by rewrite Ht.
  - intros [= <-]. left. split; [done|]. unfold resolve.
    destruct (truthy _); [|done].
    destruct (current_leaf_message_uuid data); [|done]. simpl.
    unfold messageMap. simpl. apply lookup_empty.
Qed.

Lemma lookup_of_key data u msg :
  lookup_of data !! u = Some msg →
  msg ∈ default [] (chat_messages data) ∧ uuid msg = u.
Proof. apply messageMap_lookup_Some. Qed.

Lemma branch_from_stored m k l x :
  branch_from m k l → x ∈ l → ∃ c, m !! c = Some x.
Proof.
  induction 1 as [k msg Hk Hroot | k msg l Hk Hl IH]; intros Hx.
  - apply list_elem_of_singleton in Hx as ->.
    destruct (resolve_key _ _ _ Hk) as (c & _ & ?). eauto.
  - apply elem_of_app in Hx as [Hx|Hx]; [by apply IH|].
    apply list_elem_of_singleton in Hx as ->.
    destruct (resolve_key _ _ _ Hk) as (c & _ & ?). eauto.
Qed.

(** X2. Whatever [getCurrentBranch] returns is made of messages of the
    collection, and it is empty exactly when the current leaf does not
    resolve. *)
Theorem getCurrentBranch_members (fuel : nat) (data : Conversation)
    (branch : list Message) :
  getCurrentBranch fuel data = Returned branch →
  (∀ x, x ∈ branch → x ∈ default [] (chat_messages data)) ∧
  (branch = [] ↔
   resolve (lookup_of data) (current_leaf_message_uuid data) = None).
Proof.
  intros [[-> Hnone]|Hb]%getCurrentBranch_sound.
  - split; [by intros x ?%elem_of_nil | done].
  - split.
    + intros x Hx. destruct (branch_from_stored _ _ _ _ Hb Hx) as [c Hc].
      by apply lookup_of_key in Hc as [? _].
    + destruct (branch_from_resolves _ _ _ Hb) as [leaf Hleaf].
      split; [|congruence].
      intros ->. inversion Hb as [| ? ? l ? ? Heq]. by destruct l.
Qed.

Lemma getCurrentBranch_members_witness :
  (∀ x, x ∈ [m1; m2; m3] → x ∈ [m1; m2; m2b; m3]) ∧
  ([m1; m2; m3] = [] ↔ resolve (lookup_of sample_conversation) (Some "m3") = None).
Proof.
  apply (getCurrentBranch_members 5 sample_conversation [m1; m2; m3]).
  by vm_compute.
Defined.

Lemma branch_from_linked m k l :
  (∀ u msg, m !! u = Some msg → uuid msg = u) →
  branch_from m k l →
  ∀ i a b, l !! i = Some a → l !! S i = Some b →
           parent_message_uuid b = Some (uuid a).
Proof.
  intros Hkey. induction 1 as [k msg Hk Hroot | k msg l Hk Hl IH]; intros i a b Ha Hb.
  - by destruct i.
  - destruct (decide (S i < length l)) as [Hlt|Hge].
    + rewrite lookup_app_l in Ha, Hb by lia. by eapply IH.
    + pose proof (lookup_lt_Some _ _ _ Hb) as Hlen.
      rewrite length_app in Hlen. simpl in Hlen.
      assert (S i = length l) as Hi by lia.
      rewrite lookup_app_r, Hi, Nat.sub_diag in Hb by lia. injection Hb as <-.
      rewrite lookup_app_l in Ha by lia.
      destruct (branch_from_last _ _ _ Hl) as (parent & Hparent & Hlast).
      rewrite last_lookup in Hlast.
      replace (pred (length l)) with i in Hlast by lia.
      rewrite Ha in Hlast. injection Hlast as ->.
      destruct (resolve_key _ _ _ Hparent) as (c & -> & Hc).
      by rewrite (Hkey _ _ Hc).
Qed.

(** X3. In a returned branch each message is the parent of the next one. *)
Theorem getCurrentBranch_linked (fuel : nat) (data : Conversation)
    (branch : list Message) (i : nat) (a b : Message) :
  getCurrentBranch fuel data = Returned branch →
  branch !! i = Some a →
  branch !! S i = Some b →
  parent_message_uuid b = Some (uuid a).
Proof.
  intros [[-> _]|Hb]%getCurrentBranch_sound Ha Hnext; [done|].
  eapply branch_from_linked; [|exact Hb|exact Ha|exact Hnext].
  intros u msg Hmsg. by apply lookup_of_key in Hmsg as [_ ?].
Qed.

Lemma getCurrentBranch_linked_witness :
  parent_message_uuid m3 = Some (uuid m2).
Proof.
  apply (getCurrentBranch_linked 5 sample_conversation [m1; m2; m3] 1 m2 m3);
    [by vm_compute | reflexivity | reflexivity].
Defined.

Lemma branch_from_sub m k l x :
  (∀ u msg, m !! u = Some msg → uuid msg = u) →
  branch_from m k l → x ∈ l →
  ∃ l1, branch_from m (Some (uuid x)) l1 ∧ length l1 ≤ length l.
Proof.
  intros Hkey. induction 1 as [k msg Hk Hroot | k msg l Hk Hl IH]; intros Hx.
  - apply list_elem_of_singleton in Hx as ->.
    destruct (resolve_key _ _ _ Hk) as (c & -> & Hc).
    rewrite (Hkey _ _ Hc). exists [msg]. split; [by apply branch_root | done].
  - rewrite length_app. simpl.
    apply elem_of_app in Hx as [Hx|Hx].
    + destruct (IH Hx) as (l1 & Hl1 & Hlen). exists l1. split; [done | lia].
    + apply list_elem_of_singleton in Hx as ->.
      destruct (resolve_key _ _ _ Hk) as (c & -> & Hc).
      rewrite (Hkey _ _ Hc). exists (l ++ [msg]).
      split; [by apply branch_step | rewrite length_app; simpl; lia].
Qed.

Lemma branch_from_NoDup m k l :
  (∀ u msg, m !! u = Some msg → uuid msg = u) →
  branch_from m k l →
  NoDup (uuid <$> l) ∧ ∀ x, x ∈ l → m !! uuid x = Some x.
Proof.
  intros Hkey. induction 1 as [k msg Hk Hroot | k msg l Hk Hl [IHnd IHst]].
  - destruct (resolve_key _ _ _ Hk) as (c & -> & Hc).
    split; [apply NoDup_singleton|].
    intros x ->%list_elem_of_singleton. by rewrite (Hkey _ _ Hc).
  - destruct (resolve_key _ _ _ Hk) as (c & -> & Hc).
    pose proof (Hkey _ _ Hc) as Hu.
    assert (∀ x, x ∈ l ++ [msg] → m !! uuid x = Some x) as Hst.
    { intros x [Hx|Hx%list_elem_of_singleton]%elem_of_app; [by apply IHst|].
      subst x. by rewrite Hu. }
    split; [|done].
    rewrite fmap_app. apply NoDup_app. split; [done|]. split; [|apply NoDup_singleton].
    intros u Hin ->%list_elem_of_singleton.
    apply list_elem_of_fmap in Hin as (x & Hux & Hx).
    assert (x = msg) as ->.
    { pose proof (IHst x Hx) as Hxs. rewrite <- Hux, Hu, Hc in Hxs. by injection Hxs. }
    destruct (branch_from_sub _ _ _ _ Hkey Hl Hx) as (l1 & Hl1 & Hlen).
    rewrite Hu in Hl1.
    pose proof (branch_from_unique _ _ _ _ Hl1 (branch_step _ _ _ _ Hk Hl)) as ->.
    rewrite length_app in Hlen. simpl in Hlen. lia.
Qed.

(** X4. A returned branch never holds an identifier twice, and is no longer
    than the collection. *)
Theorem getCurrentBranch_no_repeat (fuel : nat) (data : Conversation)
    (branch : list Message) :
  getCurrentBranch fuel data = Returned branch →
  NoDup (uuid <$> branch) ∧
  length branch ≤ length (default [] (chat_messages data)).
Proof.
  intros [[-> _]|Hb]%getCurrentBranch_sound.
  - split; [apply NoDup_nil_2 | simpl; lia].
  - assert (∀ u msg, lookup_of data !! u = Some msg → uuid msg = u) as Hkey.
    { intros u msg Hmsg. by apply lookup_of_key in Hmsg as [_ ?]. }
    destruct (branch_from_NoDup _ _ _ Hkey Hb) as [Hnd Hst].
    split; [done|].
    rewrite <- (length_fmap uuid branch).
    rewrite <- (size_list_to_set (C := gset string) (uuid <$> branch)) by done.
    etrans; [|apply (messageMap_size (default [] (chat_messages data)))].
    rewrite <- size_dom. apply subseteq_size.
    intros u (x & -> & Hx)%elem_of_list_to_set%list_elem_of_fmap.
    apply elem_of_dom. exists x. exact (Hst x Hx).
Qed.

Lemma getCurrentBranch_no_repeat_witness :
  NoDup (uuid <$> [m1; m2; m3]) ∧ length [m1; m2; m3] ≤ 4.
Proof.
  apply (getCurrentBranch_no_repeat 5 sample_conversation [m1; m2; m3]).
  by vm_compute.
Defined.

(** ** Model inference *)

(** X5. Inferring again on a record whose model was set to the inferred one
    changes nothing. *)
Theorem inferModel_idempotent `{Runtime} (record : Conversation) :
  inferModel (set_model record (inferModel record)) = inferModel record.
Proof.
  unfold inferModel at 1. simpl.
  by rewrite bool_decide_eq_true_2 by apply inferModel_nonempty.
Qed.

(** X6. The result is the declared model or one of the models of the table. *)
Theorem inferModel_range `{Runtime} (record : Conversation) :
  model record = Some (inferModel record) ∨
  inferModel record ∈ DEFAULT_MODEL_TIMELINE.*2.
Proof.
  destruct (truthy (model record)) eqn:Ht.
  - left. by apply inferModel_declared.
  - right. rewrite inferModel_scan by done.
    destruct (timeline_scan _ _ _) as [mdl|] eqn:Hscan.
    + apply timeline_scan_Some in Hscan as (j & date & _ & Hj & _).
      apply list_elem_of_fmap. exists (date, mdl). split; [done|].
      by eapply list_elem_of_lookup_2.
    + simpl. by left.
Qed.

Lemma inferModel_index `{Runtime} record :
  truthy (model record) = false →
  ∃ i date,
    DEFAULT_MODEL_TIMELINE !! i = Some (date, inferModel record) ∧
    (∀ t, Date_getTime (created_at record) = Some t →
          (date ≤ t)%Z ∨ i = 0) ∧
    (∀ t k date' mdl', Date_getTime (created_at record) = Some t →
          i < k → DEFAULT_MODEL_TIMELINE !! k = Some (date', mdl') → (t < date')%Z).
Proof.
  intros Ht. rewrite inferModel_scan by done.
  destruct (timeline_scan _ _ _) as [mdl|] eqn:Hscan.
  - apply timeline_scan_Some in Hscan as (j & date & Hlt & Hj & Hge & Hmax).
    exists j, date. split; [done|]. split.
    + intros t Hdate. rewrite Hdate in Hge. simpl in Hge.
      apply bool_decide_eq_true in Hge. by left.
    + intros t k date' mdl' Hdate Hk Hlook.
      pose proof (lookup_lt_Some _ _ _ Hlook) as Hklt.
      specialize (Hmax k date' mdl' (conj Hk Hklt) Hlook).
      rewrite Hdate in Hmax. simpl in Hmax.
      apply bool_decide_eq_false in Hmax. lia.
  - exists 0, (Date_UTC 2024 1 1). split; [done|]. split; [by right|].
    intros t k date' mdl' Hdate Hk Hlook.
    rewrite timeline_scan_None in Hscan.
    specialize (Hscan k date' mdl' (lookup_lt_Some _ _ _ Hlook) Hlook).
    rewrite Hdate in Hscan. simpl in Hscan.
    apply bool_decide_eq_false in Hscan. lia.
Qed.

(** X7. Of two records without a model, the one created later never gets an
    earlier entry of the table. *)
Theorem inferModel_monotone `{Runtime} (r1 r2 : Conversation) (t1 t2 : Z) :
  truthy (model r1) = false →
  truthy (model r2) = false →
  Date_getTime (created_at r1) = Some t1 →
  Date_getTime (created_at r2) = Some t2 →
  (t1 ≤ t2)%Z →
  ∃ i j date1 date2,
    i ≤ j ∧
    DEFAULT_MODEL_TIMELINE !! i = Some (date1, inferModel r1) ∧
    DEFAULT_MODEL_TIMELINE !! j = Some (date2, inferModel r2).
Proof.
  intros Hm1 Hm2 Hd1 Hd2 Hle.
  destruct (inferModel_index r1 Hm1) as (i & date1 & Hi & Hlow1 & _).
  destruct (inferModel_index r2 Hm2) as (j & date2 & Hj & _ & Hhigh2).
  exists i, j, date1, date2. split; [|done].
  destruct (Hlow1 t1 Hd1) as [Hdate1| ->]; [|lia].
  destruct (decide (i ≤ j)) as [|Hgt]; [done|].
  specialize (Hhigh2 t2 i date1 _ Hd2 ltac:(lia) Hi). lia.
Qed.

Lemma inferModel_monotone_witness :
  ∃ i j date1 date2,
    i ≤ j ∧
    DEFAULT_MODEL_TIMELINE !! i = Some (date1, @inferModel sample_runtime undated_before) ∧
    DEFAULT_MODEL_TIMELINE !! j = Some (date2, @inferModel sample_runtime sample_conversation).
Proof.
  apply (@inferModel_monotone sample_runtime undated_before sample_conversation
           (Date_UTC 2023 3 15) (Date_UTC 2024 6 20));
    [reflexivity | reflexivity | reflexivity | reflexivity | by vm_compute].
Defined.

(** ** Rendering *)

Lemma getCurrentBranch_same_messages fuel data data' :
  chat_messages data = chat_messages data' →
  current_leaf_message_uuid data = current_leaf_message_uuid data' →
  getCurrentBranch fuel data = getCurrentBranch fuel data'.
Proof. intros Hm Hl. unfold getCurrentBranch. by rewrite Hm, Hl. Qed.

Lemma markdown_fold_plain (RT1 RT2 : Runtime) markdown branch :
  foldl (@markdown_message RT1 false) markdown branch =
  foldl (@markdown_message RT2 false) markdown branch.
Proof.
  revert markdown. induction branch as [|message branch IH]; intros markdown; [done|].
  simpl. apply IH.
Qed.

(** X8. Without metadata the rendering reads only the name, the messages and
    the current leaf of the record: two records that agree on these give the
    same Markdown under any two runtimes, and the same text before the final
    trim. *)
Theorem rendering_without_metadata (RT1 RT2 : Runtime) (fuel : nat)
    (data data' : Conversation) :
  name data = name data' →
  chat_messages data = chat_messages data' →
  current_leaf_message_uuid data = current_leaf_message_uuid data' →
  @convertToMarkdown RT1 fuel data false = @convertToMarkdown RT2 fuel data' false ∧
  (∀ branch, @text_untrimmed RT1 data false branch
             = @text_untrimmed RT2 data' false branch) ∧
  ((∀ s, @String_trim RT1 s = @String_trim RT2 s) →
   @convertToText RT1 fuel data false = @convertToText RT2 fuel data' false).
Proof.
  intros Hn Hm Hl.
  pose proof (getCurrentBranch_same_messages fuel data data' Hm Hl) as Hb.
  split; [|split].
  - unfold convertToMarkdown. rewrite Hb, Hn.
    destruct (getCurrentBranch fuel data'); cbn; [|done..].
    by rewrite (markdown_fold_plain RT1 RT2).
  - done.
  - intros Htrim. unfold convertToText. rewrite Hb.
    destruct (getCurrentBranch fuel data'); cbn; [|done..].
    by rewrite Htrim.
Qed.

Lemma rendering_without_metadata_witness :
  @convertToMarkdown sample_runtime 5 sample_conversation false
    = @convertToMarkdown terse_runtime 5 redated_conversation false.
Proof.
  apply (rendering_without_metadata sample_runtime terse_runtime 5
           sample_conversation redated_conversation); reflexivity.
Defined.

(** With metadata the two runtimes do differ on the sample. *)
Example rendering_with_metadata_differs :
  @convertToMarkdown sample_runtime 5 sample_conversation true
    ≠ @convertToMarkdown terse_runtime 5 sample_conversation true.
Proof. by vm_compute. Qed.

Lemma markdown_body_appends markdown message :
  ∃ rest, markdown_body markdown message = markdown +:+ rest.
Proof.
  unfold markdown_body. destruct (content message) as [blocks|].
  - revert markdown. induction blocks as [|c blocks IH]; intros markdown; simpl.
    + exists "". by rewrite append_empty_r.
    + destruct (truthy (block_text c)); [|apply IH].
      destruct (IH (markdown +:+ interpolate (block_text c) +:+ nl +:+ nl)) as [rest ->].
      eexists. by rewrite !append_assoc.
  - destruct (truthy (text message)); [by eexists|].
    exists "". by rewrite append_empty_r.
Qed.

Lemma markdown_message_appends `{Runtime} includeMetadata markdown message :
  ∃ rest, markdown_message includeMetadata markdown message = markdown +:+ rest.
Proof.
  unfold markdown_message.
  destruct (markdown_body_appends
              (markdown +:+ markdown_sender message +:+ ":" +:+ nl +:+ nl) message)
    as [rest ->].
  destruct (includeMetadata && truthy (msg_created_at message));
    eexists; rewrite !append_assoc; reflexivity.
Qed.

Lemma markdown_fold_appends `{Runtime} includeMetadata markdown branch :
  ∃ rest, foldl (markdown_message includeMetadata) markdown branch = markdown +:+ rest.
Proof.
  revert markdown. induction branch as [|message branch IH]; intros markdown; simpl.
  - exists "". by rewrite append_empty_r.
  - destruct (markdown_message_appends includeMetadata markdown message) as [r1 ->].
    destruct (IH (markdown +:+ r1)) as [r2 ->].
    eexists. by rewrite append_assoc.
Qed.

(** X9. A Markdown document opens with the heading of the conversation, which
    reads "Untitled Conversation" when the name is missing or empty. *)
Theorem markdown_heading `{Runtime} (fuel : nat) (data : Conversation)
    (includeMetadata : bool) (document : string) :
  convertToMarkdown fuel data includeMetadata = Returned document →
  (∃ rest, document = "# " +:+ or_else (name data) "Untitled Conversation"
                      +:+ nl +:+ nl +:+ rest) ∧
  (name data = None ∨ name data = Some "" →
   ∃ rest, document = "# Untitled Conversation" +:+ nl +:+ nl +:+ rest).
Proof.
  intros Hdoc.
  assert (∃ rest, document = "# " +:+ or_else (name data) "Untitled Conversation"
                             +:+ nl +:+ nl +:+ rest) as Hhead.
  { unfold convertToMarkdown in Hdoc.
    destruct (getCurrentBranch fuel data) as [branch| |]; cbn in Hdoc; [|done..].
    injection Hdoc as <-.
    destruct (markdown_fold_appends includeMetadata
                (if includeMetadata
                 then ("# " +:+ or_else (name data) "Untitled Conversation" +:+ nl +:+ nl)
                      +:+ "**Created:** " +:+ Date_toLocaleString (created_at data) +:+ nl
                      +:+ "**Updated:** " +:+ Date_toLocaleString (updated_at data) +:+ nl
                      +:+ "**Model:** " +:+ interpolate (model data) +:+ nl +:+ nl
                      +:+ "---" +:+ nl +:+ nl
                 else "# " +:+ or_else (name data) "Untitled Conversation" +:+ nl +:+ nl)
                branch) as [rest ->].
    destruct includeMetadata; eexists; rewrite !append_assoc; reflexivity. }
  split; [done|].
  intros [Hn|Hn]; rewrite Hn in Hhead; exact Hhead.
Qed.

Lemma markdown_heading_witness :
  ∃ rest,
    "# Untitled Conversation" +:+ nl +:+ nl +:+ "**You**:" +:+ nl +:+ nl +:+ "Hello"
      +:+ nl +:+ nl +:+ "---" +:+ nl +:+ nl
    = "# Untitled Conversation" +:+ nl +:+ nl +:+ rest.
Proof.
  apply (@markdown_heading sample_runtime 2
           {| conv_uuid := "c7"; name := Some ""; summary := None; model := None;
              created_at := None; updated_at := None;
              chat_messages := Some [m1]; current_leaf_message_uuid := Some "m1" |}
           false); [by vm_compute | by right].
Defined.

Lemma messageText_fold acc blocks :
  foldl (λ messageText c,
           if truthy (block_text c)
           then messageText +:+ interpolate (block_text c)
           else messageText) acc blocks
  = acc +:+ String.concat ""
              (omap (λ c, if truthy (block_text c) then block_text c else None) blocks).
Proof.
  set (f := λ c : ContentBlock, if truthy (block_text c) then block_text c else None).
  revert acc. induction blocks as [|c blocks IH]; intros acc.
  - simpl. by rewrite append_empty_r.
  - change (omap f (c :: blocks))
      with (match f c with Some t => t :: omap f blocks | None => omap f blocks end).
    simpl foldl. rewrite IH.
    assert (f c = if truthy (block_text c) then block_text c else None) as -> by done.
    destruct (truthy (block_text c)) eqn:Ht; [|done].
    destruct (block_text c) as [t|]; [|done]. simpl interpolate.
    rewrite append_assoc. f_equal.
    destruct (omap f blocks) as [|t' ts]; [apply append_empty_r | done].
Qed.

(** X10. The body of a message in the text encoding: with content blocks, the
    non-empty block texts joined without any separator, the legacy text
    being ignored even when there is no block at all; without content
    blocks, the legacy text, or nothing. *)
Theorem messageText_spec (message : Message) :
  (∀ blocks,
     content message = Some blocks →
     messageText message =
     String.concat ""
       (omap (λ c, if truthy (block_text c) then block_text c else None) blocks)) ∧
  (content message = None →
   messageText message = or_else (text message) "").
Proof.
  unfold messageText. split.
  - intros blocks ->. by rewrite messageText_fold.
  - intros ->. unfold or_else. destruct (text message) as [t|]; [|done].
    by destruct (truthy (Some t)).
Qed.

Lemma messageText_spec_witness :
  messageText two_blocks = "OneTwo" ∧ messageText anonymous_message = "Legacy".
Proof.
  split.
  - exact (proj1 (messageText_spec two_blocks) _ eq_refl).
  - exact (proj2 (messageText_spec anonymous_message) eq_refl).
Defined.

Lemma getCurrentBranch_unresolved fuel data :
  0 < fuel →
  resolve (lookup_of data) (current_leaf_message_uuid data) = None →
  getCurrentBranch fuel data = Returned [].
Proof.
  intros Hfuel Hnone. unfold getCurrentBranch.
  destruct (chat_messages data) as [msgs|] eqn:Hmsgs; [|done].
  destruct (negb _); [done|].
  destruct fuel as [|fuel]; [lia|]. rewrite trace_back_unfold.
  unfold lookup_of in Hnone. rewrite Hmsgs in Hnone. simpl in Hnone.
  by rewrite Hnone.
Qed.

(** X11. A record whose current leaf does not resolve still renders: the
    Markdown document is the heading and the metadata block alone, and the
    text is the trimmed metadata header. *)
Theorem rendering_empty_branch `{Runtime} (fuel : nat) (data : Conversation)
    (includeMetadata : bool) :
  0 < fuel →
  resolve (lookup_of data) (current_leaf_message_uuid data) = None →
  convertToMarkdown fuel data false =
    Returned ("# " +:+ or_else (name data) "Untitled Conversation" +:+ nl +:+ nl) ∧
  convertToText fuel data includeMetadata =
    Returned (String_trim (text_header data includeMetadata)).
Proof.
  intros Hfuel Hnone. unfold convertToMarkdown, convertToText.
  by rewrite (getCurrentBranch_unresolved fuel data Hfuel Hnone).
Qed.

Lemma rendering_empty_branch_witness :
  @convertToMarkdown sample_runtime 1 empty_conversation false =
    Returned ("# Empty" +:+ nl +:+ nl) ∧
  @convertToText sample_runtime 1 empty_conversation false = Returned "".
Proof.
  apply (@rendering_empty_branch sample_runtime 1 empty_conversation false);
    [apply Nat.lt_0_1 | reflexivity].
Defined.

(** ** Single-conversation export *)

(** X12. A single export fails exactly when its fetch fails, with the error of
    the fetch: a network failure with its message, a non-success response
    with its status. *)
Theorem handler_errors `{Runtime} (fuel : nat) (fetch : string → string → response)
    (request : ExportRequest) :
  (∀ e, exportConversation_handler fuel fetch request = Thrown e ↔
        fetchConversation (fetch (req_orgId request) (req_conversationId request))
          = Thrown e) ∧
  (∀ msg, fetch (req_orgId request) (req_conversationId request) = NetworkFailure msg →
          exportConversation_handler fuel fetch request = Thrown msg) ∧
  (∀ status body,
     fetch (req_orgId request) (req_conversationId request)
       = HttpResponse false status body →
     exportConversation_handler fuel fetch request
       = Thrown ("Failed to fetch conversation: " +:+ status)).
Proof.
  split; [|split].
  - intros e. unfold exportConversation_handler.
    destruct (fetchConversation _) as [data|e'|]; cbn;
      [|split; by intros [= ->] | split; intros; discriminate].
    split; [|done]. repeat case_bool_decide; [| |done].
    + pose proof (convertToMarkdown_no_throw fuel
                    (set_model data (inferModel data)) (req_includeMetadata request) e)
        as Hno.
      destruct (convertToMarkdown _ _ _) as [?|e0|]; cbn; intros Hd;
        [discriminate | injection Hd as ->; by destruct Hno | discriminate].
    + pose proof (convertToText_no_throw fuel
                    (set_model data (inferModel data)) (req_includeMetadata request) e)
        as Hno.
      destruct (convertToText _ _ _) as [?|e0|]; cbn; intros Hd;
        [discriminate | injection Hd as ->; by destruct Hno | discriminate].
  - intros msg Hf. unfold exportConversation_handler. by rewrite Hf.
  - intros status body Hf. unfold exportConversation_handler. by rewrite Hf.
Qed.

Lemma handler_errors_witness :
  @exportConversation_handler sample_runtime 5 sample_fetch
    {| req_orgId := "org"; req_conversationId := "nope"; req_format := "text";
       req_includeMetadata := true |}
  = Thrown "Failed to fetch conversation: 404".
Proof.
  apply (@handler_errors sample_runtime 5 sample_fetch
           {| req_orgId := "org"; req_conversationId := "nope"; req_format := "text";
              req_includeMetadata := true |}) with (body := None).
  reflexivity.
Defined.

(** X14. A document of a batch archive has the content that a single export of
    that conversation downloads. *)
Theorem batch_document_is_single_export `{Runtime} (fuel : nat)
    (fetch : string → string → response) (orgId format : string)
    (includeMetadata : bool) (conv : Conversation) (filename content : string) :
  export_document fuel fetch orgId format includeMetadata conv
    = Returned (filename, content) →
  ∃ d,
    exportConversation fuel fetch orgId format includeMetadata
      (conv_uuid conv) (name conv) = Returned d ∧
    dl_content d = content.
Proof.
  unfold export_document, exportConversation, fetchConversation.
  unfold utils.convertToMarkdown, utils.convertToText.
  destruct (fetch orgId (conv_uuid conv)) as [e|ok status [data|]]; cbn; [done| |].
  - destruct ok; cbn; [|done]. destruct (name conv) as [n|]; cbn; [|done].
    destruct (bool_decide (format = "markdown"));
      [|destruct (bool_decide (format = "text"))].
    + destruct (convertToMarkdown fuel _ includeMetadata); cbn; [|done..].
      intros [= <- <-]. eauto.
    + destruct (convertToText fuel _ includeMetadata); cbn; [|done..].
      intros [= <- <-]. eauto.
    + intros [= <- <-]. eauto.
  - by destruct ok.
Qed.

Lemma batch_document_is_single_export_witness :
  ∃ d,
    @exportConversation sample_runtime 3 (flaky_fetch seven) "org" "text" false
      "k1" (Some "Chat 1") = Returned d ∧
    dl_content d = "Human: Question 1".
Proof.
  apply (@batch_document_is_single_export sample_runtime 3 (flaky_fetch seven)
           "org" "text" false (numbered "1") "Chat 1.txt" "Human: Question 1").
  by vm_compute.
Defined.

(** ** File names of a batch *)

Lemma underscore_legal : "_"%char ∉ illegal_characters.
Proof. by vm_compute; intros H; repeat (inversion H as [|? ? ? H']; clear H; rename H' into H). Qed.

Lemma legal_character c : invalid_filename_char c = false → c ∉ illegal_characters.
Proof. rewrite <- invalid_filename_char_spec. congruence. Qed.

Lemma replace_invalid_fixed s :
  (∀ i c, String.get i s = Some c → c ∉ illegal_characters) →
  replace_invalid s = s.
Proof.
  induction s as [|c s IH]; intros Hs; [done|]. simpl.
  rewrite IH by (intros i c' Hc'; by apply (Hs (S i))).
  destruct (invalid_filename_char c) eqn:E; [|done].
  apply invalid_filename_char_spec in E. by destruct (Hs 0 c eq_refl).
Qed.

(** X15. The sanitized name holds none of the nine illegal characters, sanitizing
    it again changes nothing, and a name without illegal characters is left
    as it is. *)
Theorem replace_invalid_clean (s : string) :
  (∀ i c, String.get i (replace_invalid s) = Some c → c ∉ illegal_characters) ∧
  replace_invalid (replace_invalid s) = replace_invalid s ∧
  ((∀ i c, String.get i s = Some c → c ∉ illegal_characters) →
   replace_invalid s = s).
Proof.
  assert (∀ i c, String.get i (replace_invalid s) = Some c → c ∉ illegal_characters)
    as Hclean.
  { induction s as [|c' s IH]; intros i c; [done|].
    destruct i as [|i]; simpl; [|apply IH].
    intros [= <-]. destruct (invalid_filename_char c') eqn:E.
    - apply underscore_legal.
    - rewrite <- invalid_filename_char_spec. congruence. }
  split; [done|]. split; [by apply replace_invalid_fixed | apply replace_invalid_fixed].
Qed.

Lemma replace_invalid_clean_witness :
  replace_invalid "notes" = "notes".
Proof.
  apply (replace_invalid_clean "notes").
  intros i c Hc.
  do 5 (destruct i as [|i]; [injection Hc as <-; by apply legal_character|]).
  discriminate.
Defined.

Example replace_invalid_sample :
  replace_invalid "a/b: c?" = "a_b_ c_".
Proof. reflexivity. Qed.

(** ** Batch export under any sequence of clicks *)

Section batch_runs.
Context `{RT : Runtime} (fuel : nat) (orgId format : string)
        (includeMetadata : bool) (convs : list Conversation).

Local Abbreviation total := (length convs).

Lemma slice_min {A} (l : list A) i k :
  slice l i (Nat.min k (length l)) = slice l i k.
Proof.
  unfold slice. destruct (decide (k ≤ length l)).
  - by rewrite Nat.min_l.
  - rewrite Nat.min_r by lia.
    rewrite !take_ge; [done|rewrite length_drop; lia..].
Qed.

Lemma slice_from_start {A} (l : list A) n : slice l 0 n = take n l.
Proof. unfold slice. by rewrite Nat.sub_0_r. Qed.

(** What the loop leaves behind, whenever the user clicks: the batches from
    [i] up to some index [n] have been requested and have settled, and the
    loop went through all of them unless the flag is set. *)
Lemma export_loop_invariant (w : World) rounds i st :
  fair_schedule w →
  rendering_terminates fuel w orgId format includeMetadata convs →
  total ≤ i + rounds * batchSize →
  ∃ st' n order,
    export_loop fuel rounds w orgId format includeMetadata convs i st = Returned st' ∧
    i ≤ n ∧
    order ≡ₚ slice convs i n ∧
    settled_from fuel (fetch w) orgId format includeMetadata st order st' ∧
    requested st' = requested st ++ (conv_uuid <$> slice convs i n) ∧
    (cancelExport st' = false → total ≤ n).
Proof.
  intros Hfair Hfuel. revert i st.
  induction rounds as [|rounds IH]; intros i st Hrounds.
  - exists st, i, []. rewrite export_loop_exit, slice_nil by (simpl in Hrounds; lia).
    simpl. rewrite app_nil_r.
    split; [done|]. split; [done|]. split; [done|].
    split; [apply settled_from_nil|]. split; [done|]. simpl in Hrounds. lia.
  - destruct (decide (i < total)) as [Hi|Hi];
      [destruct (cancelExport st) eqn:Hc|].
    + exists st, i, []. rewrite export_loop_break, slice_nil by (done || lia).
      simpl. rewrite app_nil_r.
      split; [done|]. split; [done|]. split; [done|].
      split; [apply settled_from_nil|]. split; [done|]. congruence.
    + destruct (export_loop_step fuel w orgId format includeMetadata convs
                  rounds i st Hi Hc Hfair Hfuel)
        as (st1 & order1 & Hperm1 & Hset1 & Hreq1 & Hc1 & ->).
      destruct (IH (i + batchSize) (between_batches w total i st1))
        as (st' & n & order2 & -> & Hn & Hperm2 & Hset2 & Hreq2 & Hdone); [lia|].
      rewrite slice_min in Hperm1, Hreq1.
      exists st', n, (order1 ++ order2).
      rewrite (slice_split convs i (i + batchSize) n) by lia.
      split; [done|]. split; [lia|]. split; [by rewrite Hperm1, Hperm2|].
      split; [|split; [|done]].
      * eapply settled_from_app; [exact Hset1|].
        by apply between_batches_settled in Hset2.
      * rewrite Hreq2, fmap_app, app_assoc.
        destruct (between_batches_fields w total i st1) as (_ & _ & _ & _ & ->).
        by rewrite Hreq1.
    + exists st, i, []. rewrite export_loop_exit, slice_nil by lia.
      simpl. rewrite app_nil_r.
      split; [done|]. split; [done|]. split; [done|].
      split; [apply settled_from_nil|]. split; [done|]. lia.
Qed.

Lemma settled_counts (w : World) st order st' :
  (∀ c, c ∈ order →
        export_document fuel (fetch w) orgId format includeMetadata c ≠ OutOfFuel) →
  length (failedConversations st) = failed st →
  settled_from fuel (fetch w) orgId format includeMetadata st order st' →
  completed st' + failed st' = completed st + failed st + length order ∧
  length (failedConversations st') = failed st'.
Proof.
  intros Hfuel Hlen (Hc & Hf & Hn & _).
  pose proof (succeeds_or_fails fuel w orgId format includeMetadata order Hfuel).
  rewrite Hc, Hf, Hn, length_app, length_fmap. lia.
Qed.

(** X16. Whenever the user clicks, a batch export ends, and what it leaves is
    consistent: the requests issued are those of a prefix of the input, in
    input order; each of them has settled, as a success or as a failure;
    and the failure list has one name per failure. *)
Theorem exportAllFiltered_progress (w : World) (rounds : nat) :
  fair_schedule w →
  rendering_terminates fuel w orgId format includeMetadata convs →
  length convs ≤ rounds * batchSize →
  ∃ result st n,
    exportAllFiltered fuel rounds w orgId format includeMetadata convs
      = Returned (result, st) ∧
    requested st = conv_uuid <$> take n convs ∧
    completed st + failed st = length (requested st) ∧
    length (failedConversations st) = failed st.
Proof.
  intros Hfair Hfuel Hrounds.
  destruct (export_loop_invariant w rounds 0 initial_state Hfair Hfuel)
    as (st & n & order & Hrun & _ & Hperm & Hset & Hreq & _); [simpl; lia|].
  rewrite slice_from_start in Hperm, Hreq. simpl in Hreq.
  destruct (settled_counts w initial_state order st) as [Hsum Hnames];
    [|done|done|].
  { intros c Hc. apply Hfuel. rewrite Hperm in Hc. by apply subseteq_take in Hc. }
  simpl in Hsum.
  assert (completed st + failed st = length (requested st)) as Hcount.
  { rewrite Hsum, Hreq, length_fmap. by rewrite Hperm. }
  unfold exportAllFiltered. rewrite Hrun. cbn.
  destruct (cancelExport st); cbn.
  - by exists ExportCancelled, st, n.
  - eexists _, _, n. split; [reflexivity|]. simpl. by rewrite <- Hreq.
Qed.

(** X17. An archive is delivered only after every conversation of the input has
    been requested and has settled; a cancelled job delivers none, and its
    flag is set. *)
Theorem exportAllFiltered_archive_complete (w : World) (rounds : nat)
    (result : export_result) (st : export_state) :
  fair_schedule w →
  rendering_terminates fuel w orgId format includeMetadata convs →
  length convs ≤ rounds * batchSize →
  exportAllFiltered fuel rounds w orgId format includeMetadata convs
    = Returned (result, st) →
  match result with
  | ExportArchive archive =>
      requested st = conv_uuid <$> convs ∧
      completed st + failed st = length convs ∧
      is_Some (archive !! "export_summary.json")
  | ExportCancelled => cancelExport st = true
  end.
Proof.
  intros Hfair Hfuel Hrounds.
  destruct (export_loop_invariant w rounds 0 initial_state Hfair Hfuel)
    as (st0 & n & order & Hrun & _ & Hperm & Hset & Hreq & Hdone); [simpl; lia|].
  rewrite slice_from_start in Hperm, Hreq. simpl in Hreq.
  destruct (settled_counts w initial_state order st0) as [Hsum _]; [|done|done|].
  { intros c Hc. apply Hfuel. rewrite Hperm in Hc. by apply subseteq_take in Hc. }
  simpl in Hsum.
  unfold exportAllFiltered. rewrite Hrun. cbn.
  destruct (cancelExport st0) eqn:Hc; cbn.
  - by intros [= <- <-].
  - intros [= <- <-]. simpl.
    rewrite take_ge in Hperm, Hreq by auto.
    split; [done|]. split; [by rewrite Hsum, Hperm|].
    rewrite lookup_insert_eq. eauto.
Qed.
End batch_runs.

Lemma exportAllFiltered_progress_witness :
  ∃ result st n,
    @exportAllFiltered sample_runtime 3 3 pausing_world "org" "markdown" true seven
      = Returned (result, st) ∧
    requested st = conv_uuid <$> take n seven ∧
    completed st + failed st = length (requested st) ∧
    length (failedConversations st) = failed st.
Proof.
  apply (@exportAllFiltered_progress sample_runtime 3 "org" "markdown" true seven
           pausing_world 3).
  - by apply reverse_schedule_fair.
  - by apply seven_terminates.
  - vm_compute. lia.
Defined.

Lemma exportAllFiltered_archive_complete_witness :
  cancelExport
    (default initial_state
       (final_state (@exportAllFiltered sample_runtime 3 3 pausing_world "org"
                       "markdown" true seven))) = true.
Proof.
  destruct (@exportAllFiltered sample_runtime 3 3 pausing_world "org" "markdown" true seven)
    as [[result st]| |] eqn:Hrun; [|by vm_compute in Hrun..].
  assert (result = ExportCancelled) as ->.
  { assert (delivered (@exportAllFiltered sample_runtime 3 3 pausing_world "org"
                         "markdown" true seven) = None) as Hnone by (by vm_compute).
    rewrite Hrun in Hnone. by destruct result. }
  apply (@exportAllFiltered_archive_complete sample_runtime 3 "org" "markdown" true
           seven pausing_world 3 ExportCancelled st).
  - by apply reverse_schedule_fair.
  - by apply seven_terminates.
  - vm_compute. lia.
  - exact Hrun.
Defined.

Example pause_cancellation :
  let run := @exportAllFiltered sample_runtime 3 3 pausing_world "org" "markdown" true seven in
  requested <$> final_state run = Some ["k1"; "k2"; "k3"] ∧
  delivered run = None.
Proof. by vm_compute. Qed.

(** ** The size of the archive *)

Section archive.
Context `{RT : Runtime} (fuel : nat) (w : World) (orgId format : string)
        (includeMetadata : bool).

Local Abbreviation doc := (export_document fuel (fetch w) orgId format includeMetadata).
Local Abbreviation file := (file_document fuel (fetch w) orgId format includeMetadata).
Local Abbreviation names := (document_names fuel (fetch w) orgId format includeMetadata).
Local Abbreviation succeeds :=
  (λ c, export_succeeds fuel (fetch w) orgId format includeMetadata c = true).

Lemma document_names_cons c order :
  names (c :: order) =
  match doc c with
  | Returned (filename, _) => filename :: names order
  | _ => names order
  end.
Proof.
  unfold document_names. simpl. by destruct (doc c) as [[? ?]| |].
Qed.

Lemma document_names_length order :
  length (names order) = length (filter succeeds order).
Proof.
  induction order as [|c order IH]; [done|].
  rewrite document_names_cons.
  destruct (doc c) as [[? ?]| |] eqn:Hdoc.
  - rewrite filter_cons_True by (unfold export_succeeds; by rewrite Hdoc).
    simpl. by rewrite IH.
  - rewrite filter_cons_False by (unfold export_succeeds; by rewrite Hdoc). done.
  - rewrite filter_cons_False by (unfold export_succeeds; by rewrite Hdoc). done.
Qed.

Lemma foldl_file_size z order :
  size (foldl file z order) ≤ size z + length (names order).
Proof.
  revert z. induction order as [|c order IH]; intros z; [simpl; lia|].
  rewrite document_names_cons. simpl foldl. etrans; [apply IH|].
  unfold file_document. destruct (doc c) as [[filename content]| |]; [|done..].
  rewrite map_size_insert, length_cons. destruct (z !! filename); unfold id; lia.
Qed.

Lemma foldl_file_size_distinct z order :
  NoDup (names order) →
  (∀ filename, filename ∈ names order → z !! filename = None) →
  size (foldl file z order) = size z + length (names order).
Proof.
  revert z. induction order as [|c order IH]; intros z; [simpl; lia|].
  rewrite document_names_cons. simpl foldl. unfold file_document at 2.
  destruct (doc c) as [[filename content]| |]; [|by apply IH..].
  intros [Hnew Hnd]%NoDup_cons Hfree.
  rewrite IH; [|done|].
  - rewrite map_size_insert_None; [simpl; lia|]. apply Hfree. by left.
  - intros f Hf. rewrite lookup_insert_ne by (intros ->; done).
    apply Hfree. by right.
Qed.

(** X18. The archive of a finished job holds at most one entry per success,
    plus the summary; it holds exactly that many when the file names of the
    successes are pairwise different and none is the name of the summary. *)
Theorem archive_size (rounds : nat) (convs : list Conversation)
    (archive : gmap string string) (st : export_state) :
  fair_schedule w →
  rendering_terminates fuel w orgId format includeMetadata convs →
  length convs ≤ rounds * batchSize →
  exportAllFiltered fuel rounds w orgId format includeMetadata convs
    = Returned (ExportArchive archive, st) →
  size archive ≤ completed st + 1 ∧
  (NoDup (names convs) →
   "export_summary.json" ∉ names convs →
   size archive = completed st + 1).
Proof.
  intros Hfair Hfuel Hrounds Hrun.
  apply exportAllFiltered_archive in Hrun as (st0 & Hloop & Hc & -> & ->).
  destruct (export_loop_invariant fuel orgId format includeMetadata convs w rounds 0
              initial_state Hfair Hfuel)
    as (st0' & n & order & Hloop' & _ & Hperm & (Hcompleted & _ & _ & Hzip) & _ & Hdone);
    [simpl; lia|].
  rewrite Hloop in Hloop'. injection Hloop' as <-.
  rewrite slice_from_start, take_ge in Hperm by auto.
  simpl in *. rewrite Hcompleted, Hzip, <- document_names_length.
  split.
  - rewrite map_size_insert.
    pose proof (foldl_file_size ∅ order) as Hle. rewrite map_size_empty in Hle.
    destruct (_ !! _); unfold id; lia.
  - intros Hnd Hsummary.
    unfold document_names in Hnd, Hsummary. rewrite <- Hperm in Hnd, Hsummary.
    assert (size (foldl file ∅ order) = length (names order)) as Hsize.
    { rewrite foldl_file_size_distinct; [by rewrite map_size_empty | done |].
      intros f _. apply lookup_empty. }
    rewrite map_size_insert_None; [lia|].
    destruct (foldl file ∅ order !! "export_summary.json") as [content|] eqn:Hlook;
      [|done].
    apply foldl_file_lookup in Hlook as [Hempty|(c & Hin & Hdoc)].
    + by rewrite lookup_empty in Hempty.
    + destruct Hsummary. apply list_elem_of_omap. exists c. by rewrite Hdoc.
Qed.
End archive.

Lemma archive_size_witness :
  ∃ archive st,
    @exportAllFiltered sample_runtime 3 3 quiet_world "org" "markdown" true seven
      = Returned (ExportArchive archive, st) ∧
    size archive ≤ completed st + 1.
Proof.
  destruct (@exportAllFiltered sample_runtime 3 3 quiet_world "org" "markdown" true seven)
    as [[[|archive] st]| |] eqn:Hrun; [by vm_compute in Hrun | | by vm_compute in Hrun..].
  exists archive, st. split; [done|].
  apply (@archive_size sample_runtime 3 quiet_world "org" "markdown" true 3 seven archive st).
  - by apply reverse_schedule_fair.
  - by apply seven_terminates.
  - vm_compute. lia.
  - exact Hrun.
Defined.

(** X19. An empty selection still gives an archive, which holds the summary
    alone; no request is issued, whatever the user clicks. *)
Theorem exportAllFiltered_empty `{Runtime} (fuel rounds : nat) (w : World)
    (orgId format : string) (includeMetadata : bool) :
  exportAllFiltered fuel rounds w orgId format includeMetadata [] =
  Returned
    (ExportArchive
       {[ "export_summary.json" :=
            JSON_stringify_summary
              {| export_date := Date_now_ISO; total_conversations := 0;
                 successful_exports := 0; failed_exports := 0;
                 failed_conversations := []; summary_format := format;
                 include_metadata := includeMetadata |} ]},
     observe_click (click w InZip) initial_state).
Proof. unfold exportAllFiltered. by destruct rounds. Qed.

(** ** The order in which the callbacks of a batch settle *)

Section schedules.
Context `{RT : Runtime} (fuel : nat) (orgId format : string)
        (includeMetadata : bool) (convs : list Conversation) (w1 w2 : World).
Hypothesis same_fetch : fetch w1 = fetch w2.
Hypothesis same_click : ∀ ph, click w1 ph = click w2 ph.
Hypothesis fair1 : fair_schedule w1.
Hypothesis fair2 : fair_schedule w2.
Hypothesis terminates : rendering_terminates fuel w1 orgId format includeMetadata convs.

Local Abbreviation total := (length convs).

Lemma terminates2 : rendering_terminates fuel w2 orgId format includeMetadata convs.
Proof. unfold rendering_terminates. rewrite <- same_fetch. exact terminates. Qed.

Lemma between_batches_same i st1 st2 :
  same_report st1 st2 →
  same_report (between_batches w1 total i st1) (between_batches w2 total i st2).
Proof.
  intros (Hc & Hf & Hr & Hx & Hn). unfold same_report.
  destruct (between_batches_fields w1 total i st1) as (_ & -> & -> & -> & ->).
  destruct (between_batches_fields w2 total i st2) as (_ & -> & -> & -> & ->).
  split; [done|]. split; [done|]. split; [done|]. split; [|done].
  unfold between_batches. rewrite !same_click. simpl. rewrite Hx.
  destruct (_ && _); simpl; by rewrite ?Hx.
Qed.

Lemma settled_same st1 st2 order1 order2 st1' st2' :
  order1 ≡ₚ order2 →
  completed st1 = completed st2 → failed st1 = failed st2 →
  failedConversations st1 ≡ₚ failedConversations st2 →
  settled_from fuel (fetch w1) orgId format includeMetadata st1 order1 st1' →
  settled_from fuel (fetch w2) orgId format includeMetadata st2 order2 st2' →
  completed st1' = completed st2' ∧ failed st1' = failed st2' ∧
  failedConversations st1' ≡ₚ failedConversations st2'.
Proof.
  intros Hperm Hc Hf Hn (Hc1 & Hf1 & Hn1 & _) (Hc2 & Hf2 & Hn2 & _).
  rewrite Hc1, Hc2, Hf1, Hf2, Hn1, Hn2, Hc, Hf, <- same_fetch.
  split; [by rewrite Hperm|]. split; [by rewrite Hperm|].
  by rewrite Hn, Hperm.
Qed.

Lemma export_loop_same rounds i st1 st2 :
  total ≤ i + rounds * batchSize →
  same_report st1 st2 →
  ∃ st1' st2',
    export_loop fuel rounds w1 orgId format includeMetadata convs i st1 = Returned st1' ∧
    export_loop fuel rounds w2 orgId format includeMetadata convs i st2 = Returned st2' ∧
    same_report st1' st2'.
Proof.
  revert i st1 st2. induction rounds as [|rounds IH]; intros i st1 st2 Hrounds Hsame.
  - exists st1, st2. by rewrite !export_loop_exit by (simpl in Hrounds; lia).
  - destruct (decide (i < total)) as [Hi|Hi];
      [destruct (cancelExport st1) eqn:Hc1|].
    + assert (cancelExport st2 = true) as Hc2
        by (destruct Hsame as (_ & _ & _ & <- & _); done).
      exists st1, st2. by rewrite !export_loop_break by (done || lia).
    + assert (cancelExport st2 = false) as Hc2
        by (destruct Hsame as (_ & _ & _ & <- & _); done).
      destruct (export_loop_step fuel w1 orgId format includeMetadata convs
                  rounds i st1 Hi Hc1 fair1 terminates)
        as (st1a & order1 & Hperm1 & Hset1 & Hreq1 & Hca1 & ->).
      destruct (export_loop_step fuel w2 orgId format includeMetadata convs
                  rounds i st2 Hi Hc2 fair2 terminates2)
        as (st2a & order2 & Hperm2 & Hset2 & Hreq2 & Hca2 & ->).
      apply IH; [lia|]. apply between_batches_same.
      destruct Hsame as (Hc & Hf & Hr & _ & Hn).
      destruct (settled_same st1 st2 order1 order2 st1a st2a) as (? & ? & ?);
        [by rewrite Hperm1, Hperm2 | done..|].
      unfold same_report. rewrite Hreq1, Hreq2, Hr, Hca1, Hca2. done.
    + exists st1, st2. by rewrite !export_loop_exit by lia.
Qed.

(** X20. The order in which the callbacks of a batch settle does not change what
    the user is told: two runs that differ only in that order end the same
    way, cancelled or with an archive, with the same counters and requests
    and the same failed names up to their order. *)
Theorem exportAllFiltered_schedule (rounds : nat) :
  length convs ≤ rounds * batchSize →
  ∃ result1 st1 result2 st2,
    exportAllFiltered fuel rounds w1 orgId format includeMetadata convs
      = Returned (result1, st1) ∧
    exportAllFiltered fuel rounds w2 orgId format includeMetadata convs
      = Returned (result2, st2) ∧
    (result1 = ExportCancelled ↔ result2 = ExportCancelled) ∧
    completed st1 = completed st2 ∧ failed st1 = failed st2 ∧
    requested st1 = requested st2 ∧
    failedConversations st1 ≡ₚ failedConversations st2.
Proof.
  intros Hrounds.
  destruct (export_loop_same rounds 0 initial_state initial_state)
    as (st1 & st2 & Hrun1 & Hrun2 & Hc & Hf & Hr & Hx & Hn); [simpl; lia | done |].
  unfold exportAllFiltered. rewrite Hrun1, Hrun2. cbn. rewrite <- Hx.
  destruct (cancelExport st1); cbn.
  - by exists ExportCancelled, st1, ExportCancelled, st2.
  - eexists _, _, _, _. split; [reflexivity|]. split; [reflexivity|].
    split; [by split|]. done.
Qed.
End schedules.

Lemma exportAllFiltered_schedule_witness :
  ∃ result1 st1 result2 st2,
    @exportAllFiltered sample_runtime 3 3 quiet_world "org" "markdown" true seven
      = Returned (result1, st1) ∧
    @exportAllFiltered sample_runtime 3 3 orderly_world "org" "markdown" true seven
      = Returned (result2, st2) ∧
    (result1 = ExportCancelled ↔ result2 = ExportCancelled) ∧
    completed st1 = completed st2 ∧ failed st1 = failed st2 ∧
    requested st1 = requested st2 ∧
    failedConversations st1 ≡ₚ failedConversations st2.
Proof.
  apply (@exportAllFiltered_schedule sample_runtime 3 "org" "markdown" true seven
           quiet_world orderly_world).
  - reflexivity.
  - reflexivity.
  - by apply reverse_schedule_fair.
  - by intros i batch.
  - by apply seven_terminates.
  - vm_compute. lia.
Defined.

(** ** Export of all conversations by the content script *)

Section export_all.
Context `{RT : Runtime} (fuel : nat) (stringify_all : list Conversation → string)
        (fetch_list : string → list_response) (fetch : string → string → response)
        (orgId : string).

Lemma full_records_cons conv conversations :
  full_records fetch orgId (conv :: conversations) =
  match fetchConversation (fetch orgId (conv_uuid conv)) with
  | Returned fullConv =>
      set_model fullConv (inferModel fullConv) :: full_records fetch orgId conversations
  | _ => full_records fetch orgId conversations
  end.
Proof. unfold full_records. simpl. by destruct (fetchConversation _). Qed.

Lemma fetch_errors_cons conv conversations :
  fetch_errors fetch orgId (conv :: conversations) =
  match fetchConversation (fetch orgId (conv_uuid conv)) with
  | Thrown e => error_line conv e :: fetch_errors fetch orgId conversations
  | _ => fetch_errors fetch orgId conversations
  end.
Proof. unfold fetch_errors. simpl. by destruct (fetchConversation _). Qed.

Lemma rendered_cons format includeMetadata conv conversations :
  rendered fuel fetch orgId format includeMetadata (conv :: conversations) =
  match render_one fuel fetch orgId format includeMetadata conv with
  | Returned d => d :: rendered fuel fetch orgId format includeMetadata conversations
  | _ => rendered fuel fetch orgId format includeMetadata conversations
  end.
Proof. unfold rendered. simpl. by destruct (render_one _ _ _ _ _ _). Qed.

Lemma fetchConversation_settles r : fetchConversation r ≠ OutOfFuel.
Proof. unfold fetchConversation. destruct r as [|[] ? []]; done. Qed.

Lemma fetch_full_spec conversations fullConversations errors :
  fetch_full fetch orgId conversations fullConversations errors =
  Returned (fullConversations ++ full_records fetch orgId conversations,
            errors ++ fetch_errors fetch orgId conversations).
Proof.
  revert fullConversations errors.
  induction conversations as [|conv conversations IH]; intros fullConversations errors.
  - simpl. by rewrite !app_nil_r.
  - rewrite full_records_cons, fetch_errors_cons. simpl fetch_full.
    pose proof (fetchConversation_settles (fetch orgId (conv_uuid conv))).
    destruct (fetchConversation (fetch orgId (conv_uuid conv))) as [d|e|]; [| |done].
    + rewrite IH. by rewrite <- app_assoc.
    + rewrite IH. by rewrite <- app_assoc.
Qed.

Lemma full_or_error conversations :
  length (full_records fetch orgId conversations)
  + length (fetch_errors fetch orgId conversations) = length conversations.
Proof.
  induction conversations as [|conv conversations IH]; [done|].
  rewrite full_records_cons, fetch_errors_cons.
  pose proof (fetchConversation_settles (fetch orgId (conv_uuid conv))).
  destruct (fetchConversation (fetch orgId (conv_uuid conv))); [| |done];
    rewrite !length_cons; lia.
Qed.

(** X21. The JSON export of all conversations downloads exactly one file, also
    when some or all fetches fail: it holds the full records that could be
    fetched, in input order and with their models inferred, and every
    conversation is either in the file or in the warning. *)
Theorem exportAllConversations_json (includeMetadata : bool)
    (conversations : list Conversation) :
  fetchAllConversations (fetch_list orgId) = Returned conversations →
  exportAllConversations fuel stringify_all fetch_list fetch orgId "json" includeMetadata =
    Returned
      ([ {| dl_content := stringify_all (full_records fetch orgId conversations);
            dl_filename := "claude-all-conversations-" +:+ before_T Date_now_ISO
                           +:+ ".json";
            dl_type := "application/json" |} ],
       reply_after (length (full_records fetch orgId conversations))
         (length conversations) (fetch_errors fetch orgId conversations)) ∧
  length (full_records fetch orgId conversations)
  + length (fetch_errors fetch orgId conversations) = length conversations.
Proof.
  intros Hlist. split; [|apply full_or_error].
  unfold exportAllConversations. rewrite Hlist. cbn.
  by rewrite fetch_full_spec.
Qed.

Lemma render_one_error format includeMetadata conv e :
  render_one fuel fetch orgId format includeMetadata conv = Thrown e ↔
  fetchConversation (fetch orgId (conv_uuid conv)) = Thrown e.
Proof.
  unfold render_one.
  destruct (fetchConversation _) as [data|e'|]; cbn;
    [|split; by intros [= ->] | split; intros; discriminate].
  split; [|done]. destruct (bool_decide _).
  - pose proof (convertToMarkdown_no_throw fuel
                  (set_model data (inferModel data)) includeMetadata e) as Hno.
    destruct (convertToMarkdown _ _ _) as [?|e0|]; cbn; intros Hd;
      [discriminate | injection Hd as ->; by destruct Hno | discriminate].
  - pose proof (convertToText_no_throw fuel
                  (set_model data (inferModel data)) includeMetadata e) as Hno.
    destruct (convertToText _ _ _) as [?|e0|]; cbn; intros Hd;
      [discriminate | injection Hd as ->; by destruct Hno | discriminate].
Qed.

Lemma download_each_spec format includeMetadata conversations downloads count errors :
  (∀ c, c ∈ conversations →
        render_one fuel fetch orgId format includeMetadata c ≠ OutOfFuel) →
  download_each fuel fetch orgId format includeMetadata conversations
    downloads count errors =
  Returned (downloads ++ rendered fuel fetch orgId format includeMetadata conversations,
            count + length (rendered fuel fetch orgId format includeMetadata conversations),
            errors ++ fetch_errors fetch orgId conversations) ∧
  length (rendered fuel fetch orgId format includeMetadata conversations)
  + length (fetch_errors fetch orgId conversations) = length conversations.
Proof.
  revert downloads count errors.
  induction conversations as [|conv conversations IH]; intros downloads count errors Hfuel.
  - simpl. by rewrite !app_nil_r, Nat.add_0_r.
  - pose proof (Hfuel conv (list_elem_of_here _ _)) as Hconv.
    assert (∀ c, c ∈ conversations →
                 render_one fuel fetch orgId format includeMetadata c ≠ OutOfFuel)
      as Hrest by (intros c Hc; by apply Hfuel, list_elem_of_further).
    rewrite rendered_cons, fetch_errors_cons. simpl download_each.
    destruct (render_one fuel fetch orgId format includeMetadata conv) as [d|e|] eqn:Hr;
      [| |done].
    + assert (∀ e, fetchConversation (fetch orgId (conv_uuid conv)) ≠ Thrown e) as Hok.
      { intros e He. apply (render_one_error format includeMetadata) in He. congruence. }
      destruct (IH (downloads ++ [d]) (count + 1) errors Hrest) as [-> Hlen].
      rewrite length_cons, <- app_assoc.
      destruct (fetchConversation (fetch orgId (conv_uuid conv))) as [?|e|];
        [|by destruct (Hok e)|].
      * split; [do 3 f_equal; lia | simpl; lia].
      * split; [do 3 f_equal; lia | simpl; lia].
    + apply render_one_error in Hr. rewrite Hr.
      destruct (IH downloads count (errors ++ [error_line conv e]) Hrest) as [-> Hlen].
      rewrite !length_cons, <- app_assoc. split; [done | lia].
Qed.

(** X22. In any other format each conversation is downloaded as a file of its
    own, Markdown for the format [markdown] and text for every other one;
    the files are those of the conversations that could be fetched, in input
    order; the count in the answer is their number; and every conversation
    is either downloaded or named in the warning. *)
Theorem exportAllConversations_files (format : string) (includeMetadata : bool)
    (conversations : list Conversation) :
  format ≠ "json" →
  fetchAllConversations (fetch_list orgId) = Returned conversations →
  (∀ c, c ∈ conversations →
        render_one fuel fetch orgId format includeMetadata c ≠ OutOfFuel) →
  exportAllConversations fuel stringify_all fetch_list fetch orgId format includeMetadata =
    Returned
      (rendered fuel fetch orgId format includeMetadata conversations,
       reply_after
         (length (rendered fuel fetch orgId format includeMetadata conversations))
         (length conversations) (fetch_errors fetch orgId conversations)) ∧
  length (rendered fuel fetch orgId format includeMetadata conversations)
  + length (fetch_errors fetch orgId conversations) = length conversations ∧
  (∀ d, d ∈ rendered fuel fetch orgId format includeMetadata conversations →
        dl_type d = if bool_decide (format = "markdown")
                    then "text/markdown" else "text/plain").
Proof.
  intros Hformat Hlist Hfuel.
  destruct (download_each_spec format includeMetadata conversations [] 0 [] Hfuel)
    as [Hrun Hlen].
  split; [|split; [done|]].
  - unfold exportAllConversations. rewrite Hlist. cbn.
    rewrite bool_decide_eq_false_2 by done. by rewrite Hrun.
  - intros d (c & _ & Hd)%list_elem_of_omap.
    unfold render_one in Hd.
    destruct (fetchConversation _) as [data| |]; cbn in Hd; [|done..].
    destruct (bool_decide (format = "markdown")).
    + destruct (convertToMarkdown _ _ _); cbn in Hd; [|done..]. by injection Hd as <-.
    + destruct (convertToText _ _ _); cbn in Hd; [|done..]. by injection Hd as <-.
Qed.

(** X23. The answer reports a failure exactly when the list of conversations
    could not be fetched, and then nothing is downloaded; the failure of a
    single conversation never does. *)
Theorem exportAllConversations_failure (format : string) (includeMetadata : bool)
    (downloads : list Download) (reply : Reply) :
  exportAllConversations fuel stringify_all fetch_list fetch orgId format includeMetadata
    = Returned (downloads, reply) →
  (reply_success reply = false ↔
   ∃ e, fetchAllConversations (fetch_list orgId) = Thrown e) ∧
  (∀ e, fetchAllConversations (fetch_list orgId) = Thrown e →
        downloads = [] ∧ reply_error reply = Some e).
Proof.
  unfold exportAllConversations.
  destruct (fetchAllConversations (fetch_list orgId)) as [conversations|e|]; [| |done].
  - assert (∀ count total errors, reply_success (reply_after count total errors) = true)
      as Hok by (intros; unfold reply_after; by case_bool_decide).
    intros Hrun.
    assert (reply_success reply = true) as Hs.
    { destruct (bool_decide (format = "json")).
      - destruct (fetch_full _ _ _ _ _) as [[? ?]| |]; cbn in Hrun; [|done..].
        injection Hrun as _ <-. apply Hok.
      - destruct (download_each _ _ _ _ _ _ _ _ _) as [[[? ?] ?]| |]; cbn in Hrun;
          [|done..].
        injection Hrun as _ <-. apply Hok. }
    split; [|done]. rewrite Hs. split; [done|]. by intros [e He].
  - intros [= <- <-]. split; [split; eauto|]. by intros e' [= ->].
Qed.
End export_all.

Lemma exportAllConversations_json_witness :
  ∃ d reply,
    @exportAllConversations sample_runtime 3 sample_stringify_all seven_list
      (flaky_fetch seven) "org" "json" false = Returned ([d], reply) ∧
    reply_count reply = Some 6 ∧
    dl_filename d = "claude-all-conversations-2025-11-03.json".
Proof.
  destruct (@exportAllConversations_json sample_runtime 3 sample_stringify_all
              seven_list (flaky_fetch seven) "org" false seven eq_refl) as [-> _].
  eexists _, _. split; [reflexivity|]. by vm_compute.
Defined.

Lemma exportAllConversations_files_witness :
  ∃ downloads reply,
    @exportAllConversations sample_runtime 3 sample_stringify_all seven_list
      (flaky_fetch seven) "org" "text" false = Returned (downloads, reply) ∧
    length downloads = 6 ∧
    reply_warnings reply
      = Some "Exported 6/7 conversations. Some failed: Chat 5: Failed to fetch conversation: 500".
Proof.
  destruct (@exportAllConversations_files sample_runtime 3 sample_stringify_all
              seven_list (flaky_fetch seven) "org" "text" false seven) as (-> & _ & _).
  - discriminate.
  - reflexivity.
  - intros c Hin.
    repeat (apply elem_of_cons in Hin as [->|Hin]); [by vm_compute..|].
    by apply elem_of_nil in Hin.
  - eexists _, _. split; [reflexivity|]. by vm_compute.
Defined.

Lemma exportAllConversations_failure_witness :
  ∃ reply,
    @exportAllConversations sample_runtime 3 sample_stringify_all broken_list
      (flaky_fetch seven) "org" "json" false = Returned ([], reply) ∧
    reply_success reply = false ∧
    reply_error reply = Some "Failed to fetch conversations: 503".
Proof.
  eexists. split; [reflexivity|].
  destruct (@exportAllConversations_failure sample_runtime 3 sample_stringify_all
              broken_list (flaky_fetch seven) "org" "json" false [] _ eq_refl)
    as [Hfail Herror].
  split; [apply Hfail; by eexists | by apply Herror].
Defined.

(** ** The filter of the browse page *)

Section filters.
Context (toLowerCase : string → string) (searchInput modelFilter : string).

Local Abbreviation searchTerm := (toLowerCase searchInput).
Local Abbreviation keeps :=
  (λ conv, matches_filters toLowerCase (toLowerCase searchInput) modelFilter conv
           = Returned true).

Lemma matches_filters_cases conv :
  (searchTerm ≠ "" ∧ name conv = None ∧
   matches_filters toLowerCase searchTerm modelFilter conv
     = Thrown "TypeError: conv.name is null") ∨
  ((searchTerm = "" ∨ is_Some (name conv)) ∧
   ∃ keep, matches_filters toLowerCase searchTerm modelFilter conv = Returned keep ∧
           (keep = true → modelFilter ≠ "" → model conv = Some modelFilter)).
Proof.
  unfold matches_filters.
  assert (∀ b, ∃ keep,
            Returned (b && (bool_decide (modelFilter = "")
                            || bool_decide (model conv = Some modelFilter))) = Returned keep ∧
            (keep = true → modelFilter ≠ "" → model conv = Some modelFilter)) as Hmodel.
  { intros b. eexists. split; [done|].
    intros [_ [Hm|Hm]%orb_true_iff]%andb_true_iff Hne;
      apply bool_decide_eq_true in Hm; done. }
  destruct (decide (searchTerm = "")) as [Hterm|Hterm].
  - rewrite (bool_decide_eq_true_2 _ Hterm). cbn.
    right. split; [by left|]. exact (Hmodel true).
  - rewrite (bool_decide_eq_false_2 _ Hterm).
    destruct (name conv) as [n|].
    + right. split; [right; eauto|].
      destruct (includes (toLowerCase n) searchTerm); [exact (Hmodel true)|].
      destruct (truthy (summary conv)); [apply Hmodel | exact (Hmodel false)].
    + by left.
Qed.

Lemma filter_conversations_spec allConversations :
  (∃ c, c ∈ allConversations ∧ searchTerm ≠ "" ∧ name c = None ∧
        filter_conversations toLowerCase searchTerm modelFilter allConversations
          = Thrown "TypeError: conv.name is null") ∨
  ((∀ c, c ∈ allConversations → searchTerm = "" ∨ is_Some (name c)) ∧
   filter_conversations toLowerCase searchTerm modelFilter allConversations
     = Returned (filter keeps allConversations)).
Proof.
  induction allConversations as [|conv rest IH].
  - right. split; [by intros c ?%elem_of_nil | done].
  - simpl. destruct (matches_filters_cases conv)
      as [(Hterm & Hname & ->)|(Hok & keep & Hkeep & _)].
    + left. exists conv. split; [by left | done].
    + rewrite Hkeep, filter_cons.
      destruct IH as [(c & Hin & Hterm & Hname & ->)|(Hall & ->)].
      * left. exists c. split; [by right | done].
      * right. split.
        -- intros c [->|Hc]%elem_of_cons; [done | by apply Hall].
        -- destruct keep.
           ++ by rewrite decide_True.
           ++ rewrite decide_False; [done|]. rewrite Hkeep. discriminate.
Qed.

Lemma apply_filters_kept (allConversations kept : list Conversation) :
  apply_filters toLowerCase searchInput modelFilter allConversations = Returned kept →
  kept = filter keeps allConversations ∧
  (modelFilter ≠ "" → ∀ c, c ∈ kept → model c = Some modelFilter).
Proof.
  unfold apply_filters.
  destruct (filter_conversations_spec allConversations)
    as [(c & _ & _ & _ & ->)|(_ & ->)]; [done|].
  intros [= <-]. split; [done|].
  intros Hne c [Hkeep _]%list_elem_of_filter.
  destruct (matches_filters_cases c) as [(_ & _ & Hthrow)|(_ & keep & Hk & Hmodel)];
    [congruence|].
  rewrite Hkeep in Hk. injection Hk as <-. by apply Hmodel.
Qed.

(** X25. With an empty search box and no model selected every conversation is
    kept.  The filter throws exactly when the search box is not empty and
    some conversation has no name. *)
Theorem apply_filters_edges (allConversations : list Conversation) :
  (searchTerm = "" → modelFilter = "" →
   apply_filters toLowerCase searchInput modelFilter allConversations
     = Returned allConversations) ∧
  ((∃ e, apply_filters toLowerCase searchInput modelFilter allConversations = Thrown e) ↔
   searchTerm ≠ "" ∧ ∃ c, c ∈ allConversations ∧ name c = None).
Proof.
  unfold apply_filters. split.
  - intros Hterm Hmodel.
    destruct (filter_conversations_spec allConversations)
      as [(c & _ & Hne & _)|(_ & ->)]; [done|].
    f_equal. induction allConversations as [|conv rest IH]; [done|].
    rewrite filter_cons, decide_True, IH; [done|].
    unfold matches_filters. rewrite Hterm, Hmodel. by cbn.
  - destruct (filter_conversations_spec allConversations)
      as [(c & Hin & Hterm & Hname & ->)|(Hall & ->)].
    + split; [eauto|]. intros _. eauto.
    + split; [by intros [e ?]|]. intros (Hterm & c & Hin & Hname).
      destruct (Hall c Hin) as [?|[n Hn]]; congruence.
Qed.

End filters.

Lemma apply_filters_edges_witness :
  apply_filters (λ s, s) "" "" [nameless; numbered "1"] = Returned [nameless; numbered "1"] ∧
  ∃ e, apply_filters (λ s, s) "cats" "" [numbered "1"; nameless] = Thrown e.
Proof.
  split.
  - by apply (apply_filters_edges (λ s, s) "" "" [nameless; numbered "1"]).
  - apply (apply_filters_edges (λ s, s) "cats" "" [numbered "1"; nameless]).
    split; [done|]. exists nameless. split; [|done].
    right. by left.
Defined.

(** ** Filtering and sorting the browse page *)

Lemma insert_sorted_permutes {A} (compare : A → A → outcome Z) x l l' :
  insert_sorted compare x l = Returned l' → l' ≡ₚ x :: l.
Proof.
  revert l'. induction l as [|y l IH]; intros l'.
  - by intros [= <-].
  - cbn [insert_sorted]. destruct (compare x y) as [z| |]; cbn; [|done..].
    case_bool_decide; [by intros [= <-]|].
    destruct (insert_sorted compare x l) as [r| |]; cbn; [|done..].
    intros [= <-]. rewrite (IH r eq_refl). apply Permutation_swap.
Qed.

Lemma insertion_sort_permutes {A} (compare : A → A → outcome Z) l l' :
  insertion_sort compare l = Returned l' → l' ≡ₚ l.
Proof.
  revert l'. induction l as [|x l IH]; intros l'.
  - by intros [= <-].
  - cbn [insertion_sort]. destruct (insertion_sort compare l) as [sorted| |]; cbn; [|done..].
    intros Hinsert%insert_sorted_permutes. by rewrite Hinsert, (IH sorted eq_refl).
Qed.

Lemma insert_sorted_returns {A} (compare : A → A → outcome Z) x l :
  (∀ y, y ∈ l → ∃ z, compare x y = Returned z) →
  ∃ l', insert_sorted compare x l = Returned l'.
Proof.
  induction l as [|y l IH]; intros Hcompare; [by eexists|].
  cbn [insert_sorted].
  destruct (Hcompare y) as [z ->]; [by left|]. cbn.
  case_bool_decide; [by eexists|].
  destruct IH as [r ->]; [|by eexists].
  intros y' Hy'. apply Hcompare. by right.
Qed.

Lemma insertion_sort_returns {A} (compare : A → A → outcome Z) l :
  (∀ a b, a ∈ l → b ∈ l → ∃ z, compare a b = Returned z) →
  ∃ l', insertion_sort compare l = Returned l'.
Proof.
  induction l as [|x l IH]; intros Hcompare; [by eexists|].
  cbn [insertion_sort].
  destruct IH as [sorted Hsorted].
  { intros a b Ha Hb. apply Hcompare; by right. }
  rewrite Hsorted. cbn. apply insert_sorted_returns.
  intros y Hy. apply Hcompare; [by left|].
  right. by rewrite <- (insertion_sort_permutes _ _ _ Hsorted).
Qed.

Lemma compare_conversations_returns `{Runtime} toLowerCase field direction a b :
  is_Some (name a) → is_Some (name b) →
  ∃ z, compare_conversations toLowerCase field direction a b = Returned z.
Proof.
  intros [n Hn] [n' Hn']. unfold compare_conversations, lowered_name.
  rewrite Hn, Hn'. repeat case_bool_decide; by eexists.
Qed.

Section sorting.
Context `{Runtime}.
Context (Array_sort : (Conversation → Conversation → outcome Z) →
                      list Conversation → outcome (list Conversation)).
Context (toLowerCase : string → string) (searchInput modelFilter currentSort : string).

(** What the sort of the engine is relied on for: it returns the elements
    it was given, and it returns when the comparator does. *)
Hypothesis sort_permutes :
  ∀ compare l l', Array_sort compare l = Returned l' → l' ≡ₚ l.
Hypothesis sort_returns :
  ∀ compare l,
    (∀ a b, a ∈ l → b ∈ l → ∃ z, compare a b = Returned z) →
    ∃ l', Array_sort compare l = Returned l'.

(** X24. The list that the browse page shows holds the conversations that
    match the search text and the selected model, each as often as it is
    among the loaded ones, and no other; with a model selected it holds
    conversations of that model only.  When every loaded conversation has a
    name, filtering and sorting return, whatever the search text and the
    sort key. *)
Theorem applyFiltersAndSort_result (allConversations : list Conversation) :
  (∀ shown,
     applyFiltersAndSort Array_sort toLowerCase searchInput modelFilter currentSort
       allConversations = Returned shown →
     shown ≡ₚ filter (λ conv, matches_filters toLowerCase (toLowerCase searchInput)
                                modelFilter conv = Returned true) allConversations ∧
     (modelFilter ≠ "" → ∀ c, c ∈ shown → model c = Some modelFilter)) ∧
  ((∀ c, c ∈ allConversations → is_Some (name c)) →
   ∃ shown,
     applyFiltersAndSort Array_sort toLowerCase searchInput modelFilter currentSort
       allConversations = Returned shown).
Proof.
  unfold applyFiltersAndSort, sortConversations. split.
  - intros shown.
    destruct (apply_filters toLowerCase searchInput modelFilter allConversations)
      as [kept| |] eqn:Hkept; cbn; [|done..].
    destruct (apply_filters_kept _ _ _ _ _ Hkept) as [-> Hmodel].
    intros Hshown%sort_permutes. split; [done|].
    intros Hne c Hc. rewrite Hshown in Hc. by apply Hmodel.
  - intros Hnames. unfold apply_filters.
    destruct (filter_conversations_spec toLowerCase searchInput modelFilter allConversations)
      as [(c & Hc & _ & Hnone & _)|(_ & ->)].
    + destruct (Hnames c Hc) as [n Hn]. congruence.
    + cbn. apply sort_returns. intros a b [_ Ha]%list_elem_of_filter [_ Hb]%list_elem_of_filter.
      apply compare_conversations_returns; by apply Hnames.
Qed.
End sorting.

Lemma applyFiltersAndSort_result_witness :
  @applyFiltersAndSort sample_runtime insertion_sort (λ s, s) "Chat" "" "name_desc" seven
    = Returned (reverse seven) ∧
  reverse seven ≡ₚ
    filter (λ conv, matches_filters (λ s, s) "Chat" "" conv = Returned true) seven.
Proof.
  destruct (@applyFiltersAndSort_result sample_runtime insertion_sort (λ s, s)
              "Chat" "" "name_desc"
              (λ compare l l', insertion_sort_permutes compare l l')
              (λ compare l, insertion_sort_returns compare l) seven) as [Hshown _].
  assert (@applyFiltersAndSort sample_runtime insertion_sort (λ s, s) "Chat" "" "name_desc"
            seven = Returned (reverse seven)) as Hrun by (by vm_compute).
  split; [exact Hrun|]. apply (Hshown (reverse seven) Hrun).
Defined.

(** ** Loading the browse page *)

Lemma distinct_spec xs seen :
  NoDup (distinct xs seen) ∧
  ∀ x, x ∈ distinct xs seen ↔ x ∈ xs ∧ x ∉ seen.
Proof.
  revert seen. induction xs as [|y xs IH]; intros seen.
  - split; [constructor|]. intros x. split; [by intros ?%elem_of_nil|].
    by intros [?%elem_of_nil _].
  - change (distinct (y :: xs) seen)
      with (if bool_decide (y ∈ seen) then distinct xs seen
            else y :: distinct xs (y :: seen)).
    case_bool_decide as Hy.
    + destruct (IH seen) as [Hnd Hmem]. split; [done|].
      intros x. rewrite Hmem, elem_of_cons. split; [tauto|].
      intros [[->|Hx] Hseen]; tauto.
    + destruct (IH (y :: seen)) as [Hnd Hmem]. split.
      * constructor; [|done]. rewrite Hmem, elem_of_cons. tauto.
      * intros x. rewrite elem_of_cons, Hmem, !elem_of_cons.
        destruct (decide (x = y)) as [->|Hxy]; tauto.
Qed.

Lemma truthy_only_NoDup (l : list (option string)) :
  NoDup l → NoDup (omap (λ m, if truthy m then m else None) l).
Proof.
  induction 1 as [|x l Hx Hnd IH]; [constructor|].
  change (omap ?f (x :: l))
    with (match f x with Some y => y :: omap f l | None => omap f l end).
  cbv beta. destruct (truthy x) eqn:Ht; [|done].
  destruct x as [s|]; [|done].
  constructor; [|done].
  rewrite list_elem_of_omap. intros (y & Hy & Heq).
  destruct (truthy y); [|done]. by subst.
Qed.

Section loading.
Context `{Runtime} (sort : list string → list string).
Hypothesis sort_permutes : ∀ l, sort l ≡ₚ l.

Lemma model_options_offers (allConversations : list Conversation) c m :
  c ∈ allConversations → model c = Some m → m ≠ "" →
  m ∈ model_options sort allConversations.
Proof.
  intros Hc Hm Hne. unfold model_options.
  rewrite sort_permutes, list_elem_of_omap. exists (Some m). split.
  - apply distinct_spec. split; [|by intros ?%elem_of_nil].
    apply list_elem_of_fmap. eauto.
  - simpl. by rewrite bool_decide_eq_true_2.
Qed.

(** X27. The options of the model filter are the non-empty models that occur
    among the conversations, each listed once. *)
Theorem model_options_spec (allConversations : list Conversation) :
  NoDup (model_options sort allConversations) ∧
  ∀ m, m ∈ model_options sort allConversations ↔
       m ≠ "" ∧ ∃ c, c ∈ allConversations ∧ model c = Some m.
Proof.
  unfold model_options.
  destruct (distinct_spec (model <$> allConversations) []) as [Hnd Hmem].
  split.
  - rewrite sort_permutes. by apply truthy_only_NoDup.
  - intros m. split.
    + rewrite sort_permutes, list_elem_of_omap.
      intros (x & [(c & -> & Hc)%list_elem_of_fmap _]%Hmem & Hx).
      destruct (truthy (model c)) eqn:Ht; [|done].
      rewrite Hx in Ht. apply bool_decide_eq_true in Ht. eauto.
    + intros (Hne & c & Hc & Hm).
      by apply (model_options_offers allConversations c m).
Qed.

(** X28. After loading, every conversation has a model that the filter offers,
    and selecting that model with an empty search box keeps the
    conversation. *)
Theorem loaded_conversation_has_option (toLowerCase : string → string)
    (searchInput : string) (conversations : list Conversation) (c : Conversation) :
  toLowerCase searchInput = "" →
  c ∈ with_inferred_models conversations →
  ∃ m kept,
    model c = Some m ∧
    m ∈ model_options sort (with_inferred_models conversations) ∧
    apply_filters toLowerCase searchInput m (with_inferred_models conversations)
      = Returned kept ∧
    c ∈ kept.
Proof.
  intros Hterm Hc.
  pose proof Hc as (c0 & -> & Hc0)%list_elem_of_fmap.
  exists (inferModel c0).
  destruct (filter_conversations_spec toLowerCase searchInput (inferModel c0)
              (with_inferred_models conversations))
    as [(c' & _ & Hne & _)|(_ & Hfilter)]; [done|].
  eexists. split; [done|]. split; [|split; [exact Hfilter|]].
  - by eapply model_options_offers; [exact Hc| |apply inferModel_nonempty].
  - apply list_elem_of_filter. split; [|done].
    unfold matches_filters. rewrite Hterm. cbn.
    by rewrite (bool_decide_eq_true_2 (Some _ = Some _)), orb_true_r.
Qed.
End loading.

Lemma loaded_conversation_has_option_witness :
  ∃ m kept,
    model (set_model undated_before (@inferModel sample_runtime undated_before)) = Some m ∧
    m ∈ model_options (merge_sort String.le)
          (@with_inferred_models sample_runtime [sample_conversation; undated_before]) ∧
    apply_filters (λ s, s) "" m
      (@with_inferred_models sample_runtime [sample_conversation; undated_before])
      = Returned kept ∧
    set_model undated_before (@inferModel sample_runtime undated_before) ∈ kept.
Proof.
  apply (@loaded_conversation_has_option sample_runtime (merge_sort String.le)
           (merge_sort_Permutation _) (λ s, s) ""
           [sample_conversation; undated_before]).
  - reflexivity.
  - right. by left.
Defined.

Lemma model_options_spec_witness :
  NoDup (model_options (merge_sort String.le) seven) ∧
  ∀ m, m ∈ model_options (merge_sort String.le) seven ↔
       m ≠ "" ∧ ∃ c, c ∈ seven ∧ model c = Some m.
Proof.
  apply (model_options_spec (merge_sort String.le) (merge_sort_Permutation _) seven).
Defined.
